(** * Image compositing: a shallow embedding of [composites/image_composites.py]

    The script builds one composite raster from a stack of co-registered
    rasters.  For every block it reads the block from every input into a
    buffer [dat] indexed (image, band, row, col), evaluates a criterion
    S-expression on the band slices the expression mentions, and copies, for
    every pixel, all the band values of the image the criterion selected.

    The embedding follows the script top to bottom.  The third-party
    libraries it calls are modelled by what the script uses of them:
    - numpy: arrays are nested lists; [argmax], [argmin], [median], [abs],
      [rollaxis], [meshgrid], integer-array indexing and the broadcasting
      slice assignment are written out;
    - snuggs: the reader, the resolution of names at parse time (in snuggs'
      tables, then in the numpy module) and the evaluation of the resolved
      tree;
    - rasterio: a raster is a record of the metadata the script reads and a
      read function; every call that touches a file leaves an event in a
      trace.
    Validity masks of the masked arrays are not represented: rasters are
    taken to carry no masked pixel, and a quotient that [numpy.ma] would
    mask ends the fragment that is written out.  The arithmetic of the array
    elements is a parameter; it is instantiated for rasters of dtype float64
    and, as a reference, for exact rationals. *)

From Stdlib Require Import ZArith QArith Qabs String Ascii List Lia PrimFloat Uint63.
From stdpp Require Import base option list strings gmap.

Local Open Scope Z_scope.

(* Decimal literals such as 0.2 stand for the nearest binary64 value. *)
Set Warnings "-inexact-float".

(** ** Python: exceptions and partial results *)

(** The exceptions the script and its libraries raise. *)
Inductive error :=
  | UsageError | BadParameter | Abort
  | ExpressionError | KeyError | IndexError | ValueError | TypeError | IOError.

(** What a call does: it returns, it raises, or it leaves the part of numpy
    and snuggs that is written out here ([Unmodelled]: broadcasting between
    arrays of different shapes, literals, quotients that [numpy.ma] masks,
    the snuggs built-ins the script does not install and the functions of
    the numpy module).  Nothing is stated about an [Unmodelled] run. *)
Inductive outcome (X : Type) :=
  | Ok (x : X)
  | Raise (e : error)
  | Unmodelled.
Arguments Ok {X} x.
Arguments Raise {X} e.
Arguments Unmodelled {X}.

#[global] Instance outcome_ret : MRet outcome := λ X x, Ok x.
#[global] Instance outcome_bind : MBind outcome := λ X Y f m,
  match m with
  | Ok x => f x
  | Raise e => Raise e
  | Unmodelled => Unmodelled
  end.
#[global] Instance outcome_fmap : FMap outcome := λ X Y f m,
  match m with
  | Ok x => Ok (f x)
  | Raise e => Raise e
  | Unmodelled => Unmodelled
  end.

(** [o] when it is [Some], else the exception [e]. *)
Definition or_raise {X} (e : error) (o : option X) : outcome X :=
  match o with Some x => Ok x | None => Raise e end.

(** *** [int(s)] on a string *)

Definition is_space (c : ascii) : bool :=
  let n := nat_of_ascii c in ((n =? 32) || ((9 <=? n) && (n <=? 13)))%nat.
Definition is_digit (c : ascii) : bool :=
  let n := nat_of_ascii c in ((48 <=? n) && (n <=? 57))%nat.
Definition is_alpha (c : ascii) : bool :=
  let n := nat_of_ascii c in
  (((65 <=? n) && (n <=? 90)) || ((97 <=? n) && (n <=? 122)))%nat.

Fixpoint lstrip (l : list ascii) : list ascii :=
  match l with
  | c :: t => if is_space c then lstrip t else l
  | [] => []
  end.
Definition strip (l : list ascii) : list ascii := rev (lstrip (rev (lstrip l))).

Fixpoint digits_val (acc : Z) (l : list ascii) : option Z :=
  match l with
  | [] => Some acc
  | c :: t =>
      if is_digit c
      then digits_val (10 * acc + (Z.of_nat (nat_of_ascii c) - 48)) t
      else None
  end.

(** Python 2 [int(s)] for a [str]: surrounding white space is dropped, one
    sign is allowed, the rest must be one or more decimal digits;
    [None] stands for [ValueError]. *)
Definition py_int (s : string) : option Z :=
  match strip (list_ascii_of_string s) with
  | [] => None
  | c :: t =>
      if Ascii.eqb c "+" then match t with [] => None | _ => digits_val 0 t end
      else if Ascii.eqb c "-"
      then match t with [] => None | _ => Z.opp <$> digits_val 0 t end
      else digits_val 0 (c :: t)
  end.

(** *** [k in expr] on strings: substring containment *)

Fixpoint is_prefix (p s : list ascii) : bool :=
  match p, s with
  | [], _ => true
  | a :: p', b :: s' => Ascii.eqb a b && is_prefix p' s'
  | _ :: _, [] => false
  end.

Fixpoint contains (s p : list ascii) : bool :=
  is_prefix p s || match s with [] => false | _ :: s' => contains s' p end.

Definition py_in (k expr : string) : bool :=
  contains (list_ascii_of_string expr) (list_ascii_of_string k).

(** ** Pixel values *)

(** The arithmetic of one array element type.  [s_le] is C's [<=], false as
    soon as an operand is a NaN; [s_of_Z] is the conversion of a count.
    [s_div_masked a b] tells whether [numpy.ma]'s division masks the
    quotient [a / b]: the buffer of line 166 is a masked array, and
    [numpy.ma.true_divide] masks an entry whose divisor is zero (up to its
    tolerance) or whose quotient is not finite. *)
Class Scalar (A : Type) := {
  s_add : A → A → A;
  s_sub : A → A → A;
  s_mul : A → A → A;
  s_div : A → A → A;
  s_div_masked : A → A → bool;
  s_abs : A → A;
  s_le : A → A → bool;
  s_isnan : A → bool;
  s_of_Z : Z → A
}.

(** The conversion of a count to float64. *)
Definition float_of_Z (z : Z) : float :=
  match z with
  | Z0 => PrimFloat.of_uint63 0%uint63
  | Zpos _ => PrimFloat.of_uint63 (Uint63.of_Z z)
  | Zneg _ => PrimFloat.opp (PrimFloat.of_uint63 (Uint63.of_Z (- z)))
  end.

(** [numpy.ma]'s domain of a safe division: [abs(a) * tiny >= abs(b)], with
    [tiny] the smallest positive normal float64; and the test that masks a
    quotient that is not finite. *)
Definition float_tiny : float := 0x1p-1022%float.
Definition float_div_masked (a b : float) : bool :=
  PrimFloat.leb (PrimFloat.abs b) (PrimFloat.mul (PrimFloat.abs a) float_tiny)
  || negb (PrimFloat.is_finite (PrimFloat.div a b)).

(** Rasters of dtype float64: IEEE binary64, as numpy computes.  Rasters of
    another dtype compute in that dtype (integers wrap around, float32
    rounds to 24 bits): they are not among the instances. *)
#[global] Instance float64 : Scalar float := {|
  s_add := PrimFloat.add;
  s_sub := PrimFloat.sub;
  s_mul := PrimFloat.mul;
  s_div := PrimFloat.div;
  s_div_masked := float_div_masked;
  s_abs := PrimFloat.abs;
  s_le := PrimFloat.leb;
  s_isnan := PrimFloat.is_nan;
  s_of_Z := float_of_Z
|}.

(** Exact rational arithmetic: what the float64 computation rounds.  There is
    no NaN and no infinity; the quotient is masked exactly when the divisor
    is zero. *)
#[global] Instance exact : Scalar Q := {|
  s_add := Qplus;
  s_sub := Qminus;
  s_mul := Qmult;
  s_div := Qdiv;
  s_div_masked := λ _ b, Qeq_bool b 0;
  s_abs := Qabs;
  s_le := Qle_bool;
  s_isnan := λ _, false;
  s_of_Z := inject_Z
|}.

(** The order laws the selection functions rely on: away from NaN, [<=] is
    total and transitive. *)
Class ScalarOrder (A : Type) `{Scalar A} : Prop := {
  s_le_total x y :
    s_isnan x = false → s_isnan y = false → s_le x y = true ∨ s_le y x = true;
  s_le_trans x y z :
    s_isnan x = false → s_isnan y = false → s_isnan z = false →
    s_le x y = true → s_le y z = true → s_le x z = true
}.

(** The same arithmetic with the order reversed: a largest element of one is
    a smallest element of the other. *)
Definition reversed {A} (S : Scalar A) : Scalar A := {|
  s_add := s_add; s_sub := s_sub; s_mul := s_mul; s_div := s_div;
  s_div_masked := s_div_masked; s_abs := s_abs; s_le := λ x y, s_le y x;
  s_isnan := s_isnan; s_of_Z := s_of_Z
|}.

(** ** numpy: arrays as nested lists *)

(** A 2-D array (row, col) and a 3-D array (image or band, row, col). *)
Abbreviation plane X := (list (list X)).
Abbreviation stack X := (list (list (list X))).

(** [a[i]] along the first axis: a negative index counts from the end, an
    index outside [-n, n) raises [IndexError]. *)
Definition np_index {X} (a : list X) (i : Z) : outcome X :=
  let n := Z.of_nat (length a) in
  if (0 <=? i) && (i <? n) then or_raise IndexError (a !! Z.to_nat i)
  else if (- n <=? i) && (i <? 0) then or_raise IndexError (a !! Z.to_nat (n + i))
  else Raise IndexError.

(** The first axis moved last: (n, R, C) becomes (R, C, n).  numpy knows the
    shape of an empty array; a nested list does not, and the script never
    moves an empty axis (there is at least one input image and one band). *)
Fixpoint axis0_last {X} (a : stack X) : stack X :=
  match a with
  | [] => []
  | [img] => map (map (λ x, [x])) img
  | img :: rest => zip_with (zip_with cons) img (axis0_last rest)
  end.

(** [np.rollaxis(dat, 1, 4)]: (image, band, row, col) to (image, row, col, band). *)
Definition np_rollaxis_1_4 {X} (dat : list (stack X)) : list (stack X) :=
  map axis0_last dat.

(** [np.meshgrid(np.arange(R), np.arange(C), indexing='ij')]. *)
Definition np_meshgrid_ij (R C : nat) : plane Z * plane Z :=
  (map (λ r, replicate C (Z.of_nat r)) (seq 0 R),
   replicate R (map Z.of_nat (seq 0 C))).

(** Pointwise combination of lists of one length; lists of different lengths
    are the broadcasting cases that are not written out. *)
Fixpoint zip_same {X Y W} (f : X → Y → outcome W) (l : list X) (k : list Y)
  : outcome (list W) :=
  match l, k with
  | [], [] => Ok []
  | x :: l', y :: k' => z ← f x y; r ← zip_same f l' k'; Ok (z :: r)
  | _, _ => Unmodelled
  end.

(** [a[i0, i1, i2]] for three integer index arrays of one 2-D shape: the
    result has that shape, its entry at (r, c) is
    [a[i0[r,c], i1[r,c], i2[r,c]]] (for a 4-D [a], the vector along the last
    axis). *)
Definition np_take3 {X} (a : stack X) (i0 i1 i2 : plane Z) : outcome (plane X) :=
  i12 ← zip_same (zip_same (λ j k, Ok (j, k))) i1 i2;
  zip_same (zip_same (λ i '(j, k),
      img ← np_index a i; row ← np_index img j; np_index row k)) i0 i12.

(** [a[:, :, b]] of a 3-D array indexed (row, col, band). *)
Definition np_last_axis {X} (a : stack X) (b : nat) : outcome (plane X) :=
  mapM (mapM (λ px : list X, or_raise IndexError (px !! b))) a.

(** Broadcasting one axis to length [n]: a length-1 axis is repeated, any
    other length mismatch raises [ValueError]. *)
Definition bcast_len {X} (n : nat) (l : list X) : outcome (list X) :=
  if (length l =? n)%nat then Ok l
  else match l with [x] => Ok (replicate n x) | _ => Raise ValueError end.

(** The right-hand side of [dat[j, ...] = x] broadcast to the shape
    (count, R, C) of [dat[j]]. *)
Definition broadcast_to3 {X} (count R C : nat) (x : stack X) : outcome (stack X) :=
  x1 ← mapM (mapM (bcast_len C)) x;
  x2 ← mapM (bcast_len R) x1;
  bcast_len count x2.

(** [np.ma.empty((n, count, R, C))]: storage that is not initialised, here
    filled with an arbitrary value [junk]. *)
Definition np_empty {X} (n count R C : nat) (junk : X) : list (stack X) :=
  replicate n (replicate count (replicate R (replicate C junk))).

Section numpy.
Context {A : Type} `{Scalar A}.

(** numpy's argmax loop over one axis: the running maximum [mp] is replaced
    by [x] when [!(x <= mp)], and the scan stops at the first NaN. *)
Fixpoint argmax_loop (mp : A) (best i : nat) (l : list A) : nat :=
  match l with
  | [] => best
  | x :: t =>
      if negb (s_le x mp)
      then if s_isnan x then i else argmax_loop x i (S i) t
      else argmax_loop mp best (S i) t
  end.

Definition argmax1 (l : list A) : outcome nat :=
  match l with
  | [] => Raise ValueError
  | x :: t => Ok (if s_isnan x then 0 else argmax_loop x 0 1 t)%nat
  end.

(** numpy's argmin loop: [mp] is replaced by [x] when [!(x >= mp)]. *)
Fixpoint argmin_loop (mp : A) (best i : nat) (l : list A) : nat :=
  match l with
  | [] => best
  | x :: t =>
      if negb (s_le mp x)
      then if s_isnan x then i else argmin_loop x i (S i) t
      else argmin_loop mp best (S i) t
  end.

Definition argmin1 (l : list A) : outcome nat :=
  match l with
  | [] => Raise ValueError
  | x :: t => Ok (if s_isnan x then 0 else argmin_loop x 0 1 t)%nat
  end.

(** [np.argmax(a, axis=0)] and [np.argmin(a, axis=0)] of a 3-D array. *)
Definition np_argmax0 (a : stack A) : outcome (plane Z) :=
  match a with
  | [] => Raise ValueError
  | _ => mapM (mapM (λ col, Z.of_nat <$> argmax1 col)) (axis0_last a)
  end.

Definition np_argmin0 (a : stack A) : outcome (plane Z) :=
  match a with
  | [] => Raise ValueError
  | _ => mapM (mapM (λ col, Z.of_nat <$> argmin1 col)) (axis0_last a)
  end.

(** Sorting one axis in ascending order. *)
Fixpoint insert_sorted (x : A) (l : list A) : list A :=
  match l with
  | [] => [x]
  | y :: t => if s_le x y then x :: l else y :: insert_sorted x t
  end.
Definition np_sort (l : list A) : list A := foldr insert_sorted [] l.

(** [np.mean] of a non-empty 1-D array: the sum over the count. *)
Definition np_mean (l : list A) : outcome A :=
  match l with
  | [] => Unmodelled
  | x :: t => Ok (s_div (foldl s_add x t) (s_of_Z (Z.of_nat (length l))))
  end.

(** [np.median] of one axis: a NaN when the axis holds one; otherwise the
    mean of the middle element of the sorted values, or of the two middle
    elements when the count is even. *)
Definition median1 (l : list A) : outcome A :=
  match List.find s_isnan l with
  | Some nan => Ok nan
  | None =>
      let n := length l in
      let s := np_sort l in
      np_mean (if Nat.even n then take 2 (drop (n / 2 - 1) s)
               else take 1 (drop (n / 2) s))
  end.

(** [np.median(a, axis=0)] of a 3-D array. *)
Definition np_median0 (a : stack A) : outcome (plane A) :=
  match a with
  | [] => Unmodelled
  | _ => mapM (mapM median1) (axis0_last a)
  end.

(** An elementwise operator on two 3-D arrays of one shape. *)
Definition np_binop (f : A → A → A) (a b : stack A) : outcome (stack A) :=
  zip_same (zip_same (zip_same (λ x y, Ok (f x y)))) a b.

(** [a - m] for a 3-D [a] and a 2-D [m]: [m] is broadcast along axis 0. *)
Definition np_sub_plane (a : stack A) (m : plane A) : outcome (stack A) :=
  mapM (λ img, zip_same (zip_same (λ x y, Ok (s_sub x y))) img m) a.

Definition np_abs (a : stack A) : stack A := map (map (map s_abs)) a.
End numpy.

(** ** snuggs: S-expressions over named arrays *)

(** *** The reader *)

Inductive token := TOpen | TClose | TAtom (s : string).

#[warnings="-register-all"]
Inductive sexp :=
  | Atom (s : string)
  | SList (l : list sexp).

(** Characters of names and numbers; any other printing character is a
    symbol character ([+], [<=], ...). *)
Definition is_word (c : ascii) : bool :=
  is_alpha c || is_digit c || Ascii.eqb c "_" || Ascii.eqb c ".".
Definition is_quote (c : ascii) : bool :=
  Ascii.eqb c "'" || (nat_of_ascii c =? 34)%nat.

Definition flush (cur : list ascii) : list token :=
  match cur with
  | [] => []
  | _ => [TAtom (string_of_list_ascii (rev cur))]
  end.

(** Splits the source into parentheses and atoms.  An atom is a maximal run
    of word characters or of symbol characters, so [(+nir red)] reads as
    [(+ nir red)].  [cur] is the atom being read, reversed, and [w] tells
    whether it is made of word characters.  Quoted strings are not
    modelled. *)
Fixpoint lex (cur : list ascii) (w : bool) (cs : list ascii) : outcome (list token) :=
  match cs with
  | [] => Ok (flush cur)
  | c :: t =>
      if is_quote c then Unmodelled
      else if is_space c then app (flush cur) <$> lex [] false t
      else if Ascii.eqb c "(" then (λ r, flush cur ++ TOpen :: r) <$> lex [] false t
      else if Ascii.eqb c ")" then (λ r, flush cur ++ TClose :: r) <$> lex [] false t
      else
        let w' := is_word c in
        match cur with
        | [] => lex [c] w' t
        | _ => if Bool.eqb w w' then lex (c :: cur) w t
               else app (flush cur) <$> lex [c] w' t
        end
  end.

(** Reads the first parenthesised expression of the token stream; what
    follows it is ignored, as [parseString] does.  [open] holds the lists
    that are still open, innermost first, each reversed. *)
Fixpoint parse (open : list (list sexp)) (toks : list token) : outcome sexp :=
  match toks with
  | [] => Raise ExpressionError
  | TOpen :: t => parse ([] :: open) t
  | TClose :: t =>
      match open with
      | [] => Raise ExpressionError
      | [cur] => Ok (SList (rev cur))
      | cur :: parent :: rest => parse ((SList (rev cur) :: parent) :: rest) t
      end
  | TAtom s :: t =>
      match open with
      | [] => Raise ExpressionError
      | cur :: rest => parse ((Atom s :: cur) :: rest) t
      end
  end.

Definition read_sexp (source : string) : outcome sexp :=
  toks ← lex [] false (list_ascii_of_string source); parse [] toks.

(** An atom that is a name: it starts with a letter or an underscore. *)
Definition is_name (s : string) : bool :=
  match s with
  | String c _ => is_alpha c || Ascii.eqb c "_"
  | EmptyString => false
  end.

(** The names an expression uses as operands: its free identifiers.  The
    head of a list is a function or an operator, not an operand. *)
Fixpoint free_names (e : sexp) : list string :=
  match e with
  | Atom s => if is_name s && negb (String.eqb s "nil") then [s] else []
  | SList [] => []
  | SList (_ :: args) => concat (map free_names args)
  end.

(** The attributes of the [numpy] module, by name: [np_hasattr s] tells
    whether [getattr(numpy, s)] succeeds.  snuggs looks a function name up
    there when its own table does not hold it.  The statements below hold
    for every module, that is for every version of numpy. *)
Class numpy_module := np_hasattr : string → bool.

Section snuggs.
Context {A : Type} `{Scalar A}.

(** The values of the fragment: a 3-D array of pixel values (image, row,
    col) and a 2-D array of image indices (row, col). *)
Inductive value :=
  | VStack (a : stack A)
  | VIndex (m : plane Z).

(** A Python callable applied to positional arguments. *)
Definition func : Type := list value → outcome value.

(** A callable that is not written out: a snuggs built-in that the script
    does not use, or a function of the numpy module. *)
Definition not_modelled : func := λ _, Unmodelled.

Definition binop_value (f : A → A → A) (x y : value) : outcome value :=
  match x, y with
  | VStack a, VStack b => VStack <$> np_binop f a b
  | _, _ => Unmodelled
  end.

(** [lambda *args: functools.reduce(lambda x, y: op(x, y), args)]. *)
Definition reduce_op (f : A → A → A) : func := λ args,
  match args with
  | [] => Raise TypeError
  | v :: vs => foldl (λ acc w, x ← acc; binop_value f x w) (Ok v) vs
  end.

(** [operator.truediv] on two elements of masked arrays: a quotient that
    [numpy.ma] masks leaves the fragment, since masks are not represented. *)
Definition ma_truediv (x y : A) : outcome A :=
  if s_div_masked x y then Unmodelled else Ok (s_div x y).

Definition truediv_value (x y : value) : outcome value :=
  match x, y with
  | VStack a, VStack b => VStack <$> zip_same (zip_same (zip_same ma_truediv)) a b
  | _, _ => Unmodelled
  end.

Definition reduce_truediv : func := λ args,
  match args with
  | [] => Raise TypeError
  | v :: vs => foldl (λ acc w, x ← acc; truediv_value x w) (Ok v) vs
  end.

(** snuggs' [op_map]; [/] is [operator.truediv].  The other operators mask
    nothing on arrays without masked entries. *)
Definition op_map : gmap string func :=
  list_to_map
    [("*", reduce_op s_mul); ("+", reduce_op s_add);
     ("/", reduce_truediv); ("-", reduce_op s_sub);
     ("&", not_modelled); ("|", not_modelled);
     ("<", not_modelled); ("<=", not_modelled); ("==", not_modelled);
     ("!=", not_modelled); (">=", not_modelled); (">", not_modelled)]%string.

(** snuggs' [func_map] and [higher_func_map] as the library ships them. *)
Definition func_map0 : gmap string func :=
  list_to_map
    [("asarray", not_modelled); ("read", not_modelled);
     ("take", not_modelled)]%string.

Definition higher_func_map : gmap string func :=
  list_to_map [("map", not_modelled); ("partial", not_modelled)]%string.

(** The parse result after the grammar's parse actions have run: names are
    replaced by the arrays bound to them, function names by callables. *)
#[warnings="-register-all"]
Inductive rexp :=
  | RVal (v : value)
  | RLit
  | RApp (f : func) (args : list rexp).

Section eval.
Context {np : numpy_module}.
Variable func_map : gmap string func.
Variable ctx : gmap string value.

(** The parse actions of an operator, of [map] and [partial], and
    [resolve_func]: a name that [func_map] does not hold is looked up in the
    numpy module, and [ExpressionError] is raised when it is no attribute of
    the module either.  What a numpy function computes is not written out. *)
Definition resolve_head (e : sexp) : outcome func :=
  match e with
  | Atom s =>
      match op_map !! s with
      | Some f => Ok f
      | None =>
          match func_map !! s with
          | Some f => Ok f
          | None =>
              match higher_func_map !! s with
              | Some f => Ok f
              | None =>
                  if np_hasattr s then Ok not_modelled
                  else Raise ExpressionError
              end
          end
      end
  | SList _ => Ok not_modelled
  end.

(** An operand: a nested expression, [nil], a name ([resolve_var] raises
    when the context does not bind it) or a literal. *)
Fixpoint resolve (e : sexp) : outcome rexp :=
  match e with
  | Atom s =>
      if is_name s && negb (String.eqb s "nil")
      then or_raise ExpressionError (RVal <$> ctx !! s)
      else Ok RLit
  | SList [] | SList [_] => Raise ExpressionError
  | SList (h :: args) =>
      f ← resolve_head h; args' ← mapM resolve args; Ok (RApp f args')
  end.

(** [processArg] and [processList]: arguments first, then the call. *)
Fixpoint processArg (e : rexp) : outcome value :=
  match e with
  | RVal v => Ok v
  | RLit => Unmodelled
  | RApp f args => args' ← mapM processArg args; f args'
  end.

(** [snuggs.eval(source, **ctx)]: every error of the reader and of the
    parse actions surfaces as [ExpressionError]. *)
Definition snuggs_eval (source : string) : outcome value :=
  e ← read_sexp source; r ← resolve e; processArg r.
End eval.
End snuggs.

Arguments value A : clear implicits.
Arguments func A : clear implicits.
Arguments rexp A : clear implicits.

(** ** rasterio and the command line: files, events, options *)

(** A window as rasterio 0.x has it: ((row_start, row_stop), (col_start, col_stop)). *)
Record window := Window {
  row_start : nat; row_stop : nat; col_start : nat; col_stop : nat
}.

Inductive log_level := Debug | Info | Warning.

(** The names of the predefined algorithms and their expressions. *)
Definition _ALGO : gmap string string :=
  list_to_map
    [("maxNDVI", "(max (/ (- nir red) (+ nir red)))");
     ("medianNDVI", "(median (/ (- nir red) (+ nir red)))");
     ("ZheZhu", "(max (/ nir blue))");
     ("minBlue", "(min blue)");
     ("maxNIR", "(max nir)")]%string.

(** A value click hands to a callback: the option's integer default, or the
    text typed on the command line. *)
Inductive pyval := PyInt (z : Z) | PyStr (s : string).

(** [int(value)]; [None] stands for the exception. *)
Definition py_int_of (v : pyval) : option Z :=
  match v with PyInt z => Some z | PyStr s => py_int s end.

(** The callback of [--blue], [--green], [--red], [--nir], [--swir1] and
    [--swir2]: the band must be an integer that is at least 1. *)
Definition _valid_band (value : pyval) : outcome Z :=
  match py_int_of value with
  | Some band => if 1 <=? band then Ok band else Raise BadParameter
  | None => Raise BadParameter
  end.

(** The arguments of [image_composite], after click has run the callbacks:
    [band] holds the items of the dictionary of [--band NAME=INDEX] pairs,
    in the order the dictionary yields them. *)
Record options := Options {
  inputs : list string;
  algo : option string;
  expr : option string;
  output : string;
  format : string;
  blue : Z; green : Z; red : Z; nir : Z; swir1 : Z; swir2 : Z;
  band : list (string * string);
  verbose : bool
}.

(** Python's truth value of an optional string: [None] and [''] are false. *)
Definition truthy (o : option string) : bool :=
  match o with
  | Some s => negb (String.eqb s "")
  | None => false
  end.

(** Lines 129-130: the six default band names. *)
Definition default_bands (o : options) : gmap string Z :=
  list_to_map
    [("blue", blue o); ("green", green o); ("red", red o);
     ("nir", nir o); ("swir1", swir1 o); ("swir2", swir2 o)]%string.

(** Lines 132-138: every [--band NAME=INDEX] pair overrides or extends the
    band map; an index that [int] rejects raises [BadParameter]. *)
Fixpoint merge_user_bands (_bands : gmap string Z) (band : list (string * string))
  : outcome (gmap string Z) :=
  match band with
  | [] => Ok _bands
  | (k, v) :: rest =>
      match py_int v with
      | Some i => merge_user_bands (<[k := i]> _bands) rest
      | None => Raise BadParameter
      end
  end.

(** Line 141: the band names that occur in the text of the expression, with
    their indices made 0-based. *)
Definition crit_indices (_bands : gmap string Z) (expr : string) : gmap string Z :=
  (λ v, v - 1) <$> filter (λ kv, py_in kv.1 expr = true) _bands.

Section script.
Context {A : Type} `{Scalar A} {np : numpy_module}.

(** What the script reads of an open dataset. *)
Record raster := Raster {
  count : nat;
  block_shapes : list (nat * nat);
  block_windows : list ((nat * nat) * window);
  read : window → option (stack A)
}.

(** What the run does to the outside world, in order. *)
Inductive event :=
  | EvLog (level : log_level) (msg : string)
  | EvEcho (msg : string)
  | EvOpen (path : string)
  | EvCreate (path : string) (driver : string)
  | EvRead (path : string) (w : window)
  | EvWrite (path : string) (index : nat) (w : window) (data : plane A).

(** A computation that leaves a trace of events and returns or raises. *)
Definition io (X : Type) : Type := list event * outcome X.

Definition io_ret {X} (x : X) : io X := ([], Ok x).
Definition io_bind {X Y} (f : X → io Y) (m : io X) : io Y :=
  match m.2 with
  | Ok x => (m.1 ++ (f x).1, (f x).2)
  | Raise e => (m.1, Raise e)
  | Unmodelled => (m.1, Unmodelled)
  end.
#[global] Instance io_mret : MRet io := @io_ret.
#[global] Instance io_mbind : MBind io := @io_bind.

Definition emit (ev : event) : io unit := ([ev], Ok ()).
Definition lift {X} (m : outcome X) : io X := ([], m).
Definition raise {X} (e : error) : io X := ([], Raise e).

(** A loop that threads a state through the elements of a list. *)
Fixpoint foldM {S X} (f : S → X → io S) (s : S) (l : list X) : io S :=
  match l with
  | [] => mret s
  | x :: t => s' ← f s x; foldM f s' t
  end.

(** A loop run for its effects. *)
Fixpoint forM_ {X} (l : list X) (f : X → io unit) : io unit :=
  match l with
  | [] => mret ()
  | x :: t => f x;; forM_ t f
  end.

(** The logger: [debug] messages pass only with [--verbose]. *)
Definition log (verbose : bool) (level : log_level) (msg : string) : io unit :=
  match level with
  | Debug => if verbose then emit (EvLog level msg) else mret ()
  | _ => emit (EvLog level msg)
  end.

(** The files on disk, by path. *)
Variable fs : gmap string raster.

Definition rasterio_open (path : string) : io raster :=
  emit (EvOpen path);; lift (or_raise IOError (fs !! path)).

Definition src_read (path : string) (src : raster) (w : window) : io (stack A) :=
  emit (EvRead path w);; lift (or_raise IOError (read src w)).

(** Lines 144-147: the selection functions installed in snuggs' function
    table; each is a Python lambda of one argument. *)
Definition fn_max : func A := λ args,
  match args with
  | [VStack a] => VIndex <$> np_argmax0 a
  | [_] => Unmodelled
  | _ => Raise TypeError
  end.

Definition fn_min : func A := λ args,
  match args with
  | [VStack a] => VIndex <$> np_argmin0 a
  | [_] => Unmodelled
  | _ => Raise TypeError
  end.

Definition fn_median : func A := λ args,
  match args with
  | [VStack a] =>
      m ← np_median0 a; d ← np_sub_plane a m; VIndex <$> np_argmin0 (np_abs d)
  | [_] => Unmodelled
  | _ => Raise TypeError
  end.

Definition func_map : gmap string (func A) :=
  <["median" := fn_median]> (<["min" := fn_min]> (<["max" := fn_max]> func_map0)).

(** Lines 116-126: the criterion is the predefined algorithm's expression
    whenever an algorithm is named. *)
Definition select_expr (verbose : bool) (algo expr : option string) : io string :=
  if negb (truthy algo) && negb (truthy expr) then raise UsageError
  else
    match algo, expr with
    | Some a, Some _ =>
        log verbose Warning
          ("Predefined algorithm and expression both defined. "
           +:+ "Composite will be generated with predefined algorithm");;
        lift (or_raise KeyError (_ALGO !! a))
    | Some a, None =>
        log verbose Debug ("Using predefined algorithm: " +:+ a);;
        lift (or_raise KeyError (_ALGO !! a))
    | None, Some e => mret e
    | None, None => raise UsageError
    end.

(** Lines 173-175: the block [w] of every input is stored at the input's
    position in the buffer. *)
Definition read_block (inputs : list string) (count R C : nat) (w : window)
    (dat : list (stack A)) : io (list (stack A)) :=
  foldM (λ dat '(j, fname),
      src ← rasterio_open fname;
      x ← src_read fname src w;
      x' ← lift (broadcast_to3 count R C x);
      mret (<[j := x']> dat))
    dat (zip (seq 0 (length inputs)) inputs).

(** Line 178: [dat[:, v, ...]] for every band the criterion needs. *)
Definition band_slice (dat : list (stack A)) (v : Z) : outcome (stack A) :=
  mapM (λ img, np_index img v) dat.

Definition crit_of (ci : gmap string Z) (dat : list (stack A))
  : outcome (gmap string (value A)) :=
  kvs ← mapM (λ '(k, v), a ← band_slice dat v; Ok (k, VStack a)) (map_to_list ci);
  Ok (list_to_map kvs).

(** Line 183: [np.rollaxis(dat, 1, 4)[crit_idx, mi, mj]], indexed
    (row, col, band). *)
Definition gather (dat : list (stack A)) (crit_idx : value A) (mi mj : plane Z)
  : outcome (stack A) :=
  match crit_idx with
  | VIndex m => np_take3 (np_rollaxis_1_4 dat) m mi mj
  | VStack _ => Unmodelled
  end.

(** Lines 186-188: one write per band; [composite.shape[-1]] is the band
    count of the buffer. *)
Definition write_block (output : string) (count : nat) (w : window)
    (composite : stack A) : io unit :=
  forM_ (seq 0 count) (λ i_b,
    data ← lift (np_last_axis composite i_b);
    emit (EvWrite output (i_b + 1) w data)).

(** Lines 172-188: one turn of the block loop. *)
Definition composite_block (o : options) (expr : string) (ci : gmap string Z)
    (count R C : nat) (mi mj : plane Z) (dat : list (stack A)) (w : window)
  : io (list (stack A)) :=
  dat ← read_block (inputs o) count R C w dat;
  crit ← lift (crit_of ci dat);
  crit_idx ← lift (snuggs_eval func_map crit expr);
  composite ← lift (gather dat crit_idx mi mj);
  write_block (output o) count w composite;;
  mret dat.

(** The command.  [junk] is what the uninitialised buffer holds. *)
Definition image_composite (junk : A) (o : options) : io unit :=
  expr ← select_expr (verbose o) (algo o) (expr o);
  log (verbose o) Info ("Compositing criteria S-expression: " +:+ expr);;
  _bands ← lift (merge_user_bands (default_bands o) (band o));
  let ci := crit_indices _bands expr in
  path0 ← lift (or_raise IndexError (inputs o !! 0%nat));
  first ← rasterio_open path0;
  (if decide (length (remove_dups (block_shapes first)) = 1%nat) then mret ()
   else
     emit (EvEcho ("Cannot process input files - "
                    +:+ "All bands must have same block shapes"));;
     raise Abort);;
  '(block_nrow, block_ncol) ← lift (or_raise IndexError (block_shapes first !! 0%nat));
  let windows := block_windows first in
  emit (EvCreate (output o) (format o));;
  let dat := np_empty (length (inputs o)) (count first) block_nrow block_ncol junk in
  let '(mi, mj) := np_meshgrid_ij block_nrow block_ncol in
  foldM (λ dat '(idx, w),
      composite_block o expr ci (count first) block_nrow block_ncol mi mj dat w)
    dat windows;;
  mret ().

(** The command as click calls it: the six band options pass through
    [_valid_band] first. *)
Definition image_composite_cli (junk : A) (raw : list pyval) (o : options) : io unit :=
  match raw with
  | [b; g; r; n; s1; s2] =>
      b ← lift (_valid_band b); g ← lift (_valid_band g);
      r ← lift (_valid_band r); n ← lift (_valid_band n);
      s1 ← lift (_valid_band s1); s2 ← lift (_valid_band s2);
      image_composite junk
        (Options (inputs o) (algo o) (expr o) (output o) (format o)
           b g r n s1 s2 (band o) (verbose o))
  | _ => raise UsageError
  end.
End script.

Arguments raster A : clear implicits.
Arguments event A : clear implicits.
Arguments io A X : clear implicits.

(** ** Vocabulary of the statements *)

(** The options with another [--expr]. *)
Definition with_expr (o : options) (e : option string) : options :=
  Options (inputs o) (algo o) e (output o) (format o)
    (blue o) (green o) (red o) (nir o) (swir1 o) (swir2 o) (band o) (verbose o).

#[global] Instance window_eq_dec : EqDecision window.
Proof. solve_decision. Defined.

(** Regular shapes of nested lists. *)
Definition shape2 {X} (R C : nat) (p : plane X) : Prop :=
  length p = R ∧ Forall (λ row, length row = C) p.
Definition shape3 {X} (n R C : nat) (a : stack X) : Prop :=
  length a = n ∧ Forall (shape2 R C) a.

(** [p[r][c]] and [a[i][r][c]] when the position exists. *)
Definition at2 {X} (p : plane X) (r c : nat) : option X :=
  row ← p !! r; row !! c.
Definition at3 {X} (a : stack X) (i r c : nat) : option X :=
  p ← a !! i; at2 p r c.

(** The values of pixel (r, c) across the images of a stack, in input order. *)
Definition column {X} (a : stack X) (r c : nat) : option (list X) :=
  mapM (λ p, at2 p r c) a.

(** The names an expression uses as functions or operators. *)
Fixpoint calls (e : sexp) : list string :=
  match e with
  | Atom _ => []
  | SList [] => []
  | SList (h :: args) =>
      match h with Atom s => [s] | SList _ => [] end ++ concat (map calls args)
  end.

Section vocabulary.
Context {A : Type} `{Scalar A} {np : numpy_module}.

(** The events that touch files, as opposed to log lines. *)
Definition is_log (ev : event A) : bool :=
  match ev with EvLog _ _ => true | _ => false end.
Definition effects (tr : list (event A)) : list (event A) :=
  filter (λ ev, is_log ev = false) tr.

(** The events of reading block [w] of every input, in input order. *)
Definition read_events (inputs : list string) (w : window) : list (event A) :=
  concat (map (λ p, [EvOpen p; EvRead p w]) inputs).

Definition no_nan (l : list A) : Prop := Forall (λ x, s_isnan x = false) l.

(** [i] is the first position of a smallest element of [d]. *)
Definition first_min (d : list A) (i : nat) : Prop :=
  ∃ x, d !! i = Some x
     ∧ (∀ j y, d !! j = Some y → s_le x y = true)
     ∧ (∀ j y, (j < i)%nat → d !! j = Some y → s_le y x = false).

(** [i] is the first position of a largest element of [d]. *)
Definition first_max (d : list A) (i : nat) : Prop :=
  ∃ x, d !! i = Some x
     ∧ (∀ j y, d !! j = Some y → s_le y x = true)
     ∧ (∀ j y, (j < i)%nat → d !! j = Some y → s_le x y = false).

(** The array of distances [np.abs(a - med)] of line 147. *)
Definition distances (a : stack A) (med : plane A) : stack A :=
  np_abs (map (λ img, zip_with (zip_with s_sub) img med) a).

(** A function or operator name that snuggs can resolve, given the
    function table [fm]: a name of one of its tables, or an attribute of the
    numpy module. *)
Definition known_call (fm : gmap string (func A)) (s : string) : Prop :=
  is_Some (op_map (A:=A) !! s) ∨ is_Some (fm !! s)
  ∨ is_Some (higher_func_map (A:=A) !! s) ∨ np_hasattr s = true.

(** A list in ascending order. *)
Definition ascending (s : list A) : Prop :=
  ∀ i j x y, (i < j)%nat → s !! i = Some x → s !! j = Some y → s_le x y = true.

(** [μ] is the median of [l], told without the way numpy computes it: when
    [l] is put in ascending order, [μ] is the mean of the middle value (the
    value itself, divided by one) or of the two middle values. *)
Definition is_median (l : list A) (μ : A) : Prop :=
  ∃ s, s ≡ₚ l ∧ ascending s
     ∧ if Nat.even (length l)
       then ∃ x y, s !! (length l / 2 - 1)%nat = Some x
                 ∧ s !! (length l / 2)%nat = Some y
                 ∧ μ = s_div (s_add x y) (s_of_Z 2)
       else ∃ x, s !! (length l / 2)%nat = Some x ∧ μ = s_div x (s_of_Z 1).

(** The events of a run up to the first block. *)
Definition prelude (o : options) (lg : list (event A)) (e p0 : string)
  : list (event A) :=
  lg ++ [EvLog Info ("Compositing criteria S-expression: " +:+ e); EvOpen p0].

(** A one-pixel, single-block raster with the given band values. *)
Definition one_pixel_window : window := Window 0 1 0 1.
Definition one_pixel (bands : list A) : raster A :=
  Raster (length bands) (replicate (length bands) (1, 1)%nat)
    [((0, 0)%nat, one_pixel_window)]
    (λ w, if decide (w = one_pixel_window)
          then Some (map (λ v, [[v]]) bands) else None).
End vocabulary.

Section traces.
Context {A : Type} `{Scalar A}.

(** [m] leaves a trace that starts with [T], however it ends. *)
Definition starts_with {X} (T : list (event A)) (m : io A X) : Prop :=
  ∃ tr r, m = (T ++ tr, r).

End traces.

(** Default options: no algorithm, no expression, the default band numbers. *)
Definition default_options (inputs : list string) : options :=
  Options inputs None None "composite.gtif" "GTiff" 1 2 3 4 5 6 [] false.
Definition with_algo (o : options) (a : string) : options :=
  Options (inputs o) (Some a) (expr o) (output o) (format o)
    (blue o) (green o) (red o) (nir o) (swir1 o) (swir2 o) (band o) (verbose o).

(** Two one-pixel inputs, at the paths [a] and [b]. *)
Definition two_inputs {A} `{Scalar A} (img1 img2 : list A) : gmap string (raster A) :=
  {[ "a"%string := one_pixel img1; "b"%string := one_pixel img2 ]}.

(** The raster [r] with another block shape for its second band. *)
Definition uneven_blocks {A} (r : raster A) : raster A :=
  Raster (count r) (<[1%nat := (2, 2)%nat]> (block_shapes r)) (block_windows r) (read r).

(** A sample of the attributes of the numpy module, for the sample runs:
    each name below is an attribute of every version of numpy, and the
    sample runs look up no other name but [frobnicate], which numpy does not
    have. *)
Definition numpy_sample : numpy_module := λ s,
  existsb (String.eqb s)
    ["abs"; "absolute"; "arctan"; "ceil"; "clip"; "cos"; "exp"; "floor";
     "loadtxt"; "log"; "maximum"; "mean"; "minimum"; "negative"; "save";
     "sin"; "sqrt"; "square"; "sum"; "where"]%string.

(** Options that name a user expression. *)
Definition expr_options (inputs : list string) (e : string) : options :=
  with_expr (default_options inputs) (Some e).

(** The band values of two sample images. *)
Definition img_a : list Q := [1; 2; 10; 40; 5; 6]%Q.
Definition img_b : list Q := [7; 8; 10; 100; 11; 12]%Q.

(** ** Vocabulary of the further properties *)

(** Every atom of an expression, heads included. *)
Fixpoint all_atoms (e : sexp) : list string :=
  match e with
  | Atom s => [s]
  | SList l => concat (map all_atoms l)
  end.

(** The atoms of the lists the reader still holds open. *)
Definition open_atoms (open : list (list sexp)) : list string :=
  concat (map (λ l, concat (map all_atoms l)) open).

(** [s] occurs in [l] as a run of consecutive characters. *)
Definition occurs_in (s : string) (l : list ascii) : Prop :=
  ∃ pre suf, l = pre ++ list_ascii_of_string s ++ suf.

(** Every list of the expression has a head and at least one argument. *)
Fixpoint applications (e : sexp) : bool :=
  match e with
  | Atom _ => true
  | SList [] | SList [_] => false
  | SList (_ :: args) => forallb applications args
  end.

(** [m] raises no exception outside [E]. *)
Definition raises_within {X} (E : list error) (m : outcome X) : Prop :=
  ∀ e, m = Raise e → e ∈ E.

(** The exceptions of evaluating a criterion, of one turn of the block loop,
    and of the part of the run that follows the option handling. *)
Definition eval_errors : list error := [ExpressionError; TypeError; ValueError].
Definition block_errors : list error :=
  [IndexError; IOError; ValueError; ExpressionError; TypeError].
Definition file_errors : list error := Abort :: block_errors.

Ltac in_list := repeat first [apply list_elem_of_here | apply list_elem_of_further].

Section further_vocabulary.
Context {A : Type} `{Scalar A}.

(** A callable that raises nothing but [TypeError] and [ValueError]. *)
Definition calm (f : func A) : Prop :=
  ∀ args, raises_within [TypeError; ValueError] (f args).

(** An event that opens or reads a file names an input; one that creates or
    writes a file names the output. *)
Definition within_options (o : options) (ev : event A) : Prop :=
  match ev with
  | EvOpen p | EvRead p _ => p ∈ inputs o
  | EvCreate p _ | EvWrite p _ _ _ => p = output o
  | EvLog _ _ | EvEcho _ => True
  end.

(** The events of one completed block: the reads of every input, then the
    writes of the bands in [planes], numbered from 1. *)
Definition block_events (o : options) (count : nat) (w : window)
    (planes : list (plane A)) : list (event A) :=
  read_events (inputs o) w
  ++ zip_with (λ b p, EvWrite (output o) (b + 1) w p) (seq 0 count) planes.

Variable fs : gmap string (raster A).

(** One turn of the loop of lines 173-175. *)
Definition read_step (count R C : nat) (w : window) (dat : list (stack A))
    (jp : nat * string) : io A (list (stack A)) :=
  let '(j, fname) := jp in
  src ← rasterio_open fs fname;
  x ← src_read fname src w;
  x' ← lift (broadcast_to3 count R C x);
  mret (<[j := x']> dat).

(** What one input contributes to the buffer: its block, broadcast to the
    buffer's block shape. *)
Definition fetch (count R C : nat) (w : window) (fname : string)
  : io A (stack A) :=
  src ← rasterio_open fs fname;
  x ← src_read fname src w;
  lift (broadcast_to3 count R C x).
End further_vocabulary.

(** A single-band raster of two rows and one column whose file is laid out
    in blocks of three rows: its one block is shorter than the block shape. *)
Definition short_raster : raster Q :=
  Raster 1 [(3, 1)%nat] [((0, 0)%nat, Window 0 2 0 1)]
    (λ w, if decide (w = Window 0 2 0 1) then Some [[[1]; [2]]]%Q else None).

(** The blocks that the two sample images return for their one window. *)
Definition block_a : stack Q := map (λ v, [[v]]) img_a.
Definition block_b : stack Q := map (λ v, [[v]]) img_b.

(** Options with a [--band cirrus=INDEX] pair and the criterion
    [(max cirrus)]. *)
Definition cirrus_options (index : string) : options :=
  Options ["a"; "b"]%string None (Some "(max cirrus)"%string) "composite.gtif" "GTiff"
    1 2 3 4 5 6 [("cirrus"%string, index)] false.

(** * Properties *)

(** ** Choice of the criterion (lines 116-126) *)

Section criterion_choice.
Context {A : Type} `{Scalar A} {np : numpy_module}.

Lemma effects_app (t1 t2 : list (event A)) :
  effects (t1 ++ t2) = effects t1 ++ effects t2.
Proof. apply filter_app. Qed.

Lemma algo_key_truthy a ex : _ALGO !! a = Some ex → truthy (Some a) = true.
Proof. destruct a as [|c a]; [|done]. vm_compute. discriminate. Qed.

Lemma select_expr_algo verbose a ex e :
  _ALGO !! a = Some ex →
  ∃ lg, select_expr (A:=A) verbose (Some a) e = (lg, Ok ex) ∧ effects lg = [].
Proof.
  intros Ha. unfold select_expr. rewrite (algo_key_truthy a ex Ha). simpl.
  destruct e as [e|]; rewrite Ha.
  - eexists. split; reflexivity.
  - destruct verbose; eexists; split; reflexivity.
Qed.

(** C10. When an algorithm is named together with a user expression, the
    criterion is the algorithm's expression and one warning is logged; and
    whatever [--expr] holds, even nothing, the run touches the files in the
    same way and ends in the same way. *)
Theorem algo_overrides_expr (fs : gmap string (raster A)) (junk : A)
    (o : options) (a ex e : string) :
  algo o = Some a → _ALGO !! a = Some ex →
  select_expr (A:=A) (verbose o) (algo o) (Some e)
    = ([EvLog Warning
          ("Predefined algorithm and expression both defined. "
           +:+ "Composite will be generated with predefined algorithm")],
       Ok ex)
  ∧ ∀ e' : option string,
      effects (image_composite fs junk (with_expr o e')).1
        = effects (image_composite fs junk (with_expr o (Some e))).1
      ∧ (image_composite fs junk (with_expr o e')).2
        = (image_composite fs junk (with_expr o (Some e))).2.
Proof.
  intros Halgo Ha. split.
  - rewrite Halgo. unfold select_expr.
    rewrite (algo_key_truthy a ex Ha). simpl. by rewrite Ha.
  - intros e'. destruct o as [inp al ex0 out fmt b g r n s1 s2 bd vb].
    simpl in Halgo. subst al. unfold with_expr, image_composite. simpl.
    destruct (select_expr_algo vb a ex e' Ha) as (lg1 & -> & Hl1).
    destruct (select_expr_algo vb a ex (Some e) Ha) as (lg2 & -> & Hl2).
    unfold mbind, io_mbind, io_bind at 1 3 5 7. simpl.
    rewrite !effects_app, Hl1, Hl2. done.
Qed.
End criterion_choice.

(** C10 on [--algo minBlue --expr "(max nir)"]: the criterion is [(min blue)]. *)
Lemma algo_overrides_expr_witness :
  select_expr (A:=Q) false (Some "minBlue"%string) (Some "(max nir)"%string)
    = ([EvLog Warning
          ("Predefined algorithm and expression both defined. "
           +:+ "Composite will be generated with predefined algorithm")],
       Ok "(min blue)"%string).
Proof.
  exact (proj1 (algo_overrides_expr (A:=Q) (np:=numpy_sample) ∅ 0%Q
    (with_algo (default_options []) "minBlue") "minBlue" "(min blue)" "(max nir)"
    eq_refl eq_refl)).
Defined.

(** ** The band registry (lines 42-48 and 128-141) *)

Lemma is_prefix_spec (p s : list ascii) :
  is_prefix p s = true ↔ ∃ suf, s = p ++ suf.
Proof.
  revert s. induction p as [|a p IH]; intros s; simpl.
  - split; [eauto|done].
  - destruct s as [|b s].
    + split; [done|]. intros [suf Hs]. discriminate.
    + rewrite andb_true_iff, IH. split.
      * intros [Hab [suf ->]]. apply Ascii.eqb_eq in Hab as ->. eauto.
      * intros [suf Hs]. injection Hs as -> ->. split; [apply Ascii.eqb_refl|eauto].
Qed.

(** [k in expr] holds exactly when [k] occurs in [expr] as a run of
    consecutive characters. *)
Lemma contains_spec (s p : list ascii) :
  contains s p = true ↔ ∃ pre suf, s = pre ++ p ++ suf.
Proof.
  induction s as [|c s IH].
  - simpl. rewrite orb_false_r, is_prefix_spec. split.
    + intros [suf Hs]. exists [], suf. done.
    + intros (pre & suf & Hs). symmetry in Hs.
      apply app_eq_nil in Hs as [-> Hs]. apply app_eq_nil in Hs as [-> ->].
      by exists [].
  - cbn [contains]. rewrite orb_true_iff, is_prefix_spec, IH. split.
    + intros [[suf Hs]|(pre & suf & ->)].
      * exists [], suf. done.
      * exists (c :: pre), suf. done.
    + intros (pre & suf & Hs). destruct pre as [|c' pre].
      * left. eauto.
      * right. injection Hs as -> ->. eauto.
Qed.

(** Line 141 keeps a band when its name occurs somewhere in the text of the
    expression, and stores its index 0-based. *)
Lemma crit_indices_lookup (_bands : gmap string Z) (expr k : string) (v : Z) :
  crit_indices _bands expr !! k = Some v
  ↔ ∃ i, _bands !! k = Some i ∧ v = i - 1 ∧ py_in k expr = true.
Proof.
  unfold crit_indices. rewrite lookup_fmap, fmap_Some. split.
  - intros (i & Hi & ->). apply map_lookup_filter_Some in Hi as [Hi Hin]. eauto.
  - intros (i & Hi & -> & Hin). exists i. split; [|done].
    apply map_lookup_filter_Some. done.
Qed.

Lemma crit_indices_None (_bands : gmap string Z) (expr k : string) :
  _bands !! k = None → crit_indices _bands expr !! k = None.
Proof.
  intros Hk. destruct (crit_indices _bands expr !! k) as [v|] eqn:E; [|done].
  apply crit_indices_lookup in E as (i & Hi & _). congruence.
Qed.

(** The [--band] loop ends in one of two ways, and raises exactly when
    [int] rejects one of the supplied indices. *)
Lemma merge_user_bands_raises (_bands : gmap string Z) (band : list (string * string)) :
  merge_user_bands _bands band = Raise BadParameter
  ↔ Exists (λ kv, py_int kv.2 = None) band.
Proof.
  revert _bands. induction band as [|[k v] band IH]; intros _bands; simpl.
  - split; [done|]. intros Hex. inversion Hex.
  - rewrite Exists_cons. simpl. destruct (py_int v) as [i|].
    + rewrite IH. split; [by right|]. intros [?|?]; done.
    + split; [by left|done].
Qed.

(** When [int] accepts every supplied index, the loop returns the band map
    with the pairs inserted in order. *)
Lemma merge_user_bands_ok (_bands : gmap string Z) (band : list (string * string))
    (ints : list (string * Z)) :
  Forall2 (λ kv ki, kv.1 = ki.1 ∧ py_int kv.2 = Some ki.2) band ints →
  merge_user_bands _bands band
    = Ok (foldl (λ m ki, <[ki.1 := ki.2]> m) _bands ints).
Proof.
  intros Hall. revert _bands.
  induction Hall as [|[k v] [k' i] band ints [Hk Hv] _ IH]; intros _bands; simpl.
  - done.
  - simpl in Hk, Hv. subst k'. rewrite Hv. apply IH.
Qed.

(** C9, at the input [--band foo=0].  The callback of the six named band
    options rejects the index 0, the [--band] loop accepts it, and the
    criterion then addresses band [-1], which numpy reads as the last band. *)
Lemma band_override_zero_accepted (o : options) :
  _valid_band (PyStr "0") = Raise BadParameter
  ∧ merge_user_bands (default_bands o) [("foo", "0")%string]
      = Ok (<["foo"%string := 0]> (default_bands o))
  ∧ crit_indices (<["foo"%string := 0]> (default_bands o)) "(max foo)" !! "foo"%string
      = Some (-1)
  ∧ np_index [10; 20; 30] (-1) = Ok 30.
Proof.
  split; [reflexivity|]. split; [reflexivity|]. split; [|reflexivity].
  apply crit_indices_lookup. exists 0. split; [|done].
  apply lookup_insert_eq.
Qed.

(** C8, at the input [--band infrared=7 --expr "(max infrared)"].  The only
    free identifier of the expression is [infrared], yet the active band set
    also holds [red], whose name occurs inside [infrared]. *)
Lemma substring_selects_unused_band :
  let _bands := <["infrared"%string := 7]> (default_bands (default_options [])) in
  (free_names <$> read_sexp "(max infrared)") = Ok ["infrared"%string]
  ∧ _bands !! "red"%string = Some 3
  ∧ crit_indices _bands "(max infrared)"
      = {[ "infrared"%string := 6; "red"%string := 2 ]}.
Proof. vm_compute. done. Qed.

(** ** The maxNDVI composite of two one-pixel images *)

(** The events of a run over the one-pixel inputs [a] and [b] that writes the
    band values [out]. *)
Definition two_image_run {A} (criterion : string) (out : list A) : list (event A) :=
  [EvLog Info ("Compositing criteria S-expression: " +:+ criterion);
   EvOpen "a"; EvCreate "composite.gtif" "GTiff";
   EvOpen "a"; EvRead "a" one_pixel_window;
   EvOpen "b"; EvRead "b" one_pixel_window]
  ++ imap (λ k v, EvWrite "composite.gtif" (k + 1) one_pixel_window [[v]]) out.

(** C2. Two one-pixel, single-block images with (red, nir) = (10, 40) and
    (10, 100), six bands each with the default band numbers and any values
    in the other bands: the maxNDVI composite reads both and writes exactly
    the band values of the second image.  Stated for float64 rasters and for
    exact arithmetic. *)
Theorem maxNDVI_two_images (np : numpy_module) :
  (∀ junk b1 g1 s1 t1 b2 g2 s2 t2 : float,
     let img1 := [b1; g1; 10; 40; s1; t1]%float in
     let img2 := [b2; g2; 10; 100; s2; t2]%float in
     image_composite {[ "a"%string := one_pixel img1; "b"%string := one_pixel img2 ]}
       junk (with_algo (default_options ["a"; "b"]%string) "maxNDVI")
     = (two_image_run "(max (/ (- nir red) (+ nir red)))" img2, Ok ()))
  ∧ (∀ junk b1 g1 s1 t1 b2 g2 s2 t2 : Q,
     let img1 := [b1; g1; 10; 40; s1; t1]%Q in
     let img2 := [b2; g2; 10; 100; s2; t2]%Q in
     image_composite {[ "a"%string := one_pixel img1; "b"%string := one_pixel img2 ]}
       junk (with_algo (default_options ["a"; "b"]%string) "maxNDVI")
     = (two_image_run "(max (/ (- nir red) (+ nir red)))" img2, Ok ())).
Proof. split; intros; vm_compute; reflexivity. Qed.

(** ** Nested lists and fallible loops *)

(** *** Loops over lists that may raise *)

Lemma bind_Ok {X Y} (m : outcome X) (f : X → outcome Y) (y : Y) :
  m ≫= f = Ok y ↔ ∃ x, m = Ok x ∧ f x = Ok y.
Proof.
  destruct m as [x| |]; unfold mbind, outcome_bind; (split; [|intros (x' & Hx & Hf)]);
    try done; [eauto|congruence].
Qed.

Lemma fmap_Ok {X Y} (m : outcome X) (f : X → Y) (y : Y) :
  f <$> m = Ok y ↔ ∃ x, m = Ok x ∧ y = f x.
Proof.
  destruct m as [x| |]; unfold fmap, outcome_fmap; (split; [|intros (x' & Hx & Hf)]);
    try done; [intros [= <-]; eauto|congruence].
Qed.

Lemma mapM_Ok_Forall2 {X Y} (f : X → outcome Y) (l : list X) (k : list Y) :
  mapM f l = Ok k ↔ Forall2 (λ x y, f x = Ok y) l k.
Proof.
  revert k. induction l as [|x l IH]; intros k.
  - split; [intros [= <-]; constructor|intros Hk; by inversion Hk].
  - cbn [mapM]. split.
    + intros Hk. apply bind_Ok in Hk as (y & Hy & Hk).
      apply bind_Ok in Hk as (k' & Hk' & [= <-]).
      constructor; [done|by apply IH].
    + intros Hk. inversion Hk as [|? y ? k' Hy Hk']; subst.
      apply bind_Ok. exists y. split; [done|].
      apply bind_Ok. exists k'. split; [by apply IH|done].
Qed.

Lemma mapM_Ok_total {X Y} (f : X → outcome Y) (l : list X) :
  Forall (λ x, ∃ y, f x = Ok y) l → ∃ k, mapM f l = Ok k.
Proof.
  induction 1 as [|x l [y Hy] _ [k IH]].
  - by exists [].
  - exists (y :: k). cbn [mapM]. by rewrite Hy, IH.
Qed.

Lemma mapM_Ok_fun {X Y} (f : X → outcome Y) (g : X → Y) (l : list X) :
  Forall (λ x, f x = Ok (g x)) l → mapM f l = Ok (map g l).
Proof.
  intros Hl. apply mapM_Ok_Forall2. induction Hl; constructor; done.
Qed.

Lemma zip_same_Ok {X Y W} (f : X → Y → outcome W) l k r :
  zip_same f l k = Ok r
  ↔ Forall2 (λ xy z, f xy.1 xy.2 = Ok z) (zip l k) r ∧ length l = length k.
Proof.
  revert k r. induction l as [|x l IH]; intros [|y k] r; cbn [zip_same].
  - split; [intros [= <-]; split; [constructor|done]|intros [Hr _]; by inversion Hr].
  - split; [done|intros [_ ?]; done].
  - split; [done|intros [_ ?]; done].
  - split.
    + intros Hr. apply bind_Ok in Hr as (z & Hz & Hr).
      apply bind_Ok in Hr as (r' & Hr' & [= <-]).
      apply IH in Hr' as [Hr' Hlen]. split; [by constructor|simpl; lia].
    + intros [Hr Hlen]. inversion Hr as [|? z ? r' Hz Hr']; subst. simpl in Hz, Hlen.
      apply bind_Ok. exists z. split; [done|].
      apply bind_Ok. exists r'. split; [|done]. apply IH. split; [done|lia].
Qed.

Lemma zip_same_fun {X Y W} (f : X → Y → outcome W) (g : X → Y → W) l k :
  Forall2 (λ x y, f x y = Ok (g x y)) l k → zip_same f l k = Ok (zip_with g l k).
Proof.
  intros Hlk. induction Hlk as [|x y l k Hxy _ IH]; simpl; [done|].
  by rewrite Hxy, IH.
Qed.

(** *** Positions in nested lists *)

Lemma at2_map {X Y} (f : X → Y) (p : plane X) r c :
  at2 (map (map f) p) r c = f <$> at2 p r c.
Proof.
  unfold at2. rewrite list_lookup_fmap. destruct (p !! r) as [row|]; simpl; [|done].
  apply list_lookup_fmap.
Qed.

Lemma at2_zip_with {X Y W} (f : X → Y → W) (p : plane X) (q : plane Y) r c :
  at2 (zip_with (zip_with f) p q) r c
  = (x ← at2 p r c; y ← at2 q r c; Some (f x y)).
Proof.
  unfold at2. rewrite lookup_zip_with.
  destruct (p !! r) as [row|]; simpl; [|done].
  destruct (q !! r) as [row'|]; simpl.
  - rewrite lookup_zip_with. done.
  - by destruct (row !! c).
Qed.

Lemma at2_is_Some {X} (p : plane X) R C r c :
  shape2 R C p → (r < R)%nat → (c < C)%nat → is_Some (at2 p r c).
Proof.
  intros [Hlen Hrows] Hr Hc. unfold at2.
  destruct (lookup_lt_is_Some_2 p r) as [row Hrow]; [lia|]. rewrite Hrow. simpl.
  apply lookup_lt_is_Some_2.
  by rewrite (Forall_lookup_1 _ _ _ _ Hrows Hrow).
Qed.

Lemma at2_shape {X} (p : plane X) R C r c x :
  shape2 R C p → at2 p r c = Some x → (r < R)%nat ∧ (c < C)%nat.
Proof.
  intros [Hlen Hrows]. unfold at2. destruct (p !! r) as [row|] eqn:Hrow; [|done].
  simpl. intros Hc. split.
  - rewrite <- Hlen. by eapply lookup_lt_Some.
  - rewrite <- (Forall_lookup_1 _ _ _ _ Hrows Hrow). by eapply lookup_lt_Some.
Qed.

(** The pixel columns of a non-empty stack are the entries of the stack with
    its first axis moved last. *)
Lemma axis0_last_at2 {X} (a : stack X) r c :
  a ≠ [] → at2 (axis0_last a) r c = column a r c.
Proof.
  induction a as [|img rest IH]; [done|]. intros _.
  destruct rest as [|img' rest].
  - simpl. rewrite at2_map. unfold column. simpl. by destruct (at2 img r c).
  - change (axis0_last (img :: img' :: rest))
      with (zip_with (zip_with cons) img (axis0_last (img' :: rest))).
    rewrite at2_zip_with, IH by done. unfold column. simpl.
    destruct (at2 img r c); [|done]. simpl. done.
Qed.

Lemma column_lookup {X} (a : stack X) r c col i :
  column a r c = Some col → col !! i = at3 a i r c.
Proof.
  unfold column. intros Hcol. apply mapM_Some in Hcol.
  unfold at3. destruct (a !! i) as [p|] eqn:Hp; simpl.
  - destruct (Forall2_lookup_l _ _ _ _ _ Hcol Hp) as (x & Hx & Hpx). congruence.
  - apply lookup_ge_None. apply lookup_ge_None in Hp.
    by rewrite <- (Forall2_length _ _ _ Hcol).
Qed.

Lemma column_length {X} (a : stack X) r c col :
  column a r c = Some col → length col = length a.
Proof.
  unfold column. intros Hcol. apply mapM_Some in Hcol.
  symmetry. by eapply Forall2_length.
Qed.

Lemma column_is_Some {X} (a : stack X) n R C r c :
  shape3 n R C a → (r < R)%nat → (c < C)%nat → is_Some (column a r c).
Proof.
  intros [_ Hall] Hr Hc. unfold column. apply mapM_is_Some.
  eapply Forall_impl; [done|]. intros p Hp. by eapply at2_is_Some.
Qed.

Lemma axis0_last_shape {X} (a : stack X) n R C :
  shape3 (S n) R C a → shape3 R C (S n) (axis0_last a).
Proof.
  revert n. induction a as [|img rest IH]; intros n [Hlen Hall]; [done|].
  apply Forall_cons in Hall as [[Hr Hc] Hall].
  destruct rest as [|img' rest].
  - simpl in *. assert (n = 0%nat) as -> by lia.
    split; [by rewrite length_map|].
    apply Forall_map. apply Forall_forall. intros row Hrow. split.
    + rewrite length_map. by eapply (proj1 (Forall_forall _ _) Hc).
    + apply Forall_map. by apply Forall_forall.
  - destruct n as [|n]; [simpl in Hlen; lia|].
    destruct (IH n) as [Hlen' Hall']; [split; [simpl in *; lia|done]|].
    change (axis0_last (img :: img' :: rest))
      with (zip_with (zip_with cons) img (axis0_last (img' :: rest))).
    split.
    + rewrite length_zip_with. lia.
    + apply Forall_forall. intros row Hrow.
      apply elem_of_lookup_zip_with in Hrow as (i & x & y & -> & Hx & Hy).
      apply (Forall_lookup_1 _ _ _ _ Hc) in Hx.
      apply (Forall_lookup_1 _ _ _ _ Hall') in Hy as [Hy1 Hy2]. split.
      * rewrite length_zip_with. lia.
      * apply Forall_forall. intros col Hcol.
        apply elem_of_lookup_zip_with in Hcol as (j & u & v & -> & Hu & Hv).
        simpl. f_equal. by apply (Forall_lookup_1 _ _ _ _ Hy2) in Hv.
Qed.

(** ** The selection functions (lines 144-147) *)

(** *** One axis: numpy's argmin and argmax loops *)

Section selection.
Context {A : Type} `{ScalarOrder A}.

Lemma s_le_refl x : s_isnan x = false → s_le x x = true.
Proof. intros Hx. by destruct (s_le_total x x Hx Hx). Qed.

Lemma s_le_false_flip x y :
  s_isnan x = false → s_isnan y = false → s_le x y = false → s_le y x = true.
Proof. intros Hx Hy Hxy. destruct (s_le_total x y Hx Hy); congruence. Qed.

Lemma no_nan_lookup (l : list A) i x : no_nan l → l !! i = Some x → s_isnan x = false.
Proof. intros Hl Hi. by eapply (Forall_lookup_1 _ l i x) in Hl. Qed.

Lemma lookup_snoc_inv (pre : list A) x j y :
  (pre ++ [x]) !! j = Some y →
  pre !! j = Some y ∨ (j = length pre ∧ y = x).
Proof.
  intros Hj. destruct (decide (j < length pre)%nat) as [Hlt|Hge].
  - left. by rewrite lookup_app_l in Hj.
  - right. rewrite lookup_app_r in Hj by lia.
    destruct (j - length pre)%nat as [|k] eqn:E; simpl in Hj; [|done].
    split; [lia|congruence].
Qed.

Lemma argmin_loop_spec (l pre : list A) (mp : A) (best : nat) :
  no_nan (pre ++ l) →
  pre !! best = Some mp →
  (∀ j y, pre !! j = Some y → s_le mp y = true) →
  (∀ j y, (j < best)%nat → pre !! j = Some y → s_le y mp = false) →
  first_min (pre ++ l) (argmin_loop mp best (length pre) l).
Proof.
  revert pre mp best. induction l as [|x t IH]; intros pre mp best Hnn Hb Hle Hlt.
  - simpl. rewrite app_nil_r. exists mp. done.
  - assert (s_isnan x = false) as Hx.
    { eapply no_nan_lookup; [done|]. by apply list_lookup_middle. }
    assert (s_isnan mp = false) as Hmp.
    { eapply no_nan_lookup; [done|]. by apply lookup_app_l_Some. }
    assert (∀ j y, pre !! j = Some y → s_isnan y = false) as Hpre.
    { intros j y Hj. eapply no_nan_lookup; [done|]. by apply lookup_app_l_Some. }
    assert (best < length pre)%nat as Hbl by by eapply lookup_lt_Some.
    simpl. rewrite (assoc_L (++) pre [x] t : pre ++ x :: t = (pre ++ [x]) ++ t) in Hnn |- *.
    replace (S (length pre)) with (length (pre ++ [x])) by (rewrite length_app; simpl; lia).
    destruct (s_le mp x) eqn:Hmx; simpl.
    + apply IH; [done|by apply lookup_app_l_Some| |].
      * intros j y Hj. apply lookup_snoc_inv in Hj as [Hj|[_ ->]]; eauto.
      * intros j y Hjb Hj. apply lookup_snoc_inv in Hj as [Hj|[-> _]]; [eauto|lia].
    + rewrite Hx. apply IH; [done|by apply list_lookup_middle| |].
      * intros j y Hj. apply lookup_snoc_inv in Hj as [Hj|[_ ->]].
        -- eapply (s_le_trans x mp y); eauto using s_le_false_flip.
        -- by apply s_le_refl.
      * intros j y Hjb Hj. apply lookup_snoc_inv in Hj as [Hj|[-> _]]; [|lia].
        destruct (s_le y x) eqn:Hyx; [|done].
        rewrite (s_le_trans mp y x) in Hmx; eauto.
Qed.

Lemma argmin1_spec (l : list A) :
  l ≠ [] → no_nan l → ∃ i, argmin1 l = Ok i ∧ first_min l i.
Proof.
  intros Hne Hnn. destruct l as [|x t]; [done|].
  assert (s_isnan x = false) as Hx by by eapply (no_nan_lookup _ 0%nat).
  eexists. split; [reflexivity|]. rewrite Hx.
  apply (argmin_loop_spec t [x] x 0); [done|done| |].
  - intros [|j] y Hj; simplify_eq/=. by apply s_le_refl.
  - intros j y Hj. lia.
Qed.

End selection.

(** *** argmax by reversal of the order *)

Section reversal.
Context {A : Type} `{ScalarOrder A}.

Lemma reversed_order : @ScalarOrder A (reversed _).
Proof.
  split; simpl.
  - intros x y Hx Hy. destruct (s_le_total x y Hx Hy); auto.
  - intros x y z Hx Hy Hz Hyx Hzy. by apply (s_le_trans z y x).
Qed.

(** numpy's argmax loop is its argmin loop on the reversed order. *)
Lemma argmax_loop_reversed (mp : A) (best i : nat) (l : list A) :
  argmax_loop mp best i l = @argmin_loop A (reversed _) mp best i l.
Proof.
  revert mp best i. induction l as [|x t IH]; intros mp best i; simpl; [done|].
  by rewrite !IH.
Qed.

Lemma argmax_loop_spec (l pre : list A) (mp : A) (best : nat) :
  no_nan (pre ++ l) →
  pre !! best = Some mp →
  (∀ j y, pre !! j = Some y → s_le y mp = true) →
  (∀ j y, (j < best)%nat → pre !! j = Some y → s_le mp y = false) →
  first_max (pre ++ l) (argmax_loop mp best (length pre) l).
Proof.
  intros Hnn Hb Hle Hlt. rewrite argmax_loop_reversed.
  exact (@argmin_loop_spec A (reversed _) reversed_order l pre mp best Hnn Hb Hle Hlt).
Qed.

Lemma argmax1_spec (l : list A) :
  l ≠ [] → no_nan l → ∃ i, argmax1 l = Ok i ∧ first_max l i.
Proof.
  intros Hne Hnn. destruct l as [|x t]; [done|].
  assert (s_isnan x = false) as Hx by by eapply (no_nan_lookup _ 0%nat).
  eexists. split; [reflexivity|]. rewrite Hx.
  apply (argmax_loop_spec t [x] x 0); [done|done| |].
  - intros [|j] y Hj; simplify_eq/=. by apply s_le_refl.
  - intros j y Hj. lia.
Qed.
End reversal.

(** *** The selection functions on a 3-D array *)

Section selection3.
Context {A : Type} `{ScalarOrder A}.

(** A reduction of every pixel column that succeeds on each column
    succeeds on the stack, and its result holds the reduced columns. *)
Lemma reduce_columns {Y} (f : list A → outcome Y) (a : stack A) n R C :
  shape3 (S n) R C a →
  (∀ r c col, column a r c = Some col → ∃ y, f col = Ok y) →
  ∃ m, mapM (mapM f) (axis0_last a) = Ok m ∧ shape2 R C m
     ∧ ∀ r c col, column a r c = Some col →
         ∃ y, f col = Ok y ∧ at2 m r c = Some y.
Proof.
  intros Hshape Hf.
  assert (a ≠ []) as Hne by (destruct Hshape as [Hl _]; by destruct a).
  destruct (axis0_last_shape a n R C Hshape) as [HR HC].
  assert (∀ r c col, at2 (axis0_last a) r c = Some col → ∃ y, f col = Ok y) as Hf'.
  { intros r c col Hcol. rewrite axis0_last_at2 in Hcol by done. eauto. }
  assert (Forall (λ row, ∃ row', mapM f row = Ok row') (axis0_last a)) as Hrows.
  { apply Forall_lookup. intros r row Hrow.
    assert (Forall (λ col, ∃ y, f col = Ok y) row) as Hcols.
    { apply Forall_lookup. intros c col Hc. apply (Hf' r c).
      unfold at2. by rewrite Hrow. }
    by apply mapM_Ok_total. }
  assert (∃ m, mapM (mapM f) (axis0_last a) = Ok m) as [m Hm].
  { by apply mapM_Ok_total. }
  exists m. split; [done|]. apply mapM_Ok_Forall2 in Hm.
  split; [split|].
  - by rewrite <- (Forall2_length _ _ _ Hm).
  - apply Forall_lookup. intros r row' Hrow'.
    destruct (Forall2_lookup_r _ _ _ _ _ Hm Hrow') as (row & Hrow & Hmap).
    apply mapM_Ok_Forall2 in Hmap. rewrite <- (Forall2_length _ _ _ Hmap).
    by apply (Forall_lookup_1 _ _ _ _ HC) in Hrow as [Hrow _].
  - intros r c col Hcol. rewrite <- axis0_last_at2 in Hcol by done.
    unfold at2 in Hcol. destruct (axis0_last a !! r) as [row|] eqn:Hrow; [|done].
    simpl in Hcol.
    destruct (Forall2_lookup_l _ _ _ _ _ Hm Hrow) as (row' & Hrow' & Hmap).
    apply mapM_Ok_Forall2 in Hmap.
    destruct (Forall2_lookup_l _ _ _ _ _ Hmap Hcol) as (y & Hy & Hfy).
    exists y. split; [done|]. unfold at2. by rewrite Hrow'.
Qed.

Lemma column_no_nan (a : stack A) r c col :
  (∀ i x, at3 a i r c = Some x → s_isnan x = false) →
  column a r c = Some col → no_nan col.
Proof.
  intros Hnn Hcol. apply Forall_lookup. intros i x Hi.
  apply (Hnn i). by rewrite <- (column_lookup a r c col i Hcol).
Qed.

Lemma column_nonempty (a : stack A) n R C r c col :
  shape3 (S n) R C a → column a r c = Some col → col ≠ [].
Proof.
  intros [Hlen _] Hcol. apply column_length in Hcol.
  destruct col; [simpl in Hcol; lia|done].
Qed.

(** [np.argmax(a, axis=0)]: at every pixel, the first image that holds a
    largest value. *)
Lemma np_argmax0_spec (a : stack A) n R C :
  shape3 (S n) R C a →
  (∀ i r c x, at3 a i r c = Some x → s_isnan x = false) →
  ∃ m, np_argmax0 a = Ok m ∧ shape2 R C m
     ∧ ∀ r c, (r < R)%nat → (c < C)%nat →
         ∃ col i, column a r c = Some col
                ∧ at2 m r c = Some (Z.of_nat i) ∧ first_max col i.
Proof.
  intros Hshape Hnn.
  destruct (reduce_columns (λ col, Z.of_nat <$> argmax1 col) a n R C Hshape)
    as (m & Hm & Hsh & Hat).
  { intros r c col Hcol.
    destruct (argmax1_spec col) as (i & -> & _); [..|by eexists].
    - by eapply column_nonempty.
    - eapply column_no_nan; [|done]. eauto. }
  exists m. split; [|split; [done|]].
  { unfold np_argmax0. destruct a; [by destruct Hshape|done]. }
  intros r c Hr Hc.
  destruct (column_is_Some a _ R C r c Hshape Hr Hc) as [col Hcol].
  destruct (Hat r c col Hcol) as (y & Hy & Hmy).
  destruct (argmax1_spec col) as (i & Hi & Hfirst).
  { by eapply column_nonempty. }
  { eapply column_no_nan; [|done]. eauto. }
  rewrite Hi in Hy. injection Hy as <-. eauto.
Qed.

(** [np.argmin(a, axis=0)]: at every pixel, the first image that holds a
    smallest value. *)
Lemma np_argmin0_spec (a : stack A) n R C :
  shape3 (S n) R C a →
  (∀ i r c x, at3 a i r c = Some x → s_isnan x = false) →
  ∃ m, np_argmin0 a = Ok m ∧ shape2 R C m
     ∧ ∀ r c, (r < R)%nat → (c < C)%nat →
         ∃ col i, column a r c = Some col
                ∧ at2 m r c = Some (Z.of_nat i) ∧ first_min col i.
Proof.
  intros Hshape Hnn.
  destruct (reduce_columns (λ col, Z.of_nat <$> argmin1 col) a n R C Hshape)
    as (m & Hm & Hsh & Hat).
  { intros r c col Hcol.
    destruct (argmin1_spec col) as (i & -> & _); [..|by eexists].
    - by eapply column_nonempty.
    - eapply column_no_nan; [|done]. eauto. }
  exists m. split; [|split; [done|]].
  { unfold np_argmin0. destruct a; [by destruct Hshape|done]. }
  intros r c Hr Hc.
  destruct (column_is_Some a _ R C r c Hshape Hr Hc) as [col Hcol].
  destruct (Hat r c col Hcol) as (y & Hy & Hmy).
  destruct (argmin1_spec col) as (i & Hi & Hfirst).
  { by eapply column_nonempty. }
  { eapply column_no_nan; [|done]. eauto. }
  rewrite Hi in Hy. injection Hy as <-. eauto.
Qed.
End selection3.

(** *** The median and the distance to it *)

Lemma shape2_map {X Y} (f : X → Y) (p : plane X) R C :
  shape2 R C p → shape2 R C (map (map f) p).
Proof.
  intros [Hlen Hrows]. split; [by rewrite length_map|].
  apply Forall_map. eapply Forall_impl; [done|]. intros row Hrow. simpl.
  by rewrite length_map.
Qed.

Lemma shape2_zip_with {X Y W} (f : X → Y → W) (p : plane X) (q : plane Y) R C :
  shape2 R C p → shape2 R C q → shape2 R C (zip_with (zip_with f) p q).
Proof.
  intros [Hlp Hp] [Hlq Hq]. split; [rewrite length_zip_with; lia|].
  apply Forall_forall. intros row Hrow.
  apply elem_of_lookup_zip_with in Hrow as (i & x & y & -> & Hx & Hy).
  apply (Forall_lookup_1 _ _ _ _ Hp) in Hx.
  apply (Forall_lookup_1 _ _ _ _ Hq) in Hy.
  rewrite length_zip_with. lia.
Qed.

Lemma zip_same_plane {X Y W} (g : X → Y → W) (p : plane X) (q : plane Y) R C :
  shape2 R C p → shape2 R C q →
  zip_same (zip_same (λ x y, Ok (g x y))) p q = Ok (zip_with (zip_with g) p q).
Proof.
  intros [Hlp Hp] [Hlq Hq]. apply zip_same_fun.
  apply Forall2_same_length_lookup. split; [lia|].
  intros i row row' Hrow Hrow'. apply zip_same_fun.
  apply (Forall_lookup_1 _ _ _ _ Hp) in Hrow.
  apply (Forall_lookup_1 _ _ _ _ Hq) in Hrow'.
  apply Forall2_same_length_lookup. split; [lia|done].
Qed.

Section median.
Context {A : Type} `{ScalarOrder A}.

Lemma insert_sorted_length (x : A) l : length (insert_sorted x l) = S (length l).
Proof.
  induction l as [|y l IH]; simpl; [done|].
  destruct (s_le x y); simpl; [done|by rewrite IH].
Qed.

Lemma np_sort_length (l : list A) : length (np_sort l) = length l.
Proof.
  induction l as [|x l IH]; simpl; [done|].
  by rewrite insert_sorted_length, IH.
Qed.

(** Sorting rearranges, and puts in ascending order what holds no NaN. *)
Lemma insert_sorted_perm (x : A) l : insert_sorted x l ≡ₚ x :: l.
Proof.
  induction l as [|y l IH]; simpl; [done|].
  destruct (s_le x y); [done|]. rewrite IH. apply Permutation_swap.
Qed.

Lemma np_sort_perm (l : list A) : np_sort l ≡ₚ l.
Proof.
  induction l as [|x l IH]; simpl; [done|].
  rewrite insert_sorted_perm. by rewrite IH.
Qed.

Lemma ascending_cons (x : A) l :
  ascending (x :: l) ↔ Forall (λ y, s_le x y = true) l ∧ ascending l.
Proof.
  split.
  - intros Hasc. split.
    + apply Forall_lookup. intros j y Hy.
      apply (Hasc 0%nat (S j) x y); [lia|done|done].
    + intros i j y z Hij Hy Hz. apply (Hasc (S i) (S j) y z); [lia|done|done].
  - intros [Hx Hasc] i j y z Hij Hy Hz. destruct i as [|i], j as [|j]; try lia.
    + injection Hy as <-. by apply (Forall_lookup_1 _ _ _ _ Hx) in Hz.
    + apply (Hasc i j y z); [lia|done|done].
Qed.

Lemma insert_sorted_ascending (x : A) l :
  s_isnan x = false → no_nan l → ascending l → ascending (insert_sorted x l).
Proof.
  intros Hx. induction l as [|y l IH]; intros Hnn Hasc; simpl.
  - apply ascending_cons. split; [constructor|]. intros i j ? ? _ Hi. done.
  - apply Forall_cons in Hnn as [Hy Hnn].
    apply ascending_cons in Hasc as [Hyl Hasc].
    destruct (s_le x y) eqn:Hxy.
    + apply ascending_cons. split; [|by apply ascending_cons].
      constructor; [done|].
      apply Forall_forall. intros z Hz.
      apply (s_le_trans x y z); [done|done| |done|].
      * by apply (proj1 (Forall_forall _ _) Hnn).
      * by apply (proj1 (Forall_forall _ _) Hyl).
    + apply ascending_cons. split; [|by apply IH].
      rewrite insert_sorted_perm. constructor; [|done].
      by apply s_le_false_flip.
Qed.

Lemma np_sort_ascending (l : list A) : no_nan l → ascending (np_sort l).
Proof.
  induction l as [|x l IH]; intros Hnn; simpl.
  - intros i j ? ? _ Hi. done.
  - apply Forall_cons in Hnn as [Hx Hnn]. apply insert_sorted_ascending; [done| |by apply IH].
    unfold no_nan. by rewrite np_sort_perm.
Qed.

Lemma find_no_nan (l : list A) : no_nan l → List.find s_isnan l = None.
Proof.
  induction 1 as [|x l Hx _ IH]; simpl; [done|]. by rewrite Hx.
Qed.

(** On an axis that holds a NaN the median is a NaN. *)
Lemma median1_nan (l : list A) :
  ¬ no_nan l → ∃ μ, median1 l = Ok μ ∧ s_isnan μ = true.
Proof.
  intros Hnan. unfold median1.
  destruct (List.find s_isnan l) as [x|] eqn:Hfind.
  - exists x. split; [done|]. by apply find_some in Hfind as [_ Hx].
  - destruct Hnan. apply Forall_forall. intros x Hx.
    apply list_elem_of_In in Hx.
    pose proof (find_none _ _ Hfind x Hx) as Hnx. by destruct (s_isnan x).
Qed.

Lemma median1_total (l : list A) : l ≠ [] → ∃ μ, median1 l = Ok μ.
Proof.
  intros Hne. unfold median1.
  destruct (List.find s_isnan l) as [x|]; [by eexists|].
  assert (0 < length l)%nat as Hlen by (destruct l; [done|simpl; lia]).
  assert (length l / 2 < length l)%nat as Hhalf by (apply Nat.div_lt; lia).
  set (part := if Nat.even (length l) then _ else _).
  assert (part ≠ []) as Hpart.
  { intros Hnil. apply (f_equal length) in Hnil. revert Hnil. unfold part.
    destruct (Nat.even (length l));
      rewrite length_take, length_drop, np_sort_length; cbn [length]; lia. }
  destruct part as [|x t]; [done|]. by eexists.
Qed.

(** What [median1] returns on an axis without NaN is the median, as
    [is_median] tells it. *)
Lemma median1_is_median (l : list A) (μ : A) :
  no_nan l → median1 l = Ok μ → is_median l μ.
Proof.
  intros Hnn. unfold median1. rewrite (find_no_nan l Hnn). cbv zeta.
  intros Hμ. exists (np_sort l).
  split; [apply np_sort_perm|]. split; [by apply np_sort_ascending|].
  pose proof (np_sort_length l) as Hlen.
  destruct (Nat.even (length l)) eqn:Heven.
  - destruct (drop (length l / 2 - 1) (np_sort l)) as [|x [|y t]] eqn:Hdrop;
      [done| |].
    + apply (f_equal length) in Hdrop. rewrite length_drop, Hlen in Hdrop.
      cbn [length] in Hdrop. apply Nat.even_spec in Heven as [k Hk].
      rewrite Hk in Hdrop. replace (2 * k)%nat with (k * 2)%nat in Hdrop by lia.
      rewrite Nat.div_mul in Hdrop by lia. lia.
    + cbn in Hμ. injection Hμ as <-. exists x, y.
      pose proof (lookup_drop (np_sort l) (length l / 2 - 1) 0) as Hl0.
      pose proof (lookup_drop (np_sort l) (length l / 2 - 1) 1) as Hl1.
      rewrite Hdrop in Hl0, Hl1.
      rewrite Nat.add_0_r in Hl0.
      assert (0 < length l / 2)%nat as Hpos.
      { apply Nat.even_spec in Heven as [k Hk]. rewrite Hk.
        replace (2 * k)%nat with (k * 2)%nat by lia. rewrite Nat.div_mul by lia.
        apply (f_equal length) in Hdrop. rewrite length_drop, Hlen, Hk in Hdrop.
        replace (2 * k)%nat with (k * 2)%nat in Hdrop by lia.
        rewrite Nat.div_mul in Hdrop by lia. cbn [length] in Hdrop. lia. }
      replace (length l / 2 - 1 + 1)%nat with (length l / 2)%nat in Hl1 by lia.
      split; [by rewrite <- Hl0|]. split; [by rewrite <- Hl1|done].
  - destruct (drop (length l / 2) (np_sort l)) as [|x t] eqn:Hdrop; [done|].
    cbn in Hμ. injection Hμ as <-. exists x.
    pose proof (lookup_drop (np_sort l) (length l / 2) 0) as Hl0.
    rewrite Hdrop, Nat.add_0_r in Hl0. split; [by rewrite <- Hl0|done].
Qed.

(** [np.median(a, axis=0)]: the median of every pixel column. *)
Lemma np_median0_spec (a : stack A) n R C :
  shape3 (S n) R C a →
  ∃ med, np_median0 a = Ok med ∧ shape2 R C med
       ∧ ∀ r c col, column a r c = Some col →
           ∃ μ, median1 col = Ok μ ∧ at2 med r c = Some μ.
Proof.
  intros Hshape.
  destruct (reduce_columns median1 a n R C Hshape) as (med & Hmed & Hsh & Hat).
  { intros r c col Hcol. apply median1_total. by eapply column_nonempty. }
  exists med. split; [|done].
  unfold np_median0. destruct a; [by destruct Hshape|done].
Qed.

Lemma np_sub_plane_shape (a : stack A) (med : plane A) n R C :
  shape3 n R C a → shape2 R C med →
  np_sub_plane a med = Ok (map (λ img, zip_with (zip_with s_sub) img med) a)
  ∧ shape3 n R C (distances a med).
Proof.
  intros [Hlen Hall] Hmed. split.
  - apply mapM_Ok_fun. eapply Forall_impl; [done|].
    intros img Himg. by eapply zip_same_plane.
  - split; [unfold distances, np_abs; by rewrite !length_map|].
    unfold distances, np_abs. rewrite <- list_fmap_compose.
    apply Forall_fmap. eapply Forall_impl; [done|]. intros img Himg. simpl.
    apply shape2_map. by apply shape2_zip_with.
Qed.

Lemma distances_column (a : stack A) (med : plane A) r c col μ :
  column a r c = Some col → at2 med r c = Some μ →
  column (distances a med) r c = Some (map (λ x, s_abs (s_sub x μ)) col).
Proof.
  unfold column. intros Hcol Hμ. apply mapM_Some in Hcol. apply mapM_Some.
  unfold distances, np_abs. rewrite <- list_fmap_compose.
  apply Forall2_fmap. eapply Forall2_impl; [done|].
  intros img x Hx. simpl. rewrite at2_map, at2_zip_with, Hx. simpl.
  by rewrite Hμ.
Qed.

(** [median] (line 146) on a stack without NaN: the array of medians holds
    the median of every pixel column, and the index array names, at every
    pixel, the first image whose value is at the smallest distance from
    it. *)
Lemma fn_median_spec (a : stack A) n R C :
  shape3 (S n) R C a →
  (∀ i r c x, at3 a i r c = Some x → s_isnan x = false) →
  ∃ med, np_median0 a = Ok med ∧ shape2 R C med
    ∧ (∀ r c col, column a r c = Some col →
         ∃ μ, at2 med r c = Some μ ∧ is_median col μ)
    ∧ ((∀ i r c x, at3 (distances a med) i r c = Some x → s_isnan x = false) →
       ∃ m, fn_median [VStack a] = Ok (VIndex m) ∧ shape2 R C m
          ∧ ∀ r c, (r < R)%nat → (c < C)%nat →
              ∃ col μ i, column a r c = Some col ∧ is_median col μ
                ∧ at2 med r c = Some μ
                ∧ at2 m r c = Some (Z.of_nat i)
                ∧ first_min (map (λ x, s_abs (s_sub x μ)) col) i).
Proof.
  intros Hshape Hnan.
  destruct (np_median0_spec a n R C Hshape) as (med & Hmed & Hsh & Hat).
  assert (∀ r c col, column a r c = Some col →
            ∃ μ, at2 med r c = Some μ ∧ is_median col μ) as Hmedian.
  { intros r c col Hcol. destruct (Hat r c col Hcol) as (μ & Hμ & Hmedμ).
    exists μ. split; [done|]. apply median1_is_median; [|done].
    eapply column_no_nan; [|done]. intros i x. apply Hnan. }
  exists med. split; [done|]. split; [done|]. split; [done|]. intros Hnn.
  destruct (np_sub_plane_shape a med (S n) R C Hshape Hsh) as [Hsub Hdsh].
  destruct (np_argmin0_spec (distances a med) n R C Hdsh Hnn) as (m & Hm & Hmsh & Hmat).
  exists m. split; [|split; [done|]].
  { unfold fn_median. rewrite Hmed. simpl. rewrite Hsub. simpl.
    fold (distances a med). by rewrite Hm. }
  intros r c Hr Hc.
  destruct (Hmat r c Hr Hc) as (dcol & i & Hdcol & Hi & Hfirst).
  destruct (column_is_Some a _ R C r c Hshape Hr Hc) as [col Hcol].
  destruct (Hmedian r c col Hcol) as (μ & Hmedμ & Hμ).
  rewrite (distances_column a med r c col μ Hcol Hmedμ) in Hdcol.
  injection Hdcol as <-. eauto 10.
Qed.
End median.

(** *** The three selection functions *)

(** Exact arithmetic has the order laws. *)
#[global] Instance exact_order : ScalarOrder Q.
Proof.
  split.
  - intros x y _ _. simpl. rewrite !Qle_bool_iff.
    destruct (Qlt_le_dec x y) as [Hlt|Hle]; [left; by apply Qlt_le_weak|by right].
  - intros x y z _ _ _. simpl. rewrite !Qle_bool_iff. apply Qle_trans.
Qed.

(** C4. [max] and [min] (lines 144-145) return, for a stack of images of one
    shape without NaN, an index array of the shape of one image whose entry
    at a pixel is the first image holding a largest, respectively a smallest,
    value of that pixel.  On images whose blue values are 5, 50 and 20 the
    expression [(min blue)] selects image 0, the one with blue = 5, in
    float64 and in exact arithmetic. *)
Theorem max_min_select_extremum :
  (∀ (A : Type) (Sc : Scalar A) (Or : ScalarOrder A) (a : stack A) (n R C : nat),
     shape3 (S n) R C a →
     (∀ i r c x, at3 a i r c = Some x → s_isnan x = false) →
     ∃ mx mn,
       fn_max [VStack a] = Ok (VIndex mx) ∧ shape2 R C mx
       ∧ fn_min [VStack a] = Ok (VIndex mn) ∧ shape2 R C mn
       ∧ ∀ r c, (r < R)%nat → (c < C)%nat →
           ∃ col i j, column a r c = Some col
             ∧ at2 mx r c = Some (Z.of_nat i) ∧ first_max col i
             ∧ at2 mn r c = Some (Z.of_nat j) ∧ first_min col j)
  ∧ (∀ np : numpy_module,
       snuggs_eval func_map
         {[ "blue"%string := VStack [[[5]]; [[50]]; [[20]]]%float ]} "(min blue)"
       = Ok (VIndex [[0]]))
  ∧ (∀ np : numpy_module,
       snuggs_eval func_map
         {[ "blue"%string := VStack [[[5]]; [[50]]; [[20]]]%Q ]} "(min blue)"
       = Ok (VIndex [[0]])).
Proof.
  split; [|split; intros; vm_compute; reflexivity].
  intros A Sc Or a n R C Hshape Hnn.
  destruct (np_argmax0_spec a n R C Hshape Hnn) as (mx & Hmx & Hshx & Hatx).
  destruct (np_argmin0_spec a n R C Hshape Hnn) as (mn & Hmn & Hshn & Hatn).
  exists mx, mn. unfold fn_max, fn_min. rewrite Hmx, Hmn.
  split; [done|]. split; [done|]. split; [done|]. split; [done|].
  intros r c Hr Hc.
  destruct (Hatx r c Hr Hc) as (col & i & Hcol & Hi & Hmax).
  destruct (Hatn r c Hr Hc) as (col' & j & Hcol' & Hj & Hmin).
  rewrite Hcol in Hcol'. injection Hcol' as <-. eauto 10.
Qed.

(** C4 on a 1 x 2 block of three images in exact arithmetic. *)
Lemma max_min_select_extremum_witness :
  ∃ mx mn,
    fn_max [VStack [[[5; 1]]; [[50; 1]]; [[20; 1]]]%Q] = Ok (VIndex mx) ∧ shape2 1 2 mx
    ∧ fn_min [VStack [[[5; 1]]; [[50; 1]]; [[20; 1]]]%Q] = Ok (VIndex mn) ∧ shape2 1 2 mn
    ∧ ∀ r c, (r < 1)%nat → (c < 2)%nat →
        ∃ col i j, column [[[5; 1]]; [[50; 1]]; [[20; 1]]]%Q r c = Some col
          ∧ at2 mx r c = Some (Z.of_nat i) ∧ first_max col i
          ∧ at2 mn r c = Some (Z.of_nat j) ∧ first_min col j.
Proof.
  apply (proj1 max_min_select_extremum Q exact exact_order
           [[[5; 1]]; [[50; 1]]; [[20; 1]]]%Q 2%nat 1%nat 2%nat).
  - split; [reflexivity|]. repeat constructor.
  - intros i r c x _. reflexivity.
Defined.

(** C3. [median] (lines 146-147) on a stack of images of one shape without
    NaN.  The array of medians holds, at every pixel, the median of the
    pixel's values across the images: the middle value of the values in
    ascending order, or the mean of the two middle values.  The index array
    names, at every pixel, the first image whose value is at the smallest
    distance from that median, as long as no distance is a NaN.  On the
    values 0.2, 0.5 and 0.8 it selects image 1, the one with value 0.5, in
    float64 and in exact arithmetic, and so does the medianNDVI expression on
    bands with these NDVI values; on the same values in the order 0.8, 0.2,
    0.5 it selects image 2; and on 1, 4, 2, 8, whose median is 3, it selects
    image 1, the earlier of the two images at distance 1. *)
Theorem median_selects_closest :
  (∀ (A : Type) (Sc : Scalar A) (Or : ScalarOrder A) (a : stack A) (n R C : nat),
     shape3 (S n) R C a →
     (∀ i r c x, at3 a i r c = Some x → s_isnan x = false) →
     ∃ med, np_median0 a = Ok med ∧ shape2 R C med
       ∧ (∀ r c col, column a r c = Some col →
            ∃ μ, at2 med r c = Some μ ∧ is_median col μ)
       ∧ ((∀ i r c x, at3 (distances a med) i r c = Some x → s_isnan x = false) →
          ∃ m, fn_median [VStack a] = Ok (VIndex m) ∧ shape2 R C m
             ∧ ∀ r c, (r < R)%nat → (c < C)%nat →
                 ∃ col μ i, column a r c = Some col ∧ is_median col μ
                   ∧ at2 med r c = Some μ
                   ∧ at2 m r c = Some (Z.of_nat i)
                   ∧ first_min (map (λ x, s_abs (s_sub x μ)) col) i))
  ∧ fn_median [VStack [[[0.2]]; [[0.5]]; [[0.8]]]%float] = Ok (VIndex [[1]])
  ∧ fn_median [VStack [[[1 # 5]]; [[1 # 2]]; [[4 # 5]]]%Q] = Ok (VIndex [[1]])
  ∧ fn_median [VStack [[[0.8]]; [[0.2]]; [[0.5]]]%float] = Ok (VIndex [[2]])
  ∧ fn_median [VStack [[[4 # 5]]; [[1 # 5]]; [[1 # 2]]]%Q] = Ok (VIndex [[2]])
  ∧ fn_median [VStack [[[1]]; [[4]]; [[2]]; [[8]]]%float] = Ok (VIndex [[1]])
  ∧ fn_median [VStack [[[1]]; [[4]]; [[2]]; [[8]]]%Q] = Ok (VIndex [[1]])
  ∧ ∀ np : numpy_module,
      snuggs_eval func_map
        {[ "nir"%string := VStack [[[3]]; [[3]]; [[9]]]%float;
           "red"%string := VStack [[[2]]; [[1]]; [[1]]]%float ]}
        "(median (/ (- nir red) (+ nir red)))"
      = Ok (VIndex [[1]]).
Proof.
  split; [|repeat split; intros; vm_compute; reflexivity].
  intros A Sc Or a n R C Hshape Hnan.
  destruct (fn_median_spec a n R C Hshape Hnan) as (med & Hmed & Hsh & Hat & Hsel).
  exists med. split; [done|]. split; [done|]. split; [done|]. exact Hsel.
Qed.

(** C3 on the values 4/5, 1/5 and 1/2, in this order, in exact arithmetic:
    the median is 1/2, the value of image 2. *)
Lemma median_selects_closest_witness :
  ∃ med, np_median0 [[[4 # 5]]; [[1 # 5]]; [[1 # 2]]]%Q = Ok med ∧ shape2 1 1 med
    ∧ (∀ r c col, column [[[4 # 5]]; [[1 # 5]]; [[1 # 2]]]%Q r c = Some col →
         ∃ μ, at2 med r c = Some μ ∧ is_median col μ)
    ∧ ((∀ i r c x, at3 (distances [[[4 # 5]]; [[1 # 5]]; [[1 # 2]]]%Q med) i r c
                   = Some x → s_isnan x = false) →
       ∃ m, fn_median [VStack [[[4 # 5]]; [[1 # 5]]; [[1 # 2]]]%Q] = Ok (VIndex m)
          ∧ shape2 1 1 m
          ∧ ∀ r c, (r < 1)%nat → (c < 1)%nat →
              ∃ col μ i, column [[[4 # 5]]; [[1 # 5]]; [[1 # 2]]]%Q r c = Some col
                ∧ is_median col μ
                ∧ at2 med r c = Some μ
                ∧ at2 m r c = Some (Z.of_nat i)
                ∧ first_min (map (λ x, s_abs (s_sub x μ)) col) i).
Proof.
  apply (proj1 median_selects_closest Q exact exact_order
           [[[4 # 5]]; [[1 # 5]]; [[1 # 2]]]%Q 2%nat 1%nat 1%nat).
  - split; [reflexivity|]. repeat constructor.
  - intros i r c x _. reflexivity.
Defined.

(** A NaN along the image axis: numpy's median of the pixel is a NaN, so is
    every distance, and [argmin] stops at image 0. *)
Lemma median_of_nan_column :
  np_median0 [[[0.2]]; [[0.7]]; [[PrimFloat.nan]]]%float = Ok [[PrimFloat.nan]]
  ∧ fn_median [VStack [[[0.2]]; [[0.7]]; [[PrimFloat.nan]]]%float] = Ok (VIndex [[0]]).
Proof. split; vm_compute; reflexivity. Qed.

(** A quotient that [numpy.ma] masks is outside the fragment: the criterion
    of ZheZhu on a pixel whose blue value is 0 in the first image has no
    value here, and has one when no divisor is 0. *)
Lemma masked_quotient_is_not_modelled (np : numpy_module) :
  snuggs_eval func_map
    {[ "nir"%string := VStack [[[3]]; [[3]]]%float;
       "blue"%string := VStack [[[0]]; [[1]]]%float ]}
    "(max (/ nir blue))" = Unmodelled
  ∧ snuggs_eval func_map
      {[ "nir"%string := VStack [[[3]]; [[3]]]%float;
         "blue"%string := VStack [[[2]]; [[1]]]%float ]}
      "(max (/ nir blue))" = Ok (VIndex [[1]]).
Proof. split; vm_compute; reflexivity. Qed.

(** ** The block loop (lines 172-188) *)

Lemma np_index_nonneg {X} (a : list X) (i : nat) (x : X) :
  np_index a (Z.of_nat i) = Ok x ↔ a !! i = Some x.
Proof.
  unfold np_index. destruct (a !! i) as [y|] eqn:Hy.
  - pose proof (lookup_lt_Some _ _ _ Hy) as Hlt.
    assert ((0 <=? Z.of_nat i) && (Z.of_nat i <? Z.of_nat (length a)) = true) as ->.
    { apply andb_true_iff. split; [apply Z.leb_le|apply Z.ltb_lt]; lia. }
    rewrite Nat2Z.id, Hy. simpl. split; congruence.
  - apply lookup_ge_None in Hy.
    assert ((0 <=? Z.of_nat i) && (Z.of_nat i <? Z.of_nat (length a)) = false) as ->.
    { apply andb_false_iff. right. apply Z.ltb_ge. lia. }
    assert ((- Z.of_nat (length a) <=? Z.of_nat i) && (Z.of_nat i <? 0) = false) as ->.
    { apply andb_false_iff. right. apply Z.ltb_ge. lia. }
    done.
Qed.

Lemma np_index_map {X Y} (f : X → Y) (a : list X) (i : Z) :
  np_index (map f a) i = f <$> np_index a i.
Proof.
  unfold np_index. rewrite length_map, !list_lookup_fmap.
  destruct ((0 <=? i) && (i <? Z.of_nat (length a))).
  { by destruct (a !! Z.to_nat i). }
  destruct ((- Z.of_nat (length a) <=? i) && (i <? 0)); [|done].
  by destruct (a !! Z.to_nat (Z.of_nat (length a) + i)).
Qed.

Lemma plane_mapM_at2 {X Y} (f : X → outcome Y) (p : plane X) (q : plane Y) r c x :
  mapM (mapM f) p = Ok q → at2 p r c = Some x →
  ∃ y, f x = Ok y ∧ at2 q r c = Some y.
Proof.
  intros Hq Hx. apply mapM_Ok_Forall2 in Hq. unfold at2 in *.
  destruct (p !! r) as [row|] eqn:Hrow; [|done]. simpl in Hx.
  destruct (Forall2_lookup_l _ _ _ _ _ Hq Hrow) as (row' & -> & Hrow').
  apply mapM_Ok_Forall2 in Hrow'.
  destruct (Forall2_lookup_l _ _ _ _ _ Hrow' Hx) as (y & Hy & Hfy). eauto.
Qed.

Lemma plane_zip_same_at2 {X Y W} (f : X → Y → outcome W)
    (p : plane X) (q : plane Y) (s : plane W) r c y :
  zip_same (zip_same f) p q = Ok s → at2 q r c = Some y →
  ∃ x z, at2 p r c = Some x ∧ f x y = Ok z ∧ at2 s r c = Some z.
Proof.
  intros Hs Hy. apply zip_same_Ok in Hs as [Hs Hlen]. unfold at2 in *.
  destruct (q !! r) as [qrow|] eqn:Hq; [|done]. simpl in Hy.
  destruct (lookup_lt_is_Some_2 p r) as [prow Hp].
  { rewrite Hlen. by eapply lookup_lt_Some. }
  assert (zip p q !! r = Some (prow, qrow)) as Hz.
  { rewrite lookup_zip_with, Hp. simpl. by rewrite Hq. }
  destruct (Forall2_lookup_l _ _ _ _ _ Hs Hz) as (srow & -> & Hsrow).
  rewrite Hp. simpl in *. apply zip_same_Ok in Hsrow as [Hsrow Hlen'].
  destruct (lookup_lt_is_Some_2 prow c) as [x Hx].
  { rewrite Hlen'. by eapply lookup_lt_Some. }
  assert (zip prow qrow !! c = Some (x, y)) as Hz'.
  { rewrite lookup_zip_with, Hx. simpl. by rewrite Hy. }
  destruct (Forall2_lookup_l _ _ _ _ _ Hsrow Hz') as (z & Hsz & Hfz). eauto.
Qed.

Lemma plane_zip_same_shape {X Y W} (f : X → Y → outcome W)
    (p : plane X) (q : plane Y) (s : plane W) R C :
  zip_same (zip_same f) p q = Ok s → shape2 R C q → shape2 R C p ∧ shape2 R C s.
Proof.
  intros Hs [HR HC]. apply zip_same_Ok in Hs as [Hs Hlen].
  pose proof (Forall2_length _ _ _ Hs) as Hlen'. rewrite length_zip_with in Hlen'.
  split; (split; [lia|]); apply Forall_lookup; intros r row Hrow.
  - destruct (lookup_lt_is_Some_2 q r) as [qrow Hq].
    { rewrite <- Hlen. by eapply lookup_lt_Some. }
    assert (zip p q !! r = Some (row, qrow)) as Hz.
    { rewrite lookup_zip_with, Hrow. simpl. by rewrite Hq. }
    destruct (Forall2_lookup_l _ _ _ _ _ Hs Hz) as (srow & _ & Hsrow).
    apply zip_same_Ok in Hsrow as [_ Hl]. simpl in Hl.
    rewrite Hl. by apply (Forall_lookup_1 _ _ _ _ HC) in Hq.
  - destruct (Forall2_lookup_r _ _ _ _ _ Hs Hrow) as ([prow qrow] & Hz & Hsrow).
    apply zip_same_Ok in Hsrow as [Hsrow Hl]. simpl in *.
    rewrite <- (Forall2_length _ _ _ Hsrow), length_zip_with.
    apply lookup_zip_with_Some in Hz as (? & ? & [= <- <-] & Hp & Hq).
    apply (Forall_lookup_1 _ _ _ _ HC) in Hq. lia.
Qed.

Lemma meshgrid_shape R C :
  shape2 R C (np_meshgrid_ij R C).1 ∧ shape2 R C (np_meshgrid_ij R C).2.
Proof.
  unfold np_meshgrid_ij. simpl. split; split.
  - by rewrite length_map, length_seq.
  - apply Forall_map. apply Forall_forall. intros r _. simpl. apply length_replicate.
  - apply length_replicate.
  - apply Forall_replicate. by rewrite length_map, length_seq.
Qed.

Lemma meshgrid_at2 R C r c :
  (r < R)%nat → (c < C)%nat →
  at2 (np_meshgrid_ij R C).1 r c = Some (Z.of_nat r)
  ∧ at2 (np_meshgrid_ij R C).2 r c = Some (Z.of_nat c).
Proof.
  intros Hr Hc. unfold np_meshgrid_ij, at2. simpl. split.
  - rewrite list_lookup_fmap, lookup_seq_lt by done. simpl.
    by rewrite lookup_replicate_2.
  - rewrite lookup_replicate_2 by done. simpl.
    by rewrite list_lookup_fmap, lookup_seq_lt.
Qed.

Lemma zip_same_total {X Y W} (f : X → Y → outcome W) (l : list X) (k : list Y) :
  length l = length k →
  (∀ i x y, l !! i = Some x → k !! i = Some y → ∃ z, f x y = Ok z) →
  ∃ r, zip_same f l k = Ok r.
Proof.
  revert k. induction l as [|x l IH]; intros [|y k] Hlen Hf; try done.
  - by exists [].
  - destruct (Hf 0%nat x y eq_refl eq_refl) as [z Hz].
    destruct (IH k) as [r Hr]; [simpl in Hlen; lia|..].
    { intros i x' y' Hx' Hy'. by apply (Hf (S i)). }
    exists (z :: r). cbn [zip_same]. by rewrite Hz, Hr.
Qed.

Lemma plane_zip_same_total {X Y W} (f : X → Y → outcome W)
    (p : plane X) (q : plane Y) R C :
  shape2 R C p → shape2 R C q →
  (∀ r c x y, at2 p r c = Some x → at2 q r c = Some y → ∃ z, f x y = Ok z) →
  ∃ s, zip_same (zip_same f) p q = Ok s.
Proof.
  intros [Hlp Hp] [Hlq Hq] Hf. apply zip_same_total; [lia|].
  intros r prow qrow Hprow Hqrow. apply zip_same_total.
  - apply (Forall_lookup_1 _ _ _ _ Hp) in Hprow.
    apply (Forall_lookup_1 _ _ _ _ Hq) in Hqrow. lia.
  - intros c x y Hx Hy. apply (Hf r c); unfold at2.
    + by rewrite Hprow.
    + by rewrite Hqrow.
Qed.

Lemma plane_mapM_total {X Y} (f : X → outcome Y) (p : plane X) :
  (∀ r c x, at2 p r c = Some x → ∃ y, f x = Ok y) →
  ∃ q, mapM (mapM f) p = Ok q.
Proof.
  intros Hf. apply mapM_Ok_total. apply Forall_lookup. intros r row Hrow.
  apply mapM_Ok_total. apply Forall_lookup. intros c x Hx.
  apply (Hf r c). unfold at2. by rewrite Hrow.
Qed.

Section block.
Context {A : Type} `{Scalar A} {np : numpy_module}.
Variable fs : gmap string (raster A).

Lemma io_bind_Ok {X Y} (m : io A X) (f : X → io A Y) (tr : list (event A)) (y : Y) :
  m ≫= f = (tr, Ok y)
  ↔ ∃ x t1 t2, m = (t1, Ok x) ∧ f x = (t2, Ok y) ∧ tr = t1 ++ t2.
Proof.
  destruct m as [t1 [x|e|]]; unfold mbind, io_mbind, io_bind; simpl.
  - destruct (f x) as [t2 r] eqn:Hf. simpl. split.
    + intros [= <- ->]. eauto 10.
    + intros (x' & t1' & t2' & [= <- <-] & Hfx & ->). congruence.
  - split; [done|]. intros (x' & t1' & t2' & ? & _); done.
  - split; [done|]. intros (x' & t1' & t2' & ? & _); done.
Qed.

Lemma lift_Ok {X} (m : outcome X) (tr : list (event A)) (x : X) :
  lift m = (tr, Ok x) ↔ m = Ok x ∧ tr = [].
Proof. unfold lift. split; [intros [= <- ->]; done|intros [-> ->]; done]. Qed.

Lemma io_bind_intro {X Y} (m : io A X) (f : X → io A Y) t1 x t2 r :
  m = (t1, Ok x) → f x = (t2, r) → m ≫= f = (t1 ++ t2, r).
Proof.
  intros -> Hf. unfold mbind, io_mbind, io_bind. simpl. by rewrite Hf.
Qed.

Lemma io_bind_raise {X Y} (m : io A X) (f : X → io A Y) t e :
  m = (t, Raise e) → m ≫= f = (t, Raise e).
Proof. by intros ->. Qed.

(** The writes of one block: one event per band, in band order. *)
Lemma write_block_Ok (output : string) (count : nat) (w : window)
    (composite : stack A) (tr : list (event A)) (u : unit) :
  write_block output count w composite = (tr, Ok u) →
  ∃ planes,
    Forall2 (λ b p, np_last_axis composite b = Ok p) (seq 0 count) planes
    ∧ tr = zip_with (λ b p, EvWrite output (b + 1) w p) (seq 0 count) planes.
Proof.
  unfold write_block. generalize (seq 0 count) as bs. intros bs. revert tr.
  induction bs as [|b bs IH]; intros tr Htr.
  - injection Htr as <-. exists []. split; [constructor|done].
  - cbn [forM_] in Htr. apply io_bind_Ok in Htr as ([] & t1 & t2 & Hb & Hrest & ->).
    apply io_bind_Ok in Hb as (p & t3 & t4 & Hp & He & ->).
    apply lift_Ok in Hp as [Hp ->]. injection He as <-.
    destruct (IH _ Hrest) as (planes & Hall & ->).
    exists (p :: planes). split; [by constructor|done].
Qed.

(** What line 183 and the band slices of line 187 return, when they return:
    every entry of band [b] is the value of band [b] in the image that the
    index array names for that pixel. *)
Lemma gather_planes_spec (dat : list (stack A)) (m : plane Z) (R C count : nat)
    (composite : stack A) (planes : list (plane A)) :
  gather dat (VIndex m) (np_meshgrid_ij R C).1 (np_meshgrid_ij R C).2 = Ok composite →
  Forall2 (λ b p, np_last_axis composite b = Ok p) (seq 0 count) planes →
  shape2 R C m
  ∧ ∀ r c, (r < R)%nat → (c < C)%nat →
      ∃ i img, at2 m r c = Some i ∧ np_index dat i = Ok img
        ∧ ∀ b, (b < count)%nat →
            ∃ p v, planes !! b = Some p ∧ at2 p r c = Some v
                 ∧ at3 img b r c = Some v.
Proof.
  intros Hgather Hplanes. unfold gather, np_take3 in Hgather.
  apply bind_Ok in Hgather as (i12 & Hi12 & Hgather).
  destruct (meshgrid_shape R C) as [Hmi Hmj].
  rewrite (zip_same_plane pair _ _ R C Hmi Hmj) in Hi12. injection Hi12 as <-.
  assert (shape2 R C (zip_with (zip_with pair) (np_meshgrid_ij R C).1
                        (np_meshgrid_ij R C).2)) as Hi12 by by apply shape2_zip_with.
  destruct (plane_zip_same_shape _ _ _ _ R C Hgather Hi12) as [Hm Hcomp].
  split; [done|]. intros r c Hr Hc.
  destruct (meshgrid_at2 R C r c Hr Hc) as [Hmir Hmjc].
  assert (at2 (zip_with (zip_with pair) (np_meshgrid_ij R C).1 (np_meshgrid_ij R C).2)
            r c = Some (Z.of_nat r, Z.of_nat c)) as Hrc.
  { rewrite at2_zip_with, Hmir. cbn [mbind option_bind]. by rewrite Hmjc. }
  destruct (plane_zip_same_at2 _ _ _ _ r c _ Hgather Hrc) as (i & vec & Hi & Hvec & Hcv).
  apply bind_Ok in Hvec as (rimg & Hrimg & Hvec).
  apply bind_Ok in Hvec as (row & Hrow & Hvec).
  apply np_index_nonneg in Hrow, Hvec.
  unfold np_rollaxis_1_4 in Hrimg. rewrite np_index_map in Hrimg.
  apply fmap_Ok in Hrimg as (img & Himg & ->).
  exists i, img. split; [done|]. split; [done|].
  assert (at2 (axis0_last img) r c = Some vec) as Hat.
  { unfold at2. by rewrite Hrow. }
  assert (img ≠ []) as Hne by (intros ->; done).
  rewrite axis0_last_at2 in Hat by done.
  intros b Hb.
  destruct (Forall2_lookup_l _ _ _ _ _ Hplanes (lookup_seq_lt 0 count b Hb))
    as (p & Hp & Hlast).
  destruct (plane_mapM_at2 _ _ _ r c vec Hlast Hcv) as (v & Hv & Hpv).
  exists p, v. split; [done|]. split; [done|].
  rewrite <- (column_lookup img r c vec b Hat).
  unfold or_raise in Hv. cbn [Nat.add] in Hv.
  destruct (vec !! b); [congruence|done].
Qed.

Lemma write_block_events (output : string) (w : window) (composite : stack A)
    (bs : list nat) (planes : list (plane A)) :
  Forall2 (λ b p, np_last_axis composite b = Ok p) bs planes →
  forM_ bs (λ i_b, data ← lift (np_last_axis composite i_b);
                   emit (EvWrite output (i_b + 1) w data))
  = (zip_with (λ b p, EvWrite output (b + 1) w p) bs planes, Ok ()).
Proof.
  induction 1 as [|b p bs planes Hp _ IH]; [done|].
  cbn [forM_].
  change (zip_with (λ b p, EvWrite output (b + 1) w p) (b :: bs) (p :: planes))
    with (([] ++ [EvWrite output (b + 1) w p])
            ++ zip_with (λ b p, EvWrite output (b + 1) w p) bs planes).
  apply io_bind_intro with (x := ()); [|exact IH].
  apply io_bind_intro with (x := p); [|reflexivity].
  unfold lift. by rewrite Hp.
Qed.

(** Lines 183-188 always succeed on a buffer of [n] images of one shape with
    at least one band, and an index array of the block's shape with entries
    in [0, n). *)
Lemma gather_write_total (dat : list (stack A)) (m : plane Z) (n k R C : nat)
    (output : string) (w : window) :
  length dat = n → Forall (shape3 (S k) R C) dat → shape2 R C m →
  (∀ r c i, at2 m r c = Some i → 0 ≤ i < Z.of_nat n) →
  ∃ composite planes,
    gather dat (VIndex m) (np_meshgrid_ij R C).1 (np_meshgrid_ij R C).2 = Ok composite
    ∧ Forall2 (λ b p, np_last_axis composite b = Ok p) (seq 0 (S k)) planes
    ∧ write_block output (S k) w composite
      = (zip_with (λ b p, EvWrite output (b + 1) w p) (seq 0 (S k)) planes, Ok ()).
Proof.
  intros Hn Hdat Hm Hrange.
  destruct (meshgrid_shape R C) as [Hmi Hmj].
  pose proof (shape2_zip_with pair _ _ R C Hmi Hmj) as Hi12.
  assert (∀ r c i j k', at2 m r c = Some i →
            at2 (zip_with (zip_with pair) (np_meshgrid_ij R C).1
                   (np_meshgrid_ij R C).2) r c = Some (j, k') →
            ∃ img vec, dat !! Z.to_nat i = Some img ∧ column img r c = Some vec
              ∧ (img0 ← np_index (np_rollaxis_1_4 dat) i;
                 row ← np_index img0 j; np_index row k') = Ok vec) as Hentry.
  { intros r c i j k' Hi Hjk.
    destruct (at2_shape _ R C r c _ Hm Hi) as [Hr Hc].
    destruct (meshgrid_at2 R C r c Hr Hc) as [Hmir Hmjc].
    rewrite at2_zip_with, Hmir in Hjk. cbn [mbind option_bind] in Hjk.
    rewrite Hmjc in Hjk. injection Hjk as <- <-.
    destruct (Hrange r c i Hi) as [Hi0 Hin].
    destruct (lookup_lt_is_Some_2 dat (Z.to_nat i)) as [img Himg]; [lia|].
    pose proof (Forall_lookup_1 _ _ _ _ Hdat Himg) as Hshape.
    destruct (column_is_Some img _ R C r c Hshape Hr Hc) as [vec Hvec].
    exists img, vec. split; [done|]. split; [done|].
    assert (img ≠ []) as Hne by (destruct Hshape as [Hl _]; by destruct img).
    rewrite <- axis0_last_at2 in Hvec by done. unfold at2 in Hvec.
    destruct (axis0_last img !! r) as [row|] eqn:Hrow; [|done]. simpl in Hvec.
    unfold np_rollaxis_1_4. rewrite np_index_map.
    rewrite <- (Z2Nat.id i) at 1 by done.
    rewrite (proj2 (np_index_nonneg dat _ img) Himg). cbn [fmap outcome_fmap mbind outcome_bind].
    rewrite (proj2 (np_index_nonneg _ r row) Hrow). cbn [mbind outcome_bind].
    by apply np_index_nonneg. }
  destruct (plane_zip_same_total
              (λ (i : Z) '(j, k'), img0 ← np_index (np_rollaxis_1_4 dat) i;
                                    row ← np_index img0 j; np_index row k')
              m _ R C Hm Hi12) as [composite Hcomp].
  { intros r c i [j k'] Hi Hjk.
    destruct (Hentry r c i j k' Hi Hjk) as (img & vec & _ & _ & Hf). eauto. }
  assert (gather dat (VIndex m) (np_meshgrid_ij R C).1 (np_meshgrid_ij R C).2
          = Ok composite) as Hgather.
  { unfold gather, np_take3. rewrite (zip_same_plane pair _ _ R C Hmi Hmj).
    exact Hcomp. }
  assert (∀ r c vec, at2 composite r c = Some vec → length vec = S k) as Hlen.
  { intros r c vec Hvec.
    destruct (plane_zip_same_shape _ _ _ _ R C Hcomp Hi12) as [_ Hcsh].
    destruct (at2_shape _ R C r c _ Hcsh Hvec) as [Hr Hc].
    destruct (meshgrid_at2 R C r c Hr Hc) as [Hmir Hmjc].
    assert (at2 (zip_with (zip_with pair) (np_meshgrid_ij R C).1
                   (np_meshgrid_ij R C).2) r c = Some (Z.of_nat r, Z.of_nat c)) as Hrc.
    { rewrite at2_zip_with, Hmir. cbn [mbind option_bind]. by rewrite Hmjc. }
    destruct (plane_zip_same_at2 _ _ _ _ r c _ Hcomp Hrc) as (i & vec' & Hi & Hf & Hcv).
    destruct (Hentry r c i _ _ Hi Hrc) as (img & vec'' & Himg & Hcol & Hf').
    assert (vec = vec'') as -> by congruence.
    rewrite (column_length img r c vec'' Hcol).
    by destruct (Forall_lookup_1 _ _ _ _ Hdat Himg) as [-> _]. }
  assert (∃ planes, mapM (np_last_axis composite) (seq 0 (S k)) = Ok planes)
    as [planes Hplanes].
  { apply mapM_Ok_total. apply Forall_forall. intros b Hb.
    apply elem_of_seq in Hb. apply plane_mapM_total. intros r c vec Hvec.
    destruct (lookup_lt_is_Some_2 vec b) as [v Hv].
    { rewrite (Hlen r c vec Hvec). lia. }
    exists v. by rewrite Hv. }
  apply mapM_Ok_Forall2 in Hplanes.
  exists composite, planes. split; [done|]. split; [done|].
  by apply write_block_events.
Qed.

(** C1. Whenever a turn of the block loop completes, the criterion
    evaluated to an index array [m] of the block's shape, the turn emitted
    one write per band after its reads, and for every pixel (r, c) of the
    block there is one image [dat[m[r,c]]] of the buffer from which the
    value written at (b, r, c) is taken for every band b.  And the gather
    and the writes of lines 183-188 do complete, with these values, on every
    buffer of images of one shape and every index array of the block's shape
    that names images of the buffer. *)
Theorem composite_block_single_winner :
  (∀ (o : options) (expr : string) (ci : gmap string Z) (count R C : nat)
     (dat0 dat : list (stack A)) (w : window) (tr : list (event A)),
     composite_block fs o expr ci count R C
       (np_meshgrid_ij R C).1 (np_meshgrid_ij R C).2 dat0 w = (tr, Ok dat) →
     ∃ rd crit m planes,
       read_block fs (inputs o) count R C w dat0 = (rd, Ok dat)
       ∧ crit_of ci dat = Ok crit
       ∧ snuggs_eval func_map crit expr = Ok (VIndex m)
       ∧ shape2 R C m
       ∧ length planes = count
       ∧ tr = rd ++ zip_with (λ b p, EvWrite (output o) (b + 1) w p)
                      (seq 0 count) planes
       ∧ ∀ r c, (r < R)%nat → (c < C)%nat →
           ∃ i img, at2 m r c = Some i ∧ np_index dat i = Ok img
             ∧ ∀ b, (b < count)%nat →
                 ∃ p v, planes !! b = Some p ∧ at2 p r c = Some v
                      ∧ at3 img b r c = Some v)
  ∧ (∀ (dat : list (stack A)) (m : plane Z) (n k R C : nat)
       (output : string) (w : window),
       length dat = n → Forall (shape3 (S k) R C) dat → shape2 R C m →
       (∀ r c i, at2 m r c = Some i → 0 ≤ i < Z.of_nat n) →
       ∃ composite planes,
         gather dat (VIndex m) (np_meshgrid_ij R C).1 (np_meshgrid_ij R C).2
           = Ok composite
         ∧ write_block output (S k) w composite
           = (zip_with (λ b p, EvWrite output (b + 1) w p) (seq 0 (S k)) planes,
              Ok ())
         ∧ ∀ r c, (r < R)%nat → (c < C)%nat →
             ∃ i img, at2 m r c = Some i ∧ np_index dat i = Ok img
               ∧ ∀ b, (b < S k)%nat →
                   ∃ p v, planes !! b = Some p ∧ at2 p r c = Some v
                        ∧ at3 img b r c = Some v).
Proof.
  split.
  - intros o expr ci count R C dat0 dat w tr. unfold composite_block. intros Hrun.
    apply io_bind_Ok in Hrun as (dat1 & rd & t2 & Hread & Hrun & ->).
    apply io_bind_Ok in Hrun as (crit & t3 & t4 & Hcrit & Hrun & ->).
    apply lift_Ok in Hcrit as [Hcrit ->].
    apply io_bind_Ok in Hrun as (crit_idx & t5 & t6 & Heval & Hrun & ->).
    apply lift_Ok in Heval as [Heval ->].
    apply io_bind_Ok in Hrun as (composite & t7 & t8 & Hgather & Hrun & ->).
    apply lift_Ok in Hgather as [Hgather ->].
    apply io_bind_Ok in Hrun as ([] & tw & t9 & Hwrite & Hret & ->).
    injection Hret as <- <-.
    destruct crit_idx as [a|m]; [done|].
    apply write_block_Ok in Hwrite as (planes & Hplanes & ->).
    destruct (gather_planes_spec dat1 m R C count composite planes Hgather Hplanes)
      as [Hm Hpix].
    exists rd, crit, m, planes.
    split; [done|]. split; [done|]. split; [done|]. split; [done|].
    split. { rewrite <- (Forall2_length _ _ _ Hplanes). apply length_seq. }
    split; [by rewrite !app_nil_r|done].
  - intros dat m n k R C output w Hn Hdat Hm Hrange.
    destruct (gather_write_total dat m n k R C output w Hn Hdat Hm Hrange)
      as (composite & planes & Hgather & Hplanes & Hwrite).
    exists composite, planes. split; [done|]. split; [done|].
    by destruct (gather_planes_spec dat m R C (S k) composite planes Hgather Hplanes).
Qed.
End block.

(** ** Errors of the criterion expression (line 179) *)

(** Induction on S-expressions, with the hypothesis for every element of a
    list. *)
Lemma sexp_list_ind (P : sexp → Prop) :
  (∀ s, P (Atom s)) → (∀ l, Forall P l → P (SList l)) → ∀ e, P e.
Proof.
  intros Hatom Hlist. fix IH 1. intros [s|l].
  - apply Hatom.
  - apply Hlist. induction l as [|e l IHl]; constructor; [apply IH|apply IHl].
Qed.

Lemma elem_of_concat {X} (x : X) (ls : list (list X)) :
  x ∈ concat ls ↔ ∃ l, x ∈ l ∧ l ∈ ls.
Proof.
  rewrite list_elem_of_In, in_concat. split.
  - intros (l & Hl & Hx). exists l. by rewrite !list_elem_of_In.
  - intros (l & Hx & Hl). exists l. by rewrite <- !list_elem_of_In.
Qed.

Lemma mapM_Ok_or_raise {X Y} (f : X → outcome Y) (e : error) (l : list X) :
  Forall (λ x, (∃ y, f x = Ok y) ∨ f x = Raise e) l →
  (∃ k, mapM f l = Ok k) ∨ mapM f l = Raise e.
Proof.
  induction 1 as [|x l [[y Hy]|Hx] _ [[k IH]|IH]]; cbn [mapM].
  - left. by exists [].
  - left. exists (y :: k). by rewrite Hy, IH.
  - right. by rewrite Hy, IH.
  - right. by rewrite Hx.
  - right. by rewrite Hx.
Qed.

Section expression_errors.
Context {A : Type} `{Scalar A} {np : numpy_module}.
Variable fm : gmap string (func A).
Variable ctx : gmap string (value A).

(** Resolution either returns or raises [ExpressionError]. *)
Lemma resolve_Ok_or_raise (e : sexp) :
  (∃ r, resolve fm ctx e = Ok r) ∨ resolve fm ctx e = Raise ExpressionError.
Proof.
  induction e as [s|l IH] using sexp_list_ind.
  - simpl. destruct (is_name s && negb (String.eqb s "nil")); [|by left; eexists].
    destruct (ctx !! s); simpl; [by left; eexists|by right].
  - destruct l as [|h [|a args]]; [by right|by right|].
    cbn [resolve]. apply Forall_cons in IH as [_ IH].
    assert ((∃ f, resolve_head fm h = Ok f)
            ∨ resolve_head fm h = Raise ExpressionError) as [[f ->]| ->].
    { destruct h as [s|l']; [|by left; eexists]. simpl.
      destruct (op_map !! s); [by left; eexists|].
      destruct (fm !! s); [by left; eexists|].
      destruct (higher_func_map !! s); [by left; eexists|].
      destruct (np_hasattr s); [by left; eexists|by right]. }
    + destruct (mapM_Ok_or_raise (resolve fm ctx) ExpressionError (a :: args) IH)
        as [[k Hk]|Hk].
      * left. eexists. cbn [mbind outcome_bind]. by rewrite Hk.
      * right. cbn [mbind outcome_bind]. by rewrite Hk.
    + by right.
Qed.

(** When resolution returns, the context binds every free identifier and
    every function name is known. *)
Lemma resolve_Ok_names (e : sexp) (r : rexp A) :
  resolve fm ctx e = Ok r →
  (∀ x, x ∈ free_names e → is_Some (ctx !! x))
  ∧ (∀ f, f ∈ calls e → known_call fm f).
Proof.
  revert r. induction e as [s|l IH] using sexp_list_ind; intros r Hr.
  - simpl in *. split; [|intros f Hf; by apply elem_of_nil in Hf].
    intros x Hx. destruct (is_name s && negb (String.eqb s "nil")).
    + apply list_elem_of_singleton in Hx as ->.
      destruct (ctx !! s); [by eexists|done].
    + by apply elem_of_nil in Hx.
  - destruct l as [|h [|a args]]; [done|done|].
    cbn [resolve] in Hr. apply Forall_cons in IH as [_ IH].
    apply bind_Ok in Hr as (f & Hf & Hr).
    apply bind_Ok in Hr as (args' & Hargs & _).
    apply mapM_Ok_Forall2 in Hargs.
    assert (∀ arg, arg ∈ a :: args →
              (∀ x, x ∈ free_names arg → is_Some (ctx !! x))
              ∧ (∀ g, g ∈ calls arg → known_call fm g)) as Hsub.
    { intros arg Harg. apply list_elem_of_lookup in Harg as [i Hi].
      destruct (Forall2_lookup_l _ _ _ _ _ Hargs Hi) as (r' & _ & Hr').
      eapply (Forall_lookup_1 _ _ _ _ IH Hi), Hr'. }
    split.
    + intros x Hx. cbn [free_names] in Hx.
      apply elem_of_concat in Hx as (names & Hx & Hnames).
      apply list_elem_of_fmap in Hnames as (arg & -> & Harg).
      by apply (Hsub arg Harg).
    + intros g Hg. cbn [calls] in Hg. apply elem_of_app in Hg as [Hg|Hg].
      * destruct h as [s|l']; [|by apply elem_of_nil in Hg].
        apply list_elem_of_singleton in Hg as ->. simpl in Hf. unfold known_call.
        destruct (op_map !! s); [left; by eexists|].
        destruct (fm !! s); [right; left; by eexists|].
        destruct (higher_func_map !! s); [right; right; left; by eexists|].
        destruct (np_hasattr s); [by right; right; right|done].
      * apply elem_of_concat in Hg as (names & Hg & Hnames).
        apply list_elem_of_fmap in Hnames as (arg & -> & Harg).
        by apply (Hsub arg Harg).
Qed.

(** An expression that uses a name the context does not bind, or a
    function that snuggs does not know, raises [ExpressionError]. *)
Lemma snuggs_eval_unbound (source : string) (e : sexp) (x : string) :
  read_sexp source = Ok e → x ∈ free_names e → ctx !! x = None →
  snuggs_eval fm ctx source = Raise ExpressionError.
Proof.
  intros Hread Hx Hctx. unfold snuggs_eval. rewrite Hread. cbn [mbind outcome_bind].
  destruct (resolve_Ok_or_raise e) as [[r Hr]| ->]; [|done].
  destruct (resolve_Ok_names e r Hr) as [Hnames _].
  destruct (Hnames x Hx) as [v Hv]. congruence.
Qed.

Lemma snuggs_eval_unknown_call (source : string) (e : sexp) (f : string) :
  read_sexp source = Ok e → f ∈ calls e → ¬ known_call fm f →
  snuggs_eval fm ctx source = Raise ExpressionError.
Proof.
  intros Hread Hf Hunknown. unfold snuggs_eval. rewrite Hread.
  cbn [mbind outcome_bind].
  destruct (resolve_Ok_or_raise e) as [[r Hr]| ->]; [|done].
  destruct (resolve_Ok_names e r Hr) as [_ Hcalls].
  destruct (Hunknown (Hcalls f Hf)).
Qed.
End expression_errors.

(** ** The run (lines 113-188) *)

Section run.
Context {A : Type} `{Scalar A} {np : numpy_module}.
Variable fs : gmap string (raster A).

Lemma rasterio_open_Some (path : string) (r : raster A) :
  fs !! path = Some r → rasterio_open fs path = ([EvOpen path], Ok r).
Proof. intros Hr. unfold rasterio_open, lift. by rewrite Hr. Qed.

(** Reading a block opens and reads every input once, in input order. *)
Lemma read_block_events (inputs : list string) (count R C : nat) (w : window)
    (dat0 dat : list (stack A)) (rd : list (event A)) :
  read_block fs inputs count R C w dat0 = (rd, Ok dat) →
  rd = read_events inputs w.
Proof.
  unfold read_block, read_events.
  assert (inputs = (zip (seq 0 (length inputs)) inputs).*2) as Hsnd.
  { symmetry. apply snd_zip. rewrite length_seq. lia. }
  rewrite Hsnd at 3.
  generalize (zip (seq 0 (length inputs)) inputs) as jps. clear Hsnd. intros jps.
  revert dat0 rd. induction jps as [|[j p] jps IH]; intros dat0 rd Hrd.
  - cbn [foldM] in Hrd. by injection Hrd as <- _.
  - cbn [foldM] in Hrd. apply io_bind_Ok in Hrd as (dat1 & t1 & t2 & Hstep & Hrest & ->).
    apply IH in Hrest as ->.
    apply io_bind_Ok in Hstep as (src & t3 & t4 & Hopen & Hstep & ->).
    apply io_bind_Ok in Hstep as (x & t5 & t6 & Hx & Hstep & ->).
    apply io_bind_Ok in Hstep as (x' & t7 & t8 & Hx' & Hret & ->).
    apply lift_Ok in Hx' as [_ ->]. injection Hret as <- _.
    unfold rasterio_open in Hopen.
    apply io_bind_Ok in Hopen as ([] & t9 & t10 & He & Hl & ->).
    injection He as <-. apply lift_Ok in Hl as [_ ->].
    unfold src_read in Hx.
    apply io_bind_Ok in Hx as ([] & t11 & t12 & He & Hl & ->).
    injection He as <-. apply lift_Ok in Hl as [_ ->].
    done.
Qed.

(** A run whose criterion raises in the first block has read that block
    from every input, and raises the same exception. *)
Lemma run_raises_in_first_block (junk : A) (o : options) lg e bands p0 first
    R C idx w ws rd dat crit err :
  select_expr (verbose o) (algo o) (expr o) = (lg, Ok e) →
  merge_user_bands (default_bands o) (band o) = Ok bands →
  inputs o !! 0%nat = Some p0 → fs !! p0 = Some first →
  length (remove_dups (block_shapes first)) = 1%nat →
  block_shapes first !! 0%nat = Some (R, C) →
  block_windows first = (idx, w) :: ws →
  read_block fs (inputs o) (count first) R C w
    (np_empty (length (inputs o)) (count first) R C junk) = (rd, Ok dat) →
  crit_of (crit_indices bands e) dat = Ok crit →
  snuggs_eval func_map crit e = Raise err →
  image_composite fs junk o
  = (prelude o lg e p0 ++ EvCreate (output o) (format o)
       :: read_events (inputs o) w, Raise err).
Proof.
  intros Hsel Hmerge Hp0 Hfirst Hshapes Hbs Hwin Hread Hcrit Heval.
  enough (∃ T, image_composite fs junk o = (T, Raise err)
             ∧ T = prelude o lg e p0 ++ EvCreate (output o) (format o)
                     :: read_events (inputs o) w) as (T & HT & ->) by exact HT.
  eexists. split.
  - unfold image_composite.
    eapply io_bind_intro; [exact Hsel|].
    eapply io_bind_intro; [reflexivity|].
    eapply io_bind_intro; [unfold lift; rewrite Hmerge; reflexivity|].
    cbv zeta.
    eapply io_bind_intro; [unfold lift; rewrite Hp0; reflexivity|].
    eapply io_bind_intro; [by apply rasterio_open_Some|].
    eapply io_bind_intro; [rewrite decide_True by done; reflexivity|].
    eapply io_bind_intro; [unfold lift; rewrite Hbs; reflexivity|].
    eapply io_bind_intro; [reflexivity|].
    unfold np_meshgrid_ij. rewrite Hwin. cbn [foldM].
    eapply io_bind_raise. eapply io_bind_raise. unfold composite_block.
    eapply io_bind_intro; [exact Hread|].
    eapply io_bind_intro; [unfold lift; rewrite Hcrit; reflexivity|].
    eapply io_bind_raise. unfold lift. rewrite Heval. reflexivity.
  - rewrite (read_block_events _ _ _ _ _ _ _ _ Hread). unfold prelude.
    rewrite !app_nil_r. by rewrite <- !app_assoc.
Qed.
End run.

(** *** Failures before and in the first block *)

Section run_errors.
Context {A : Type} `{Scalar A} {np : numpy_module}.
Variable fs : gmap string (raster A).

Lemma crit_of_None (ci : gmap string Z) (dat : list (stack A))
    (crit : gmap string (value A)) (x : string) :
  crit_of ci dat = Ok crit → ci !! x = None → crit !! x = None.
Proof.
  unfold crit_of. intros Hcrit Hx.
  apply bind_Ok in Hcrit as (kvs & Hkvs & [= <-]).
  apply mapM_Ok_Forall2 in Hkvs. apply not_elem_of_list_to_map.
  intros Hin. apply list_elem_of_fmap in Hin as ([k v] & -> & Hkv).
  apply list_elem_of_lookup in Hkv as [i Hi].
  destruct (Forall2_lookup_r _ _ _ _ _ Hkvs Hi) as ([k0 v0] & Hi0 & Hf).
  apply bind_Ok in Hf as (a & _ & [= <- _]).
  apply list_elem_of_lookup_2, elem_of_map_to_list in Hi0. simpl in Hx. congruence.
Qed.

Lemma starts_with_nil {X} (m : io A X) : starts_with [] m.
Proof. destruct m as [t r]. by exists t, r. Qed.

Lemma starts_with_bind {X Y} (m : io A X) (f : X → io A Y) T :
  starts_with T m → starts_with T (m ≫= f).
Proof.
  intros (tr & r & ->). unfold mbind, io_mbind, io_bind. simpl.
  destruct r as [x|e|]; [|by eexists _, _..].
  exists (tr ++ (f x).1), (f x).2. by rewrite app_assoc.
Qed.

Lemma starts_with_bind_Ok {X Y} (m : io A X) (f : X → io A Y) t1 x t2 :
  m = (t1, Ok x) → starts_with t2 (f x) → starts_with (t1 ++ t2) (m ≫= f).
Proof.
  intros -> (tr & r & Hf). unfold mbind, io_mbind, io_bind. simpl. rewrite Hf.
  simpl. exists tr, r. by rewrite app_assoc.
Qed.

(** C5. When the bands of the first input do not all have one block shape,
    the run echoes a message and aborts right after opening that input: the
    output is not created and no pixel is read.  Only the first input is
    examined. *)
Theorem first_input_block_shape_check (junk : A) (o : options)
    (lg : list (event A)) (e : string) (bands : gmap string Z) (p0 : string)
    (first : raster A) :
  select_expr (verbose o) (algo o) (expr o) = (lg, Ok e) →
  merge_user_bands (default_bands o) (band o) = Ok bands →
  inputs o !! 0%nat = Some p0 → fs !! p0 = Some first →
  length (remove_dups (block_shapes first)) ≠ 1%nat →
  image_composite fs junk o
  = (prelude o lg e p0
       ++ [EvEcho ("Cannot process input files - "
                   +:+ "All bands must have same block shapes")],
     Raise Abort).
Proof.
  intros Hsel Hmerge Hp0 Hfirst Hshapes.
  enough (∃ T, image_composite fs junk o = (T, Raise Abort)
             ∧ T = prelude o lg e p0
                     ++ [EvEcho ("Cannot process input files - "
                                 +:+ "All bands must have same block shapes")])
    as (T & HT & ->) by exact HT.
  eexists. split.
  - unfold image_composite.
    eapply io_bind_intro; [exact Hsel|].
    eapply io_bind_intro; [reflexivity|].
    eapply io_bind_intro; [unfold lift; rewrite Hmerge; reflexivity|].
    cbv zeta.
    eapply io_bind_intro; [unfold lift; rewrite Hp0; reflexivity|].
    eapply io_bind_intro; [by apply rasterio_open_Some|].
    eapply io_bind_raise. rewrite decide_False by done. reflexivity.
  - unfold prelude. by rewrite <- !app_assoc.
Qed.

(** C6. An expression that uses a name the band map does not hold makes the
    run raise [ExpressionError] when the criterion is evaluated for the
    first block: by then the first input was opened, the output created and
    the block read from every input; nothing is written. *)
Theorem unknown_band_fails_in_first_block (junk : A) (o : options)
    (lg : list (event A)) (e : string) (t : sexp) (x : string)
    (bands : gmap string Z) (p0 : string) (first : raster A) (R C : nat)
    (idx : nat * nat) (w : window) (ws : list (nat * nat * window))
    (rd : list (event A)) (dat : list (stack A)) (crit : gmap string (value A)) :
  select_expr (verbose o) (algo o) (expr o) = (lg, Ok e) →
  merge_user_bands (default_bands o) (band o) = Ok bands →
  read_sexp e = Ok t → x ∈ free_names t → bands !! x = None →
  inputs o !! 0%nat = Some p0 → fs !! p0 = Some first →
  length (remove_dups (block_shapes first)) = 1%nat →
  block_shapes first !! 0%nat = Some (R, C) →
  block_windows first = (idx, w) :: ws →
  read_block fs (inputs o) (count first) R C w
    (np_empty (length (inputs o)) (count first) R C junk) = (rd, Ok dat) →
  crit_of (crit_indices bands e) dat = Ok crit →
  image_composite fs junk o
  = (prelude o lg e p0 ++ EvCreate (output o) (format o)
       :: read_events (inputs o) w, Raise ExpressionError).
Proof.
  intros Hsel Hmerge Hread Hx Hbands Hp0 Hfirst Hshapes Hbs Hwin Hblock Hcrit.
  eapply run_raises_in_first_block; try done.
  eapply snuggs_eval_unbound; [done..|].
  eapply crit_of_None; [done|]. by apply crit_indices_None.
Qed.

(** C7. Every run that reaches the first block reads it from every input
    before the expression is evaluated, whatever the expression is; and an
    expression that calls a name which is neither an operator or function of
    snuggs nor an attribute of the numpy module makes the run raise
    [ExpressionError] at that point, with nothing written. *)
Theorem unknown_operator_fails_in_first_block (junk : A) (o : options)
    (lg : list (event A)) (e : string) (bands : gmap string Z) (p0 : string)
    (first : raster A) (R C : nat) (idx : nat * nat) (w : window)
    (ws : list (nat * nat * window)) (rd : list (event A)) (dat : list (stack A)) :
  select_expr (verbose o) (algo o) (expr o) = (lg, Ok e) →
  merge_user_bands (default_bands o) (band o) = Ok bands →
  inputs o !! 0%nat = Some p0 → fs !! p0 = Some first →
  length (remove_dups (block_shapes first)) = 1%nat →
  block_shapes first !! 0%nat = Some (R, C) →
  block_windows first = (idx, w) :: ws →
  read_block fs (inputs o) (count first) R C w
    (np_empty (length (inputs o)) (count first) R C junk) = (rd, Ok dat) →
  (∃ tr r,
     image_composite fs junk o
     = (prelude o lg e p0 ++ EvCreate (output o) (format o)
          :: read_events (inputs o) w ++ tr, r))
  ∧ ∀ (t : sexp) (f : string) (crit : gmap string (value A)),
      read_sexp e = Ok t → f ∈ calls t → ¬ known_call func_map f →
      crit_of (crit_indices bands e) dat = Ok crit →
      image_composite fs junk o
      = (prelude o lg e p0 ++ EvCreate (output o) (format o)
           :: read_events (inputs o) w, Raise ExpressionError).
Proof.
  intros Hsel Hmerge Hp0 Hfirst Hshapes Hbs Hwin Hblock. split.
  - enough (starts_with
              (lg ++ [EvLog Info ("Compositing criteria S-expression: " +:+ e)]
                 ++ [] ++ [] ++ [EvOpen p0] ++ [] ++ []
                 ++ [EvCreate (output o) (format o)] ++ rd ++ [])
              (image_composite fs junk o)) as (tr & r & Hrun).
    { exists tr, r. rewrite Hrun. f_equal.
      rewrite (read_block_events _ _ _ _ _ _ _ _ _ Hblock). unfold prelude.
      simpl. rewrite app_nil_r, <- !app_assoc. done. }
    unfold image_composite.
    eapply starts_with_bind_Ok; [exact Hsel|].
    eapply starts_with_bind_Ok; [reflexivity|].
    eapply starts_with_bind_Ok; [unfold lift; rewrite Hmerge; reflexivity|].
    cbv zeta.
    eapply starts_with_bind_Ok; [unfold lift; rewrite Hp0; reflexivity|].
    eapply starts_with_bind_Ok; [by apply rasterio_open_Some|].
    eapply starts_with_bind_Ok; [rewrite decide_True by done; reflexivity|].
    eapply starts_with_bind_Ok; [unfold lift; rewrite Hbs; reflexivity|].
    eapply starts_with_bind_Ok; [reflexivity|].
    unfold np_meshgrid_ij. rewrite Hwin. cbn [foldM].
    apply starts_with_bind, starts_with_bind. unfold composite_block.
    eapply starts_with_bind_Ok; [exact Hblock|]. apply starts_with_nil.
  - intros t f crit Hread Hf Hunknown Hcrit.
    eapply run_raises_in_first_block; try done.
    by eapply snuggs_eval_unknown_call.
Qed.
End run_errors.

(** *** Sample runs *)

(** C5 on a first input whose second band has another block shape: the run
    aborts after opening it. *)
Lemma first_input_block_shape_check_witness :
  image_composite (np:=numpy_sample)
    {[ "a"%string := uneven_blocks (one_pixel img_a); "b"%string := one_pixel img_b ]}
    0%Q (with_algo (default_options ["a"; "b"]%string) "maxNDVI")
  = (prelude (with_algo (default_options ["a"; "b"]%string) "maxNDVI") []
       "(max (/ (- nir red) (+ nir red)))" "a"
       ++ [EvEcho ("Cannot process input files - "
                   +:+ "All bands must have same block shapes")],
     Raise Abort).
Proof.
  eapply (first_input_block_shape_check (np:=numpy_sample)).
  - vm_compute. reflexivity.
  - vm_compute. reflexivity.
  - reflexivity.
  - vm_compute. reflexivity.
  - vm_compute. lia.
Defined.

(** C5, the other way round: the uneven block shapes are those of the second
    input, and the run completes. *)
Lemma other_input_block_shapes_unchecked :
  length (remove_dups (block_shapes (uneven_blocks (one_pixel img_b)))) ≠ 1%nat
  ∧ block_shapes (uneven_blocks (one_pixel img_b)) ≠ block_shapes (one_pixel img_a)
  ∧ image_composite (np:=numpy_sample)
      {[ "a"%string := one_pixel img_a; "b"%string := uneven_blocks (one_pixel img_b) ]}
      0%Q (with_algo (default_options ["a"; "b"]%string) "maxNDVI")
    = (two_image_run "(max (/ (- nir red) (+ nir red)))" img_b, Ok ()).
Proof.
  split; [vm_compute; lia|]. split; [vm_compute; discriminate|].
  vm_compute. reflexivity.
Qed.

(** C6 on the expression [(max foo)] with the default band map. *)
Lemma unknown_band_fails_in_first_block_witness :
  image_composite (np:=numpy_sample) (two_inputs img_a img_b) 0%Q
    (expr_options ["a"; "b"]%string "(max foo)")
  = (prelude (expr_options ["a"; "b"]%string "(max foo)") [] "(max foo)" "a"
       ++ EvCreate "composite.gtif" "GTiff"
       :: read_events ["a"; "b"]%string one_pixel_window,
     Raise ExpressionError).
Proof.
  eapply (unknown_band_fails_in_first_block (np:=numpy_sample) (two_inputs img_a img_b) 0%Q
            (expr_options ["a"; "b"]%string "(max foo)") [] "(max foo)"
            (SList [Atom "max"; Atom "foo"]) "foo"
            (default_bands (default_options [])) "a" (one_pixel img_a) 1 1
            (0, 0)%nat one_pixel_window []).
  - vm_compute. reflexivity.
  - vm_compute. reflexivity.
  - vm_compute. reflexivity.
  - vm_compute. constructor.
  - vm_compute. reflexivity.
  - reflexivity.
  - vm_compute. reflexivity.
  - vm_compute. reflexivity.
  - vm_compute. reflexivity.
  - vm_compute. reflexivity.
  - vm_compute. reflexivity.
  - vm_compute. reflexivity.
Defined.

(** C6, event by event: [foo] is no band, and both inputs have been read
    when the run raises. *)
Lemma unknown_band_read_before_failure :
  default_bands (expr_options ["a"; "b"]%string "(max foo)") !! "foo"%string = None
  ∧ image_composite (np:=numpy_sample) (two_inputs img_a img_b) 0%Q
      (expr_options ["a"; "b"]%string "(max foo)")
    = ([EvLog Info "Compositing criteria S-expression: (max foo)";
        EvOpen "a"; EvCreate "composite.gtif" "GTiff";
        EvOpen "a"; EvRead "a" one_pixel_window;
        EvOpen "b"; EvRead "b" one_pixel_window],
       Raise ExpressionError).
Proof. split; vm_compute; reflexivity. Qed.

(** C7 on the expression [(frobnicate nir)]: [frobnicate] is no function of
    snuggs and no attribute of numpy. *)
Lemma unknown_operator_fails_in_first_block_witness :
  image_composite (np:=numpy_sample) (two_inputs img_a img_b) 0%Q
    (expr_options ["a"; "b"]%string "(frobnicate nir)")
  = (prelude (expr_options ["a"; "b"]%string "(frobnicate nir)") []
       "(frobnicate nir)" "a"
       ++ EvCreate "composite.gtif" "GTiff"
       :: read_events ["a"; "b"]%string one_pixel_window,
     Raise ExpressionError).
Proof.
  eapply (proj2 (unknown_operator_fails_in_first_block (np:=numpy_sample)
            (two_inputs img_a img_b) 0%Q
            (expr_options ["a"; "b"]%string "(frobnicate nir)") []
            "(frobnicate nir)"
            (default_bands (default_options [])) "a" (one_pixel img_a) 1 1
            (0, 0)%nat one_pixel_window [] _ _
            ltac:(vm_compute; reflexivity) ltac:(vm_compute; reflexivity)
            ltac:(reflexivity) ltac:(vm_compute; reflexivity)
            ltac:(vm_compute; reflexivity) ltac:(vm_compute; reflexivity)
            ltac:(vm_compute; reflexivity) ltac:(vm_compute; reflexivity))
          (SList [Atom "frobnicate"; Atom "nir"]) "frobnicate").
  - vm_compute. reflexivity.
  - vm_compute. constructor.
  - intros [[f Hf]|[[f Hf]|[[f Hf]|Hf]]]; vm_compute in Hf; discriminate.
  - vm_compute. reflexivity.
Defined.

(** C7, event by event: [frobnicate] is in none of the tables and no
    attribute of numpy, and both inputs have been read when the run raises
    snuggs' [ExpressionError]. *)
Lemma unknown_operator_read_before_failure :
  ¬ known_call (A:=Q) (np:=numpy_sample) func_map "frobnicate"
  ∧ image_composite (np:=numpy_sample) (two_inputs img_a img_b) 0%Q
      (expr_options ["a"; "b"]%string "(frobnicate nir)")
    = ([EvLog Info "Compositing criteria S-expression: (frobnicate nir)";
        EvOpen "a"; EvCreate "composite.gtif" "GTiff";
        EvOpen "a"; EvRead "a" one_pixel_window;
        EvOpen "b"; EvRead "b" one_pixel_window],
       Raise ExpressionError).
Proof.
  split; [|vm_compute; reflexivity].
  intros [[f Hf]|[[f Hf]|[[f Hf]|Hf]]]; vm_compute in Hf; discriminate.
Qed.

(** A name that snuggs' tables do not hold but numpy provides is resolved to
    the numpy function: the run on [(mean nir)] reads the first block as
    every other run does and does not end in [ExpressionError]. *)
Lemma numpy_function_is_resolved :
  known_call (A:=Q) (np:=numpy_sample) func_map "mean"
  ∧ ∃ tr r,
      image_composite (np:=numpy_sample) (two_inputs img_a img_b) 0%Q
        (expr_options ["a"; "b"]%string "(mean nir)")
      = ([EvLog Info "Compositing criteria S-expression: (mean nir)";
          EvOpen "a"; EvCreate "composite.gtif" "GTiff";
          EvOpen "a"; EvRead "a" one_pixel_window;
          EvOpen "b"; EvRead "b" one_pixel_window] ++ tr, r)
      ∧ r ≠ Raise ExpressionError.
Proof.
  split; [right; right; right; reflexivity|].
  eexists [], _. split; [vm_compute; reflexivity|discriminate].
Qed.

(** C1 on the one block of the two sample images under maxNDVI. *)
Lemma composite_block_single_winner_witness :
  ∃ tr dat,
    composite_block (np:=numpy_sample) (two_inputs img_a img_b)
      (with_algo (default_options ["a"; "b"]%string) "maxNDVI")
      "(max (/ (- nir red) (+ nir red)))" {[ "nir"%string := 3; "red"%string := 2 ]}
      6 1 1 (np_meshgrid_ij 1 1).1 (np_meshgrid_ij 1 1).2
      (np_empty 2 6 1 1 0%Q) one_pixel_window = (tr, Ok dat)
    ∧ ∃ rd crit m planes,
        read_block (two_inputs img_a img_b) ["a"; "b"]%string 6 1 1
          one_pixel_window (np_empty 2 6 1 1 0%Q) = (rd, Ok dat)
        ∧ crit_of {[ "nir"%string := 3; "red"%string := 2 ]} dat = Ok crit
        ∧ snuggs_eval (np:=numpy_sample) func_map crit "(max (/ (- nir red) (+ nir red)))"
          = Ok (VIndex m)
        ∧ shape2 1 1 m
        ∧ length planes = 6%nat
        ∧ tr = rd ++ zip_with (λ b p, EvWrite "composite.gtif" (b + 1) one_pixel_window p)
                       (seq 0 6) planes
        ∧ ∀ r c, (r < 1)%nat → (c < 1)%nat →
            ∃ i img, at2 m r c = Some i ∧ np_index dat i = Ok img
              ∧ ∀ b, (b < 6)%nat →
                  ∃ p v, planes !! b = Some p ∧ at2 p r c = Some v
                       ∧ at3 img b r c = Some v.
Proof.
  eexists _, _. split; [vm_compute; reflexivity|].
  apply (proj1 (composite_block_single_winner (np:=numpy_sample) (two_inputs img_a img_b))
           (with_algo (default_options ["a"; "b"]%string) "maxNDVI")).
  vm_compute. reflexivity.
Defined.

(** * Further properties of the script *)

(** ** Binds and loops of the trace monad *)

Lemma or_raise_Ok {X} (e : error) (o : option X) (x : X) :
  or_raise e o = Ok x ↔ o = Some x.
Proof. destruct o; simpl; split; congruence. Qed.

Section trace_monad.
Context {A : Type} `{Scalar A} {np : numpy_module}.

Lemma io_bind_assoc {X Y Z} (m : io A X) (f : X → io A Y) (g : Y → io A Z) :
  (m ≫= f) ≫= g = m ≫= (λ x, f x ≫= g).
Proof.
  destruct m as [t1 [x|e|]]; unfold mbind, io_mbind, io_bind; simpl; [|done..].
  destruct (f x) as [t2 [y|e|]]; simpl; [|done..].
  by rewrite app_assoc.
Qed.

Lemma io_bind_ext {X Y} (m : io A X) (f g : X → io A Y) :
  (∀ x, f x = g x) → m ≫= f = m ≫= g.
Proof.
  intros Hfg. destruct m as [t [x|e|]]; unfold mbind, io_mbind, io_bind; simpl;
    [by rewrite Hfg|done..].
Qed.

Lemma io_ret_bind {X Y} (x : X) (f : X → io A Y) : mret x ≫= f = f x.
Proof.
  unfold mbind, io_mbind, io_bind, mret, io_mret, io_ret. simpl. by destruct (f x).
Qed.

Lemma lift_bind_Ok {X Y} (m : outcome X) (x : X) (f : X → io A Y) :
  m = Ok x → lift m ≫= f = f x.
Proof.
  intros ->. unfold mbind, io_mbind, io_bind, lift. simpl. by destruct (f x).
Qed.

Lemma lift_bind_raise {X Y} (m : outcome X) (e : error) (f : X → io A Y) :
  m = Raise e → lift m ≫= f = ([], Raise e).
Proof. by intros ->. Qed.

(** A bind raises when its first part raises, or when that returns and the
    rest raises. *)
Lemma io_bind_raises_inv {X Y} (m : io A X) (f : X → io A Y) (e : error) :
  (m ≫= f).2 = Raise e → m.2 = Raise e ∨ ∃ x, m.2 = Ok x ∧ (f x).2 = Raise e.
Proof.
  destruct m as [t [x|e'|]]; unfold mbind, io_mbind, io_bind; simpl.
  - intros Hf. right. by exists x.
  - intros [= ->]. by left.
  - done.
Qed.

Lemma foldM_raises_inv {S X} (f : S → X → io A S) (l : list X) (s : S) (err : error) :
  (foldM f s l).2 = Raise err → ∃ s' x, x ∈ l ∧ (f s' x).2 = Raise err.
Proof.
  revert s. induction l as [|x l IH]; intros s; [done|]. cbn [foldM]. intros Hr.
  apply io_bind_raises_inv in Hr as [Hr|(s' & _ & Hr)].
  - exists s, x. split; [apply list_elem_of_here|done].
  - destruct (IH _ Hr) as (s'' & y & Hy & Hr'). exists s'', y.
    split; [by apply list_elem_of_further|done].
Qed.
End trace_monad.

(** ** The band options (lines 42-48 and 65-76) *)

(** The callback returns exactly the integers that are at least 1, and
    raises [BadParameter] otherwise. *)
Lemma _valid_band_Ok (v : pyval) (z : Z) :
  _valid_band v = Ok z ↔ py_int_of v = Some z ∧ 1 ≤ z.
Proof.
  unfold _valid_band. destruct (py_int_of v) as [b|]; [|by split; [|intros []]].
  destruct (1 <=? b) eqn:Hb.
  - apply Z.leb_le in Hb. split; [intros [= <-]; done|intros [[= <-] _]; done].
  - apply Z.leb_gt in Hb. split; [done|]. intros [[= <-] ?]. lia.
Qed.

Lemma _valid_band_cases (v : pyval) :
  (∃ z, _valid_band v = Ok z) ∨ _valid_band v = Raise BadParameter.
Proof.
  unfold _valid_band. destruct (py_int_of v) as [b|]; [|by right].
  destruct (1 <=? b); [left; by eexists|by right].
Qed.

Section cli.
Context {A : Type} `{Scalar A} {np : numpy_module}.
Variable fs : gmap string (raster A).

(** X1. The command as click calls it.  When the callback accepts the six
    band options, the command runs on the integers it returned; when one of
    the six is not an integer, or is an integer below 1, the command raises
    [BadParameter] before anything is logged or any file is touched. *)
Theorem cli_band_options_validated (junk : A) (o : options)
    (b g r n s1 s2 : pyval) :
  (∀ zb zg zr zn z1 z2,
     _valid_band b = Ok zb → _valid_band g = Ok zg → _valid_band r = Ok zr →
     _valid_band n = Ok zn → _valid_band s1 = Ok z1 → _valid_band s2 = Ok z2 →
     image_composite_cli fs junk [b; g; r; n; s1; s2] o
     = image_composite fs junk
         (Options (inputs o) (algo o) (expr o) (output o) (format o)
            zb zg zr zn z1 z2 (band o) (verbose o)))
  ∧ (Exists (λ v, ∀ z, py_int_of v = Some z → z < 1) [b; g; r; n; s1; s2] →
     image_composite_cli fs junk [b; g; r; n; s1; s2] o = ([], Raise BadParameter)).
Proof.
  split.
  - intros zb zg zr zn z1 z2 Hb Hg Hr Hn H1 H2. unfold image_composite_cli.
    by rewrite (lift_bind_Ok _ _ _ Hb), (lift_bind_Ok _ _ _ Hg),
      (lift_bind_Ok _ _ _ Hr), (lift_bind_Ok _ _ _ Hn),
      (lift_bind_Ok _ _ _ H1), (lift_bind_Ok _ _ _ H2).
  - intros Hbad. unfold image_composite_cli.
    assert (∀ v, (∀ z, py_int_of v = Some z → z < 1) → _valid_band v = Raise BadParameter)
      as Hrej.
    { intros v Hv. destruct (_valid_band_cases v) as [[z Hz]|Hz]; [|done].
      apply _valid_band_Ok in Hz as [Hz Hpos]. specialize (Hv z Hz). lia. }
    repeat match goal with
    | |- lift (_valid_band ?v) ≫= _ = _ =>
        let Hok := fresh "Hok" in
        let Hno := fresh "Hno" in
        destruct (_valid_band_cases v) as [[? Hok]|Hno];
          [rewrite (lift_bind_Ok _ _ _ Hok); cbv beta
          |by rewrite (lift_bind_raise _ _ _ Hno)]
    end.
    exfalso. repeat (apply Exists_cons in Hbad as [Hbad|Hbad];
      [apply Hrej in Hbad; congruence|]). by apply Exists_nil in Hbad.
Qed.
End cli.

(** ** The band map after the [--band] loop (lines 128-138) *)

(** The loop raises nothing but [BadParameter]. *)
Lemma merge_user_bands_error (_bands : gmap string Z) (band : list (string * string))
    (err : error) :
  merge_user_bands _bands band = Raise err → err = BadParameter.
Proof.
  revert _bands. induction band as [|[k v] band IH]; intros _bands; [done|].
  cbn [merge_user_bands]. destruct (py_int v); [apply IH|by intros [= <-]].
Qed.

(** The loop removes no name from the band map. *)
Lemma merge_user_bands_keeps (_bands m : gmap string Z) (band : list (string * string))
    (k : string) :
  merge_user_bands _bands band = Ok m → is_Some (_bands !! k) → is_Some (m !! k).
Proof.
  revert _bands. induction band as [|[k' v] band IH]; intros _bands Hm Hk.
  - by injection Hm as <-.
  - cbn [merge_user_bands] in Hm. destruct (py_int v) as [i|]; [|done].
    apply (IH _ Hm). destruct (decide (k' = k)) as [->|Hne].
    + rewrite lookup_insert_eq. by eexists.
    + by rewrite lookup_insert_ne.
Qed.

(** X2. After the [--band] loop has returned, every supplied name is mapped
    to the integer its text denotes, and every other name has the number it
    had before: the six defaults stay unless a pair overrides them.  (The
    names of the pairs are distinct, as the keys of a dictionary are.) *)
Theorem merge_user_bands_lookup (_bands m : gmap string Z)
    (band : list (string * string)) :
  merge_user_bands _bands band = Ok m → NoDup band.*1 →
  (∀ k v, (k, v) ∈ band → ∃ i, py_int v = Some i ∧ m !! k = Some i)
  ∧ (∀ k, k ∉ band.*1 → m !! k = _bands !! k).
Proof.
  revert _bands. induction band as [|[k0 v0] band IH]; intros _bands Hm Hnd.
  - injection Hm as <-. split; [|done]. intros k v Hkv. by apply elem_of_nil in Hkv.
  - simpl in Hm. destruct (py_int v0) as [i0|] eqn:Hv0; [|done].
    apply NoDup_cons in Hnd as [Hk0 Hnd]. simpl in Hk0.
    destruct (IH _ Hm Hnd) as [Hin Hout]. split.
    + intros k v Hkv. apply elem_of_cons in Hkv as [[= -> ->]|Hkv]; [|by apply Hin].
      exists i0. split; [done|]. rewrite (Hout k0 Hk0). apply lookup_insert_eq.
    + intros k Hk. simpl in Hk. apply not_elem_of_cons in Hk as [Hne Hk].
      rewrite (Hout k Hk). by apply lookup_insert_ne.
Qed.

(** ** The names of an expression occur in its text (line 141) *)

Lemma occurs_in_cons s c l : occurs_in s l → occurs_in s (c :: l).
Proof. intros (pre & suf & ->). by exists (c :: pre), suf. Qed.

Lemma occurs_in_app s l1 l2 : occurs_in s l2 → occurs_in s (l1 ++ l2).
Proof.
  intros (pre & suf & ->). exists (l1 ++ pre), suf. by rewrite <- app_assoc.
Qed.

Lemma flush_atom (cur : list ascii) (s : string) (rest : list ascii) :
  TAtom s ∈ flush cur → occurs_in s (rev cur ++ rest).
Proof.
  unfold flush. destruct cur as [|c cur]; [intros Hs; by apply elem_of_nil in Hs|].
  intros Hs. apply list_elem_of_singleton in Hs. injection Hs as ->.
  exists [], rest. by rewrite list_ascii_of_string_of_list_ascii.
Qed.

(** Every atom the reader cuts out of the source is a piece of it. *)
Lemma lex_atoms (cs cur : list ascii) (w : bool) (toks : list token) (s : string) :
  lex cur w cs = Ok toks → TAtom s ∈ toks → occurs_in s (rev cur ++ cs).
Proof.
  revert cur w toks. induction cs as [|c t IH]; intros cur w toks Hlex Hs.
  - injection Hlex as <-. by apply flush_atom.
  - cbn [lex] in Hlex. destruct (is_quote c); [done|].
    assert (rev cur ++ c :: t = (rev cur ++ [c]) ++ t) as Hsplit
      by by rewrite <- app_assoc.
    assert (∀ toks', lex [] false t = Ok toks' → TAtom s ∈ toks' →
              occurs_in s (rev cur ++ c :: t)) as Hfresh.
    { intros toks' Hlex' Hs'. apply occurs_in_app, occurs_in_cons.
      exact (IH [] false toks' Hlex' Hs'). }
    destruct (is_space c).
    { apply fmap_Ok in Hlex as (toks' & Hlex' & ->).
      apply elem_of_app in Hs as [Hs|Hs]; [by apply flush_atom|eauto]. }
    destruct (Ascii.eqb c "(").
    { apply fmap_Ok in Hlex as (toks' & Hlex' & ->).
      apply elem_of_app in Hs as [Hs|Hs]; [by apply flush_atom|].
      apply elem_of_cons in Hs as [Hs|Hs]; [done|eauto]. }
    destruct (Ascii.eqb c ")").
    { apply fmap_Ok in Hlex as (toks' & Hlex' & ->).
      apply elem_of_app in Hs as [Hs|Hs]; [by apply flush_atom|].
      apply elem_of_cons in Hs as [Hs|Hs]; [done|eauto]. }
    cbv zeta in Hlex. destruct cur as [|c0 cur].
    { exact (IH [c] _ toks Hlex Hs). }
    destruct (Bool.eqb w (is_word c)).
    { rewrite Hsplit. exact (IH (c :: c0 :: cur) w toks Hlex Hs). }
    apply fmap_Ok in Hlex as (toks' & Hlex' & ->).
    apply elem_of_app in Hs as [Hs|Hs]; [by apply flush_atom|].
    apply occurs_in_app. exact (IH [c] _ toks' Hlex' Hs).
Qed.

Lemma atoms_snoc (l : list sexp) (e : sexp) (s : string) :
  s ∈ concat (map all_atoms (l ++ [e])) ↔ s ∈ concat (map all_atoms l) ∨ s ∈ all_atoms e.
Proof.
  rewrite map_app, concat_app, elem_of_app. simpl. by rewrite app_nil_r.
Qed.

Lemma atoms_rev (l : list sexp) (s : string) :
  s ∈ concat (map all_atoms (rev l)) ↔ s ∈ concat (map all_atoms l).
Proof.
  induction l as [|e l IH]; [done|]. simpl rev. rewrite atoms_snoc, IH. simpl.
  rewrite elem_of_app. tauto.
Qed.

(** Every atom of the expression the parser returns is a token, or was in a
    list that was open already. *)
Lemma parse_atoms (toks : list token) (open : list (list sexp)) (e : sexp) (s : string) :
  parse open toks = Ok e → s ∈ all_atoms e →
  TAtom s ∈ toks ∨ s ∈ open_atoms open.
Proof.
  revert open. induction toks as [|tok toks IH]; intros open Hparse Hs; [done|].
  destruct tok as [| |a]; cbn [parse] in Hparse.
  - destruct (IH _ Hparse Hs) as [Hin|Hin];
      [left; by apply list_elem_of_further|right; exact Hin].
  - destruct open as [|cur [|parent rest]]; [done|..].
    + injection Hparse as <-. right. cbn [all_atoms] in Hs.
      apply (proj1 (atoms_rev _ _)) in Hs. unfold open_atoms. cbn [map concat].
      apply elem_of_app. by left.
    + destruct (IH _ Hparse Hs) as [Hin|Hin]; [left; by apply list_elem_of_further|].
      right. unfold open_atoms in *. simpl in *.
      rewrite !elem_of_app in Hin. rewrite !elem_of_app.
      destruct Hin as [[Hin|Hin]|Hin]; [|tauto..].
      left. by apply atoms_rev.
  - destruct open as [|cur rest]; [done|].
    destruct (IH _ Hparse Hs) as [Hin|Hin]; [left; by apply list_elem_of_further|].
    unfold open_atoms in *. simpl in *.
    apply elem_of_cons in Hin as [->|Hin]; [left; apply list_elem_of_here|by right].
Qed.

Lemma free_names_atoms (e : sexp) (s : string) : s ∈ free_names e → s ∈ all_atoms e.
Proof.
  induction e as [a|l IH] using sexp_list_ind.
  - simpl. destruct (is_name a && negb (String.eqb a "nil")); [done|].
    intros Hs. by apply elem_of_nil in Hs.
  - destruct l as [|h args]; [intros Hs; by apply elem_of_nil in Hs|].
    cbn [free_names all_atoms map concat].
    intros Hs. apply elem_of_app. right.
    apply Forall_cons in IH as [_ IH].
    apply elem_of_concat in Hs as (names & Hs & Hnames).
    apply list_elem_of_fmap in Hnames as (arg & -> & Harg).
    apply elem_of_concat. exists (all_atoms arg). split.
    + by apply (proj1 (Forall_forall _ _) IH arg Harg).
    + apply list_elem_of_fmap. eauto.
Qed.

(** A name the reader finds in an expression is part of its text. *)
Lemma read_sexp_names_in_text (source : string) (e : sexp) (x : string) :
  read_sexp source = Ok e → x ∈ free_names e → py_in x source = true.
Proof.
  unfold read_sexp. intros Hread Hx.
  apply bind_Ok in Hread as (toks & Hlex & Hparse).
  destruct (parse_atoms toks [] e x Hparse (free_names_atoms e x Hx)) as [Hin|Hin].
  - unfold py_in. apply contains_spec. exact (lex_atoms _ [] false toks x Hlex Hin).
  - by apply elem_of_nil in Hin.
Qed.

(** X3. The substring test of line 141 loses no band the criterion needs:
    every band name that the expression uses as an operand and that the band
    map knows is selected, with its number made 0-based. *)
Theorem needed_bands_are_selected (_bands : gmap string Z) (expr : string)
    (e : sexp) (x : string) (i : Z) :
  read_sexp expr = Ok e → x ∈ free_names e → _bands !! x = Some i →
  crit_indices _bands expr !! x = Some (i - 1).
Proof.
  intros Hread Hx Hi. apply crit_indices_lookup. exists i.
  split; [done|]. split; [done|]. by eapply read_sexp_names_in_text.
Qed.

(** ** The band slices of the criterion (line 178) *)

Lemma np_index_Ok_or_IndexError {X} (a : list X) (i : Z) :
  (∃ x, np_index a i = Ok x) ∨ np_index a i = Raise IndexError.
Proof.
  unfold np_index.
  destruct ((0 <=? i) && (i <? Z.of_nat (length a))).
  { destruct (a !! Z.to_nat i); [left; by eexists|by right]. }
  destruct ((- Z.of_nat (length a) <=? i) && (i <? 0)); [|by right].
  destruct (a !! Z.to_nat (Z.of_nat (length a) + i)); [left; by eexists|by right].
Qed.

(** An index outside [-n, n) raises. *)
Lemma np_index_out_of_range {X} (a : list X) (i : Z) :
  i < - Z.of_nat (length a) ∨ Z.of_nat (length a) ≤ i →
  np_index a i = Raise IndexError.
Proof.
  intros Hi. unfold np_index.
  assert ((0 <=? i) && (i <? Z.of_nat (length a)) = false) as ->.
  { apply andb_false_iff. destruct Hi; [left; apply Z.leb_gt|right; apply Z.ltb_ge]; lia. }
  assert ((- Z.of_nat (length a) <=? i) && (i <? 0) = false) as ->; [|done].
  apply andb_false_iff. destruct Hi; [left; apply Z.leb_gt|right; apply Z.ltb_ge]; lia.
Qed.

Lemma np_index_elem {X} (a : list X) (i : Z) (y : X) : np_index a i = Ok y → y ∈ a.
Proof.
  unfold np_index. intros Hy.
  repeat match type of Hy with
  | (if ?b then _ else _) = _ => destruct b
  end; try done; apply or_raise_Ok in Hy; by eapply list_elem_of_lookup_2.
Qed.

Section slices.
Context {A : Type} `{Scalar A} {np : numpy_module}.

Lemma band_slice_Ok_or_IndexError (dat : list (stack A)) (v : Z) :
  (∃ a, band_slice dat v = Ok a) ∨ band_slice dat v = Raise IndexError.
Proof.
  apply mapM_Ok_or_raise. apply Forall_forall. intros img _.
  apply np_index_Ok_or_IndexError.
Qed.

Lemma crit_of_Ok_or_IndexError (ci : gmap string Z) (dat : list (stack A)) :
  (∃ crit, crit_of ci dat = Ok crit) ∨ crit_of ci dat = Raise IndexError.
Proof.
  unfold crit_of.
  destruct (mapM_Ok_or_raise
              (λ '(k, v), a ← band_slice dat v; Ok (k, VStack a))
              IndexError (map_to_list ci)) as [[kvs ->]| ->].
  - apply Forall_forall. intros [k v] _.
    destruct (band_slice_Ok_or_IndexError dat v) as [[a ->]| ->];
      [left; by eexists|by right].
  - left. by eexists.
  - by right.
Qed.

(** When the slices can be taken, the context binds every name of [ci] to
    the slice of its band. *)
Lemma crit_of_lookup (ci : gmap string Z) (dat : list (stack A))
    (crit : gmap string (value A)) (k : string) (v : Z) :
  crit_of ci dat = Ok crit → ci !! k = Some v →
  ∃ a, crit !! k = Some (VStack a) ∧ band_slice dat v = Ok a.
Proof.
  unfold crit_of. intros Hcrit Hk.
  apply bind_Ok in Hcrit as (kvs & Hkvs & [= <-]).
  apply mapM_Ok_Forall2 in Hkvs.
  assert (kvs.*1 = (map_to_list ci).*1) as Hkeys.
  { clear Hk. revert Hkvs. generalize (map_to_list ci) as l0. intros l0 Hkvs.
    induction Hkvs as [|[k0 v0] kv' l l' Hf _ IH]; [done|].
    apply bind_Ok in Hf as (a & _ & [= <-]). rewrite !fmap_cons. by f_equal. }
  apply elem_of_map_to_list, list_elem_of_lookup in Hk as [j Hj].
  destruct (Forall2_lookup_l _ _ _ _ _ Hkvs Hj) as (kv' & Hj' & Hf).
  apply bind_Ok in Hf as (a & Ha & [= <-]).
  exists a. split; [|done]. apply elem_of_list_to_map_1.
  - rewrite Hkeys. apply NoDup_fst_map_to_list.
  - by apply list_elem_of_lookup_2 in Hj'.
Qed.

(** X4. What the criterion sees under a band name: when the slices of line
    178 can be taken, a name of the band map that occurs in the expression,
    with a band number [i] of at least 1, is bound to an array with one
    entry per input image, in input order, and the entry of an image is its
    band number [i], counted from 1 as rasterio counts bands. *)
Theorem criterion_sees_numbered_bands (_bands : gmap string Z) (expr : string)
    (dat : list (stack A)) (crit : gmap string (value A)) (k : string) (i : Z) :
  crit_of (crit_indices _bands expr) dat = Ok crit →
  _bands !! k = Some i → 1 ≤ i → py_in k expr = true →
  ∃ a, crit !! k = Some (VStack a) ∧ length a = length dat
     ∧ ∀ j img, dat !! j = Some img →
         ∃ x, img !! (Z.to_nat i - 1)%nat = Some x ∧ a !! j = Some x.
Proof.
  intros Hcrit Hk Hi Hin.
  assert (crit_indices _bands expr !! k = Some (i - 1)) as Hci.
  { apply crit_indices_lookup. eauto. }
  destruct (crit_of_lookup _ _ _ _ _ Hcrit Hci) as (a & Ha & Hslice).
  apply mapM_Ok_Forall2 in Hslice.
  exists a. split; [done|]. split. { symmetry. by eapply Forall2_length. }
  intros j img Hj.
  destruct (Forall2_lookup_l _ _ _ _ _ Hslice Hj) as (x & Hx & Hidx).
  exists x. split; [|done].
  replace (i - 1) with (Z.of_nat (Z.to_nat i - 1)) in Hidx by lia.
  by apply np_index_nonneg in Hidx.
Qed.

(** A band index outside the bands of the first image of the buffer makes
    line 178 raise [IndexError]. *)
Lemma crit_of_out_of_range (ci : gmap string Z) (dat : list (stack A))
    (img : stack A) (k : string) (v : Z) :
  dat !! 0%nat = Some img → ci !! k = Some v →
  v < - Z.of_nat (length img) ∨ Z.of_nat (length img) ≤ v →
  crit_of ci dat = Raise IndexError.
Proof.
  intros Himg Hk Hv.
  destruct (crit_of_Ok_or_IndexError ci dat) as [[crit Hcrit]|Hraise]; [|done].
  destruct (crit_of_lookup _ _ _ _ _ Hcrit Hk) as (a & _ & Hslice).
  apply mapM_Ok_Forall2 in Hslice.
  destruct (Forall2_lookup_l _ _ _ _ _ Hslice Himg) as (x & _ & Hidx).
  by rewrite (np_index_out_of_range img v Hv) in Hidx.
Qed.
End slices.

(** ** The buffer between blocks (lines 166-175) *)

Lemma bcast_len_length {X} (n : nat) (l r : list X) :
  bcast_len n l = Ok r → length r = n.
Proof.
  unfold bcast_len. destruct (length l =? n)%nat eqn:Hn.
  - intros [= <-]. by apply Nat.eqb_eq.
  - destruct l as [|x [|y l]]; [done| |done]. intros [= <-]. apply length_replicate.
Qed.

Lemma bcast_len_same {X} (n : nat) (l : list X) : length l = n → bcast_len n l = Ok l.
Proof.
  intros Hn. unfold bcast_len. by rewrite (proj2 (Nat.eqb_eq _ _) Hn).
Qed.

Lemma bcast_len_Ok_or_ValueError {X} (n : nat) (l : list X) :
  (∃ r, bcast_len n l = Ok r ∧ (length l = n ∨ length l = 1%nat))
  ∨ bcast_len n l = Raise ValueError.
Proof.
  unfold bcast_len. destruct (length l =? n)%nat eqn:Hn.
  - left. exists l. split; [done|]. left. by apply Nat.eqb_eq.
  - destruct l as [|x [|y l]]; [by right| |by right].
    left. eexists. split; [done|]. by right.
Qed.

Lemma mapM_same {X} (f : X → outcome X) (l : list X) :
  Forall (λ x, f x = Ok x) l → mapM f l = Ok l.
Proof.
  induction 1 as [|x l Hx _ IH]; [done|].
  cbn [mapM]. rewrite Hx. cbn. rewrite IH. done.
Qed.

Lemma mapM_Ok_or_ValueError {X Y} (f : X → outcome Y) (P : X → Prop) (l : list X) :
  (∀ x, (∃ y, f x = Ok y ∧ P x) ∨ f x = Raise ValueError) →
  (∃ r, mapM f l = Ok r ∧ Forall P l) ∨ mapM f l = Raise ValueError.
Proof.
  intros Hf. induction l as [|x l IH]; [left; by exists []|].
  cbn [mapM]. destruct (Hf x) as [(y & -> & HP)| ->]; [|by right].
  destruct IH as [(r & -> & Hl)| ->]; [|by right].
  left. exists (y :: r). split; [done|]. by constructor.
Qed.

(** A block of the buffer's block shape is stored as it is. *)
Lemma broadcast_to3_same {X} (count R C : nat) (x : stack X) :
  shape3 count R C x → broadcast_to3 count R C x = Ok x.
Proof.
  intros [Hn Hx]. unfold broadcast_to3.
  rewrite (mapM_same (mapM (bcast_len C)) x).
  - cbn. rewrite (mapM_same (bcast_len R) x).
    + cbn. by apply bcast_len_same.
    + eapply Forall_impl; [exact Hx|]. intros p [Hp _]. by apply bcast_len_same.
  - eapply Forall_impl; [exact Hx|]. intros p [_ Hp]. apply mapM_same.
    eapply Forall_impl; [exact Hp|]. intros row Hrow. by apply bcast_len_same.
Qed.

(** Line 175 stores a block only when every axis has the buffer's length or
    length 1; any other block raises [ValueError]. *)
Lemma broadcast_to3_Ok_or_ValueError {X} (count R C : nat) (x : stack X) :
  (∃ x', broadcast_to3 count R C x = Ok x'
     ∧ Forall (λ p, (length p = R ∨ length p = 1%nat)
                    ∧ Forall (λ row, length row = C ∨ length row = 1%nat) p) x)
  ∨ broadcast_to3 count R C x = Raise ValueError.
Proof.
  unfold broadcast_to3.
  destruct (mapM_Ok_or_ValueError (mapM (bcast_len C))
              (Forall (λ row : list X, length row = C ∨ length row = 1%nat)) x)
    as [(x1 & Hx1 & Hcols)|Hx1].
  { intros p. apply mapM_Ok_or_ValueError. intros row. apply bcast_len_Ok_or_ValueError. }
  2: { right. by rewrite Hx1. }
  rewrite Hx1. cbn.
  destruct (mapM_Ok_or_ValueError (bcast_len R)
              (λ p : plane X, length p = R ∨ length p = 1%nat) x1)
    as [(x2 & Hx2 & Hrows)|Hx2].
  { intros p. apply bcast_len_Ok_or_ValueError. }
  2: { right. by rewrite Hx2. }
  rewrite Hx2. cbn.
  destruct (bcast_len_Ok_or_ValueError count x2) as [(x3 & Hx3 & _)|Hx3]; [|by right].
  left. exists x3. split; [done|].
  apply mapM_Ok_Forall2 in Hx1.
  apply Forall_forall. intros p Hp.
  split; [|by apply (proj1 (Forall_forall _ _) Hcols)].
  apply list_elem_of_lookup in Hp as [i Hp].
  destruct (Forall2_lookup_l _ _ _ _ _ Hx1 Hp) as (p1 & Hp1 & Hpp1).
  apply mapM_Ok_Forall2, Forall2_length in Hpp1. rewrite Hpp1.
  eapply (proj1 (Forall_forall _ _) Hrows), list_elem_of_lookup_2, Hp1.
Qed.

Section buffer.
Context {A : Type} `{Scalar A} {np : numpy_module}.
Variable fs : gmap string (raster A).

Lemma read_block_unfold (inputs : list string) (count R C : nat) (w : window)
    (dat : list (stack A)) :
  read_block fs inputs count R C w dat
  = foldM (read_step fs count R C w) dat (zip (seq 0 (length inputs)) inputs).
Proof.
  reflexivity.
Qed.

Lemma read_step_fetch (count R C : nat) (w : window) (dat : list (stack A))
    (j : nat) (fname : string) :
  read_step fs count R C w dat (j, fname)
  = (x' ← fetch fs count R C w fname; mret (<[j := x']> dat)).
Proof.
  unfold read_step, fetch. rewrite io_bind_assoc.
  apply io_bind_ext. intros src. by rewrite io_bind_assoc.
Qed.

(** Two buffers of one length that agree below [k] are equal after the
    inputs from position [k] on have been stored, when these are all the
    positions that were left. *)
Lemma read_from_agree (count R C : nat) (w : window) (inputs : list string)
    (k : nat) (dat dat' : list (stack A)) :
  length dat = length dat' → length dat = (k + length inputs)%nat →
  (∀ i, (i < k)%nat → dat !! i = dat' !! i) →
  foldM (read_step fs count R C w) dat (zip (seq k (length inputs)) inputs)
  = foldM (read_step fs count R C w) dat' (zip (seq k (length inputs)) inputs).
Proof.
  revert k dat dat'. induction inputs as [|p inputs IH]; intros k dat dat' Hlen Hk Hagree.
  - simpl. f_equal. f_equal. apply list_eq. intros i.
    destruct (decide (i < k)%nat) as [Hi|Hi]; [by apply Hagree|].
    simpl in Hk. rewrite !lookup_ge_None_2 by lia. done.
  - cbn [length seq zip zip_with foldM]. rewrite !read_step_fetch, !io_bind_assoc.
    apply io_bind_ext. intros x'. rewrite !io_ret_bind.
    apply (IH (S k) (<[k:=x']> dat) (<[k:=x']> dat')).
    + by rewrite !length_insert.
    + rewrite length_insert. simpl in Hk. lia.
    + intros i Hi. destruct (decide (i = k)) as [->|Hne].
      * rewrite !list_lookup_insert_eq; [done|simpl in Hk; lia..].
      * rewrite !list_lookup_insert_ne by done. apply Hagree. lia.
Qed.

(** After a block was read, the buffer holds nothing of what it held before. *)
Lemma read_block_forgets (inputs : list string) (count R C : nat) (w : window)
    (dat dat' : list (stack A)) :
  length dat = length inputs → length dat' = length inputs →
  read_block fs inputs count R C w dat = read_block fs inputs count R C w dat'.
Proof.
  intros Hl Hl'. rewrite !read_block_unfold.
  apply read_from_agree; [congruence|lia|]. intros i Hi. lia.
Qed.

Lemma composite_block_forgets (o : options) (expr : string) (ci : gmap string Z)
    (count R C : nat) (mi mj : plane Z) (w : window) (dat dat' : list (stack A)) :
  length dat = length (inputs o) → length dat' = length (inputs o) →
  composite_block fs o expr ci count R C mi mj dat w
  = composite_block fs o expr ci count R C mi mj dat' w.
Proof.
  intros Hl Hl'. unfold composite_block.
  by rewrite (read_block_forgets _ _ _ _ _ dat dat' Hl Hl').
Qed.

(** X5. The buffer of line 166 is allocated without being initialised.  What
    it holds at that point is never observed: two runs that differ only in
    the initial content of the buffer leave the same events, with the same
    data in every write, and end in the same way. *)
Theorem uninitialised_buffer_never_observed (junk junk' : A) (o : options) :
  image_composite fs junk o = image_composite fs junk' o.
Proof.
  unfold image_composite.
  apply io_bind_ext. intros e. apply io_bind_ext. intros [].
  apply io_bind_ext. intros bands. cbv zeta.
  apply io_bind_ext. intros p0. apply io_bind_ext. intros first.
  apply io_bind_ext. intros []. apply io_bind_ext. intros [R C].
  apply io_bind_ext. intros []. unfold np_meshgrid_ij.
  destruct (block_windows first) as [|[idx w] ws].
  - cbn [foldM]. by rewrite !io_ret_bind.
  - cbn [foldM]. f_equal. f_equal. apply composite_block_forgets.
    + unfold np_empty. apply length_replicate.
    + unfold np_empty. apply length_replicate.
Qed.

Lemma fetch_length (count R C : nat) (w : window) (p : string)
    (t : list (event A)) (x' : stack A) :
  fetch fs count R C w p = (t, Ok x') → length x' = count.
Proof.
  unfold fetch. intros Hf.
  apply io_bind_Ok in Hf as (src & t1 & t2 & _ & Hf & _).
  apply io_bind_Ok in Hf as (x & t3 & t4 & _ & Hf & _).
  apply lift_Ok in Hf as [Hf _]. unfold broadcast_to3 in Hf.
  apply bind_Ok in Hf as (x1 & _ & Hf). apply bind_Ok in Hf as (x2 & _ & Hf).
  by apply bcast_len_length in Hf.
Qed.

(** Storing the inputs from position [k] on leaves the positions below [k]
    alone and puts, at every later position, a block with [count] bands. *)
Lemma read_from_slots (count R C : nat) (w : window) (inputs : list string)
    (k : nat) (dat dat' : list (stack A)) (rd : list (event A)) :
  foldM (read_step fs count R C w) dat (zip (seq k (length inputs)) inputs)
    = (rd, Ok dat') →
  (k + length inputs ≤ length dat)%nat →
  length dat' = length dat
  ∧ (∀ j, (j < k)%nat → dat' !! j = dat !! j)
  ∧ (∀ j, (k ≤ j < k + length inputs)%nat →
       ∃ x', dat' !! j = Some x' ∧ length x' = count).
Proof.
  revert k dat rd. induction inputs as [|p inputs IH]; intros k dat rd Hrun Hlen.
  - cbn in Hrun. injection Hrun as <- <-. split; [done|]. split; [done|].
    intros j Hj. simpl in Hj. lia.
  - cbn [length seq zip zip_with foldM] in Hrun.
    apply io_bind_Ok in Hrun as (dat1 & t1 & t2 & Hstep & Hrest & ->).
    rewrite read_step_fetch in Hstep.
    apply io_bind_Ok in Hstep as (x' & t3 & t4 & Hfetch & Hret & ->).
    injection Hret as <- <-. apply fetch_length in Hfetch.
    simpl in Hlen.
    destruct (IH (S k) _ _ Hrest) as (Hl & Hlow & Hhigh).
    { rewrite length_insert. lia. }
    rewrite length_insert in Hl. split; [done|]. split.
    + intros j Hj. rewrite Hlow by lia. apply list_lookup_insert_ne. lia.
    + intros j Hj. destruct (decide (j = k)) as [->|Hne].
      * exists x'. split; [|done]. rewrite Hlow by lia.
        apply list_lookup_insert_eq. lia.
      * apply Hhigh. simpl in Hj. lia.
Qed.

Lemma read_block_first_slot (inputs : list string) (count R C : nat) (w : window)
    (dat dat' : list (stack A)) (rd : list (event A)) (p0 : string) :
  read_block fs inputs count R C w dat = (rd, Ok dat') →
  length dat = length inputs → inputs !! 0%nat = Some p0 →
  ∃ img, dat' !! 0%nat = Some img ∧ length img = count.
Proof.
  intros Hrun Hlen Hp0. rewrite read_block_unfold in Hrun.
  destruct (read_from_slots _ _ _ _ _ _ _ _ _ Hrun) as (_ & _ & Hhigh); [lia|].
  apply Hhigh. apply lookup_lt_Some in Hp0. lia.
Qed.

Lemma fetch_same (count R C : nat) (w : window) (p : string) (src : raster A)
    (x : stack A) :
  fs !! p = Some src → read src w = Some x → shape3 count R C x →
  fetch fs count R C w p = ([EvOpen p; EvRead p w], Ok x).
Proof.
  intros Hp Hx Hshape. unfold fetch.
  change [EvOpen p; EvRead p w] with ([EvOpen p] ++ [EvRead p w] ++ [] : list (event A)).
  eapply io_bind_intro; [by apply rasterio_open_Some|].
  eapply io_bind_intro.
  - unfold src_read. change [EvRead p w] with ([EvRead p w] ++ [] : list (event A)).
    eapply io_bind_intro; [reflexivity|]. unfold lift. by rewrite Hx.
  - unfold lift. by rewrite broadcast_to3_same.
Qed.

(** Storing full blocks from position [k] on replaces the buffer from [k]
    on by these blocks. *)
Lemma read_from_full (count R C : nat) (w : window) (inputs : list string)
    (xs : list (stack A)) (k : nat) (dat : list (stack A)) :
  Forall2 (λ p x, ∃ src, fs !! p = Some src ∧ read src w = Some x
                         ∧ shape3 count R C x) inputs xs →
  length dat = (k + length inputs)%nat →
  foldM (read_step fs count R C w) dat (zip (seq k (length inputs)) inputs)
  = (read_events inputs w, Ok (take k dat ++ xs)).
Proof.
  intros Hall. revert k dat.
  induction Hall as [|p x inputs xs (src & Hp & Hx & Hshape) _ IH]; intros k dat Hlen.
  - cbn. simpl in Hlen. rewrite app_nil_r, firstn_all2 by lia. done.
  - cbn [length seq zip zip_with foldM].
    change (read_events (p :: inputs) w)
      with (([EvOpen p; EvRead p w] ++ []) ++ read_events (A:=A) inputs w).
    eapply io_bind_intro.
    + rewrite read_step_fetch. eapply io_bind_intro; [by eapply fetch_same|reflexivity].
    + simpl in Hlen. rewrite (IH (S k)) by (rewrite length_insert; lia).
      f_equal. f_equal.
      rewrite (take_S_r _ _ x) by (apply list_lookup_insert_eq; lia).
      rewrite take_insert_ge by lia. by rewrite <- app_assoc.
Qed.

(** X6. Reading a block (lines 173-175) when every input returns a block of
    the buffer's block shape: every input is opened and read once, in input
    order, and afterwards the buffer holds exactly the blocks that were
    read, in input order, whatever it held before. *)
Theorem full_blocks_fill_the_buffer (inputs : list string) (count R C : nat)
    (w : window) (dat xs : list (stack A)) :
  length dat = length inputs →
  Forall2 (λ p x, ∃ src, fs !! p = Some src ∧ read src w = Some x
                         ∧ shape3 count R C x) inputs xs →
  read_block fs inputs count R C w dat = (read_events inputs w, Ok xs).
Proof.
  intros Hlen Hall. rewrite read_block_unfold.
  by rewrite (read_from_full count R C w inputs xs 0 dat Hall).
Qed.

(** X7. A block that does not fit the buffer.  When the block that the first
    input returns for a window has a band whose number of rows is neither
    the block height nor 1, or a row whose length is neither the block width
    nor 1, the assignment of line 175 raises [ValueError]: the turn of the
    block loop ends right after that read, before the other inputs are
    read, and nothing is written for the block. *)
Theorem odd_sized_block_raises_ValueError (o : options) (expr : string)
    (ci : gmap string Z) (count R C : nat) (mi mj : plane Z)
    (dat : list (stack A)) (w : window) (p0 : string) (src : raster A)
    (x : stack A) (p : plane A) :
  inputs o !! 0%nat = Some p0 → fs !! p0 = Some src →
  read src w = Some x → p ∈ x →
  (length p ≠ R ∧ length p ≠ 1%nat)
  ∨ (∃ row, row ∈ p ∧ length row ≠ C ∧ length row ≠ 1%nat) →
  composite_block fs o expr ci count R C mi mj dat w
  = ([EvOpen p0; EvRead p0 w], Raise ValueError).
Proof.
  intros Hp0 Hsrc Hx Hp Hbad.
  unfold composite_block. eapply io_bind_raise.
  rewrite read_block_unfold.
  destruct (inputs o) as [|q inputs'] eqn:Hinputs; [done|]. injection Hp0 as ->.
  cbn [length seq zip zip_with foldM]. eapply io_bind_raise.
  rewrite read_step_fetch. eapply io_bind_raise. unfold fetch.
  change [EvOpen p0; EvRead p0 w] with ([EvOpen p0] ++ [EvRead p0 w] ++ [] : list (event A)).
  eapply io_bind_intro; [by apply rasterio_open_Some|].
  eapply io_bind_intro.
  - unfold src_read. change [EvRead p0 w] with ([EvRead p0 w] ++ [] : list (event A)).
    eapply io_bind_intro; [reflexivity|]. unfold lift. by rewrite Hx.
  - unfold lift. f_equal.
    destruct (broadcast_to3_Ok_or_ValueError count R C x)
      as [(x' & _ & Hall)|Hraise]; [|done].
    exfalso. destruct (proj1 (Forall_forall _ _) Hall p Hp) as [Hrows Hcols].
    destruct Hbad as [[? ?]|(row & Hrow & ? & ?)]; [lia|].
    destruct (proj1 (Forall_forall _ _) Hcols row Hrow); lia.
Qed.

(** A run whose first block fails has left the events of the prelude, the
    creation of the output and the events of the failing block. *)
Lemma first_block_failure (junk : A) (o : options) lg e bands p0 first
    R C idx w ws t err :
  select_expr (verbose o) (algo o) (expr o) = (lg, Ok e) →
  merge_user_bands (default_bands o) (band o) = Ok bands →
  inputs o !! 0%nat = Some p0 → fs !! p0 = Some first →
  length (remove_dups (block_shapes first)) = 1%nat →
  block_shapes first !! 0%nat = Some (R, C) →
  block_windows first = (idx, w) :: ws →
  composite_block fs o e (crit_indices bands e) (count first) R C
    (np_meshgrid_ij R C).1 (np_meshgrid_ij R C).2
    (np_empty (length (inputs o)) (count first) R C junk) w = (t, Raise err) →
  image_composite fs junk o
  = (prelude o lg e p0 ++ EvCreate (output o) (format o) :: t, Raise err).
Proof.
  intros Hsel Hmerge Hp0 Hfirst Hshapes Hbs Hwin Hblock.
  enough (∃ T, image_composite fs junk o = (T, Raise err)
             ∧ T = prelude o lg e p0 ++ EvCreate (output o) (format o) :: t)
    as (T & HT & ->) by exact HT.
  eexists. split.
  - unfold image_composite.
    eapply io_bind_intro; [exact Hsel|].
    eapply io_bind_intro; [reflexivity|].
    eapply io_bind_intro; [unfold lift; rewrite Hmerge; reflexivity|].
    cbv zeta.
    eapply io_bind_intro; [unfold lift; rewrite Hp0; reflexivity|].
    eapply io_bind_intro; [by apply rasterio_open_Some|].
    eapply io_bind_intro; [rewrite decide_True by done; reflexivity|].
    eapply io_bind_intro; [unfold lift; rewrite Hbs; reflexivity|].
    eapply io_bind_intro; [reflexivity|].
    unfold np_meshgrid_ij. rewrite Hwin. cbn [foldM].
    eapply io_bind_raise. eapply io_bind_raise. exact Hblock.
  - unfold prelude. rewrite ?app_nil_r. simpl. by rewrite <- ?app_assoc.
Qed.

(** X8. A band number beyond the bands of the inputs.  When a band name that
    occurs in the criterion has a number above the band count of the first
    input (or at most minus that count), the run raises [IndexError] at line
    178 in the first block: after the first input was opened, the output was
    created and the block was read from every input, and before the
    criterion is evaluated or anything is written. *)
Theorem band_number_beyond_count_fails_in_first_block (junk : A) (o : options)
    (lg : list (event A)) (e : string) (bands : gmap string Z) (k : string)
    (i : Z) (p0 : string) (first : raster A) (R C : nat) (idx : nat * nat)
    (w : window) (ws : list (nat * nat * window)) (rd : list (event A))
    (dat : list (stack A)) :
  select_expr (verbose o) (algo o) (expr o) = (lg, Ok e) →
  merge_user_bands (default_bands o) (band o) = Ok bands →
  bands !! k = Some i → py_in k e = true →
  Z.of_nat (count first) < i ∨ i ≤ - Z.of_nat (count first) →
  inputs o !! 0%nat = Some p0 → fs !! p0 = Some first →
  length (remove_dups (block_shapes first)) = 1%nat →
  block_shapes first !! 0%nat = Some (R, C) →
  block_windows first = (idx, w) :: ws →
  read_block fs (inputs o) (count first) R C w
    (np_empty (length (inputs o)) (count first) R C junk) = (rd, Ok dat) →
  image_composite fs junk o
  = (prelude o lg e p0 ++ EvCreate (output o) (format o)
       :: read_events (inputs o) w, Raise IndexError).
Proof.
  intros Hsel Hmerge Hk Hin Hi Hp0 Hfirst Hshapes Hbs Hwin Hread.
  eapply first_block_failure; try done.
  unfold composite_block.
  rewrite <- (app_nil_r (read_events (inputs o) w)).
  eapply io_bind_intro.
  { rewrite Hread. by rewrite (read_block_events _ _ _ _ _ _ _ _ _ Hread). }
  eapply io_bind_raise. unfold lift. f_equal.
  destruct (read_block_first_slot _ _ _ _ _ _ _ _ p0 Hread)
    as (img & Himg & Hlen); [unfold np_empty; apply length_replicate|done|].
  eapply (crit_of_out_of_range _ _ img k (i - 1)); [done| |lia].
  apply crit_indices_lookup. eauto.
Qed.
End buffer.

(** ** A run that completes (lines 172-188) *)

Lemma plane_mapM_shape {X Y} (f : X → outcome Y) (p : plane X) (q : plane Y) R C :
  mapM (mapM f) p = Ok q → shape2 R C p → shape2 R C q.
Proof.
  intros Hq [HR HC]. apply mapM_Ok_Forall2 in Hq. split.
  - by rewrite <- (Forall2_length _ _ _ Hq).
  - apply Forall_lookup. intros r row Hrow.
    destruct (Forall2_lookup_r _ _ _ _ _ Hq Hrow) as (prow & Hprow & Hrows).
    apply mapM_Ok_Forall2, Forall2_length in Hrows. rewrite <- Hrows.
    by apply (Forall_lookup_1 _ _ _ _ HC) in Hprow.
Qed.

(** Two planes of one shape with the same entries are equal. *)
Lemma plane_ext {X} (p q : plane X) R C :
  shape2 R C p → shape2 R C q →
  (∀ r c, (r < R)%nat → (c < C)%nat → at2 p r c = at2 q r c) → p = q.
Proof.
  intros [HpR HpC] [HqR HqC] Heq. apply list_eq. intros r.
  destruct (decide (r < R)%nat) as [Hr|Hr].
  2: { by rewrite !lookup_ge_None_2 by lia. }
  destruct (lookup_lt_is_Some_2 p r) as [prow Hp]; [lia|].
  destruct (lookup_lt_is_Some_2 q r) as [qrow Hq]; [lia|].
  rewrite Hp, Hq. f_equal. apply list_eq. intros c.
  pose proof (Forall_lookup_1 _ _ _ _ HpC Hp) as Hlp. simpl in Hlp.
  pose proof (Forall_lookup_1 _ _ _ _ HqC Hq) as Hlq. simpl in Hlq.
  destruct (decide (c < C)%nat) as [Hc|Hc].
  2: { by rewrite !lookup_ge_None_2 by lia. }
  specialize (Heq r c Hr Hc). unfold at2 in Heq. by rewrite Hp, Hq in Heq.
Qed.

Section completed.
Context {A : Type} `{Scalar A} {np : numpy_module}.
Variable fs : gmap string (raster A).

Lemma composite_block_events (o : options) (expr : string) (ci : gmap string Z)
    (count R C : nat) (mi mj : plane Z) (dat0 dat : list (stack A)) (w : window)
    (tr : list (event A)) :
  composite_block fs o expr ci count R C mi mj dat0 w = (tr, Ok dat) →
  ∃ planes, length planes = count ∧ tr = block_events o count w planes.
Proof.
  unfold composite_block. intros Hrun.
  apply io_bind_Ok in Hrun as (dat1 & rd & t2 & Hread & Hrun & ->).
  apply io_bind_Ok in Hrun as (crit & t3 & t4 & Hcrit & Hrun & ->).
  apply lift_Ok in Hcrit as [_ ->].
  apply io_bind_Ok in Hrun as (crit_idx & t5 & t6 & Heval & Hrun & ->).
  apply lift_Ok in Heval as [_ ->].
  apply io_bind_Ok in Hrun as (composite & t7 & t8 & Hgather & Hrun & ->).
  apply lift_Ok in Hgather as [_ ->].
  apply io_bind_Ok in Hrun as ([] & tw & t9 & Hwrite & Hret & ->).
  injection Hret as <- _.
  apply write_block_Ok in Hwrite as (planes & Hplanes & ->).
  exists planes. split.
  - rewrite <- (Forall2_length _ _ _ Hplanes). apply length_seq.
  - unfold block_events. rewrite (read_block_events _ _ _ _ _ _ _ _ _ Hread).
    by rewrite !app_nil_r.
Qed.

Lemma block_loop_events (o : options) (expr : string) (ci : gmap string Z)
    (count R C : nat) (mi mj : plane Z) (ws : list (nat * nat * window))
    (dat0 dat : list (stack A)) (tr : list (event A)) :
  foldM (λ dat '(idx, w), composite_block fs o expr ci count R C mi mj dat w)
    dat0 ws = (tr, Ok dat) →
  ∃ blocks, length blocks = length ws
    ∧ Forall (λ planes, length planes = count) blocks
    ∧ tr = concat (zip_with (λ iw planes, block_events o count iw.2 planes) ws blocks).
Proof.
  revert dat0 tr. induction ws as [|[idx w] ws IH]; intros dat0 tr Hrun.
  - cbn [foldM] in Hrun. injection Hrun as <- _. by exists [].
  - cbn [foldM] in Hrun.
    apply io_bind_Ok in Hrun as (dat1 & t1 & t2 & Hblock & Hrest & ->).
    apply composite_block_events in Hblock as (planes & Hlen & ->).
    destruct (IH _ _ Hrest) as (blocks & Hlens & Hall & ->).
    exists (planes :: blocks). split; [simpl; lia|]. split; [by constructor|done].
Qed.

(** X9. The shape of a run that completes.  A criterion was chosen, there is
    a first input and it could be opened, and after the log lines, the
    opening of the first input and the creation of the output, the trace
    consists of one group of events per block window of the first input, in
    the order of the windows: the block is read from every input in input
    order, then one band of the composite is written to the output for each
    band of the first input, numbered from 1, at the same window. *)
Theorem completed_run_covers_every_block (junk : A) (o : options)
    (tr : list (event A)) :
  image_composite fs junk o = (tr, Ok ()) →
  ∃ lg e p0 first blocks,
    select_expr (verbose o) (algo o) (expr o) = (lg, Ok e)
    ∧ inputs o !! 0%nat = Some p0 ∧ fs !! p0 = Some first
    ∧ length blocks = length (block_windows first)
    ∧ Forall (λ planes, length planes = count first) blocks
    ∧ tr = prelude o lg e p0 ++ EvCreate (output o) (format o)
             :: concat (zip_with (λ iw planes, block_events o (count first) iw.2 planes)
                          (block_windows first) blocks).
Proof.
  unfold image_composite. intros Hrun.
  apply io_bind_Ok in Hrun as (e & lg & t1 & Hsel & Hrun & ->).
  apply io_bind_Ok in Hrun as ([] & tl & t2 & Hlog & Hrun & ->).
  injection Hlog as <-.
  apply io_bind_Ok in Hrun as (bands & t3 & t4 & Hmerge & Hrun & ->).
  apply lift_Ok in Hmerge as [_ ->]. cbv zeta in Hrun.
  apply io_bind_Ok in Hrun as (p0 & t5 & t6 & Hp0 & Hrun & ->).
  apply lift_Ok in Hp0 as [Hp0 ->]. apply or_raise_Ok in Hp0.
  apply io_bind_Ok in Hrun as (first & t7 & t8 & Hopen & Hrun & ->).
  unfold rasterio_open in Hopen.
  apply io_bind_Ok in Hopen as ([] & t9 & t10 & Hev & Hfirst & ->).
  injection Hev as <-. apply lift_Ok in Hfirst as [Hfirst ->].
  apply or_raise_Ok in Hfirst.
  apply io_bind_Ok in Hrun as ([] & t11 & t12 & Hcheck & Hrun & ->).
  destruct (decide (length (remove_dups (block_shapes first)) = 1%nat)); [|done].
  injection Hcheck as <-.
  apply io_bind_Ok in Hrun as ([R C] & t13 & t14 & Hbs & Hrun & ->).
  apply lift_Ok in Hbs as [_ ->].
  apply io_bind_Ok in Hrun as ([] & t15 & t16 & Hcreate & Hrun & ->).
  injection Hcreate as <-. unfold np_meshgrid_ij in Hrun.
  apply io_bind_Ok in Hrun as (dat & t17 & t18 & Hloop & Hret & ->).
  injection Hret as <-.
  apply block_loop_events in Hloop as (blocks & Hlen & Hall & ->).
  exists lg, e, p0, first, blocks.
  split; [done|]. split; [done|]. split; [done|]. split; [done|]. split; [done|].
  unfold prelude. rewrite !app_nil_r. simpl. by rewrite <- !app_assoc.
Qed.

Lemma gather_shape (dat : list (stack A)) (m : plane Z) (R C : nat)
    (composite : stack A) :
  gather dat (VIndex m) (np_meshgrid_ij R C).1 (np_meshgrid_ij R C).2 = Ok composite →
  shape2 R C composite.
Proof.
  intros Hgather. unfold gather, np_take3 in Hgather.
  apply bind_Ok in Hgather as (i12 & Hi12 & Hgather).
  destruct (meshgrid_shape R C) as [Hmi Hmj].
  rewrite (zip_same_plane pair _ _ R C Hmi Hmj) in Hi12. injection Hi12 as <-.
  assert (shape2 R C (zip_with (zip_with pair) (np_meshgrid_ij R C).1
                        (np_meshgrid_ij R C).2)) as Hi12 by by apply shape2_zip_with.
  by destruct (plane_zip_same_shape _ _ _ _ R C Hgather Hi12).
Qed.

(** One turn of the block loop over inputs that all hold the block [x]
    writes the bands of [x], whatever the criterion selected. *)
Lemma composite_block_copies (o : options) (expr : string) (ci : gmap string Z)
    (count R C : nat) (dat0 dat : list (stack A)) (w : window)
    (tr : list (event A)) (src : raster A) (x : stack A) :
  (∀ p, p ∈ inputs o → fs !! p = Some src) →
  read src w = Some x → shape3 count R C x →
  length dat0 = length (inputs o) →
  composite_block fs o expr ci count R C
    (np_meshgrid_ij R C).1 (np_meshgrid_ij R C).2 dat0 w = (tr, Ok dat) →
  tr = block_events o count w x ∧ dat = replicate (length (inputs o)) x.
Proof.
  intros Hsame Hx Hshape Hlen Hrun. unfold composite_block in Hrun.
  apply io_bind_Ok in Hrun as (dat1 & rd & t2 & Hread & Hrun & ->).
  apply io_bind_Ok in Hrun as (crit & t3 & t4 & Hcrit & Hrun & ->).
  apply lift_Ok in Hcrit as [_ ->].
  apply io_bind_Ok in Hrun as (crit_idx & t5 & t6 & Heval & Hrun & ->).
  apply lift_Ok in Heval as [_ ->].
  apply io_bind_Ok in Hrun as (composite & t7 & t8 & Hgather & Hrun & ->).
  apply lift_Ok in Hgather as [Hgather ->].
  apply io_bind_Ok in Hrun as ([] & tw & t9 & Hwrite & Hret & ->).
  injection Hret as <- <-.
  destruct crit_idx as [a|m]; [done|].
  apply write_block_Ok in Hwrite as (planes & Hplanes & ->).
  rewrite read_block_unfold in Hread.
  rewrite (read_from_full fs count R C w (inputs o)
             (replicate (length (inputs o)) x) 0 dat0) in Hread; [| |done].
  2: { apply Forall2_lookup. intros i.
       destruct (inputs o !! i) as [p|] eqn:Hp.
       - rewrite lookup_replicate_2 by (by eapply lookup_lt_Some).
         constructor. exists src. split; [|done].
         by eapply Hsame, list_elem_of_lookup_2.
       - assert (replicate (length (inputs o)) x !! i = None) as ->; [|constructor].
         apply lookup_ge_None. rewrite length_replicate. by apply lookup_ge_None. }
  injection Hread as <- <-. split; [|done].
  enough (planes = x) as -> by (unfold block_events; by rewrite ?app_nil_r).
  destruct (gather_planes_spec _ _ R C count composite planes Hgather Hplanes)
    as [_ Hpix].
  pose proof (gather_shape _ _ _ _ _ Hgather) as Hcomp.
  destruct Hshape as [Hcount Hbands].
  apply list_eq_same_length with count;
    [done|by rewrite <- (Forall2_length _ _ _ Hplanes), length_seq|].
  intros b p q Hb Hp Hq.
  apply (plane_ext p q R C).
  - destruct (Forall2_lookup_r _ _ _ _ _ Hplanes Hp) as (b' & Hb' & Hlast).
    by eapply plane_mapM_shape.
  - by apply (Forall_lookup_1 _ _ _ _ Hbands) in Hq.
  - intros r c Hr Hc.
    destruct (Hpix r c Hr Hc) as (i & img & _ & Himg & Hvals).
    apply np_index_elem, elem_of_replicate in Himg as [-> _].
    destruct (Hvals b Hb) as (p' & v & Hp' & Hv & Hat).
    rewrite Hp in Hp'. injection Hp' as <-. rewrite Hv.
    unfold at3 in Hat. rewrite Hq in Hat. done.
Qed.

Lemma block_loop_copies (o : options) (expr : string) (ci : gmap string Z)
    (count R C : nat) (src : raster A) (ws : list (nat * nat * window))
    (dat0 dat : list (stack A)) (tr : list (event A)) :
  (∀ p, p ∈ inputs o → fs !! p = Some src) →
  Forall (λ iw, ∃ x, read src iw.2 = Some x ∧ shape3 count R C x) ws →
  length dat0 = length (inputs o) →
  foldM (λ dat '(idx, w), composite_block fs o expr ci count R C
                            (np_meshgrid_ij R C).1 (np_meshgrid_ij R C).2 dat w)
    dat0 ws = (tr, Ok dat) →
  ∃ xs, Forall2 (λ iw x, read src iw.2 = Some x) ws xs
    ∧ tr = concat (zip_with (λ iw x, block_events o count iw.2 x) ws xs).
Proof.
  intros Hsame Hfull. revert dat0 tr.
  induction Hfull as [|[idx w] ws (x & Hx & Hshape) _ IH]; intros dat0 tr Hlen Hrun.
  - cbn [foldM] in Hrun. injection Hrun as <- _. exists []. by split; [constructor|].
  - cbn [foldM] in Hrun.
    apply io_bind_Ok in Hrun as (dat1 & t1 & t2 & Hblock & Hrest & ->).
    destruct (composite_block_copies _ _ _ _ _ _ _ _ _ _ _ _ Hsame Hx Hshape Hlen Hblock)
      as [-> ->].
    destruct (IH _ _ (length_replicate _ _) Hrest) as (xs & Hxs & ->).
    exists (x :: xs). split; [by constructor|done].
Qed.

(** X10. Compositing copies of one image gives the image back.  When every
    input path holds the same raster and every block it returns has the
    block shape, a run that completes writes, for every block window, the
    bands of the block as they were read, whatever the criterion is: the
    output is a copy of the input.  This includes a run on a single input. *)
Theorem copies_of_one_image_give_it_back (junk : A) (o : options)
    (tr : list (event A)) (first : raster A) (R C : nat) :
  (∀ p, p ∈ inputs o → fs !! p = Some first) →
  block_shapes first !! 0%nat = Some (R, C) →
  Forall (λ iw, ∃ x, read first iw.2 = Some x ∧ shape3 (count first) R C x)
    (block_windows first) →
  image_composite fs junk o = (tr, Ok ()) →
  ∃ lg e p0 xs,
    select_expr (verbose o) (algo o) (expr o) = (lg, Ok e)
    ∧ inputs o !! 0%nat = Some p0
    ∧ Forall2 (λ iw x, read first iw.2 = Some x) (block_windows first) xs
    ∧ tr = prelude o lg e p0 ++ EvCreate (output o) (format o)
             :: concat (zip_with (λ iw x, block_events o (count first) iw.2 x)
                          (block_windows first) xs).
Proof.
  intros Hsame Hbs Hfull. unfold image_composite. intros Hrun.
  apply io_bind_Ok in Hrun as (e & lg & t1 & Hsel & Hrun & ->).
  apply io_bind_Ok in Hrun as ([] & tl & t2 & Hlog & Hrun & ->).
  injection Hlog as <-.
  apply io_bind_Ok in Hrun as (bands & t3 & t4 & Hmerge & Hrun & ->).
  apply lift_Ok in Hmerge as [_ ->]. cbv zeta in Hrun.
  apply io_bind_Ok in Hrun as (p0 & t5 & t6 & Hp0 & Hrun & ->).
  apply lift_Ok in Hp0 as [Hp0 ->]. apply or_raise_Ok in Hp0.
  apply io_bind_Ok in Hrun as (first' & t7 & t8 & Hopen & Hrun & ->).
  rewrite (rasterio_open_Some fs p0 first) in Hopen
    by (by eapply Hsame, list_elem_of_lookup_2).
  injection Hopen as <- <-.
  apply io_bind_Ok in Hrun as ([] & t11 & t12 & Hcheck & Hrun & ->).
  destruct (decide (length (remove_dups (block_shapes first)) = 1%nat)); [|done].
  injection Hcheck as <-. rewrite Hbs in Hrun.
  apply io_bind_Ok in Hrun as ([R' C'] & t13 & t14 & Hrc & Hrun & ->).
  injection Hrc as <- <- <-.
  apply io_bind_Ok in Hrun as ([] & t15 & t16 & Hcreate & Hrun & ->).
  injection Hcreate as <-.
  change (let '(mi, mj) := np_meshgrid_ij R C in ?k)
    with (let mi := (np_meshgrid_ij R C).1 in let mj := (np_meshgrid_ij R C).2 in ?k)
    in Hrun.
  apply io_bind_Ok in Hrun as (dat & t17 & t18 & Hloop & Hret & ->).
  injection Hret as <-.
  apply block_loop_copies with (src := first) in Hloop as (xs & Hxs & ->);
    [|done|done|apply length_replicate].
  exists lg, e, p0, xs. split; [done|]. split; [done|]. split; [done|].
  unfold prelude. rewrite ?app_nil_r. simpl. by rewrite <- ?app_assoc.
Qed.
End completed.

(** ** The files a run touches *)

(** The table of lines 28-34 calls the selection functions and three
    arithmetic operators only. *)
Lemma _ALGO_calls (a e : string) :
  _ALGO !! a = Some e →
  ∃ t, read_sexp e = Ok t
     ∧ ∀ f, f ∈ calls t → f ∈ ["max"; "min"; "median"; "/"; "-"; "+"]%string.
Proof.
  intros Ha. unfold _ALGO in Ha.
  apply elem_of_list_to_map_2 in Ha.
  repeat (apply elem_of_cons in Ha as [Ha|Ha]; [injection Ha as -> ->|]);
    [..|by apply elem_of_nil in Ha];
    (eexists; split; [vm_compute; reflexivity|];
     intros f Hf; cbn in Hf;
     repeat (apply elem_of_cons in Hf as [->|Hf]);
     [..|by apply elem_of_nil in Hf]; in_list).
Qed.

Section files.
Context {A : Type} `{Scalar A} {np : numpy_module}.
Variable fs : gmap string (raster A).

Lemma io_bind_trace {X Y} (P : event A → Prop) (m : io A X) (f : X → io A Y) :
  Forall P m.1 → (∀ x, Forall P (f x).1) → Forall P (m ≫= f).1.
Proof.
  intros Hm Hf. destruct m as [t [x|e|]]; unfold mbind, io_mbind, io_bind; simpl;
    [|done..].
  apply Forall_app. split; [done|apply Hf].
Qed.

Lemma lift_trace {X} (P : event A → Prop) (m : outcome X) : Forall P (lift m).1.
Proof. constructor. Qed.

Lemma foldM_trace {S X} (P : event A → Prop) (f : S → X → io A S) (l : list X) (s : S) :
  (∀ s x, x ∈ l → Forall P (f s x).1) → Forall P (foldM f s l).1.
Proof.
  revert s. induction l as [|x l IH]; intros s Hf; [constructor|].
  cbn [foldM]. apply io_bind_trace; [apply Hf, list_elem_of_here|].
  intros s'. apply IH. intros s'' y Hy. by apply Hf, list_elem_of_further.
Qed.

Lemma forM__trace {X} (P : event A → Prop) (f : X → io A unit) (l : list X) :
  (∀ x, Forall P (f x).1) → Forall P (forM_ l f).1.
Proof.
  intros Hf. induction l as [|x l IH]; [constructor|].
  cbn [forM_]. apply io_bind_trace; [apply Hf|]. by intros [].
Qed.

Lemma select_expr_trace (o : options) (v : bool) (a e : option string) :
  Forall (within_options o) (select_expr (A:=A) v a e).1.
Proof.
  unfold select_expr. destruct (negb (truthy a) && negb (truthy e)); [constructor|].
  destruct a as [a|], e as [e|].
  - apply io_bind_trace; [by repeat constructor|]. intros []. apply lift_trace.
  - apply io_bind_trace; [|intros []; apply lift_trace].
    unfold log. destruct v; by repeat constructor.
  - constructor.
  - constructor.
Qed.

(** Lines 119-125: once an algorithm is named, the criterion is its entry
    of the table. *)
Lemma select_expr_algo_inv (v : bool) (a : string) (ex : option string)
    (lg : list (event A)) (e : string) :
  select_expr (A:=A) v (Some a) ex = (lg, Ok e) → _ALGO !! a = Some e.
Proof.
  unfold select_expr. destruct (negb (truthy (Some a)) && negb (truthy ex)); [done|].
  destruct ex as [ex|]; intros Hsel.
  - apply io_bind_Ok in Hsel as ([] & t1 & t2 & _ & Hsel & _).
    unfold lift in Hsel. destruct (_ALGO !! a); [|done]. by injection Hsel as _ ->.
  - apply io_bind_Ok in Hsel as ([] & t1 & t2 & _ & Hsel & _).
    unfold lift in Hsel. destruct (_ALGO !! a); [|done]. by injection Hsel as _ ->.
Qed.

Lemma read_block_trace (o : options) (count R C : nat) (w : window)
    (dat : list (stack A)) :
  Forall (within_options o) (read_block fs (inputs o) count R C w dat).1.
Proof.
  rewrite read_block_unfold. apply foldM_trace. intros s [j p] Hp.
  assert (p ∈ inputs o) as Hin.
  { apply list_elem_of_lookup in Hp as [i Hi].
    apply lookup_zip_with_Some in Hi as (? & ? & [= <- <-] & _ & Hi).
    by eapply list_elem_of_lookup_2. }
  unfold read_step.
  apply io_bind_trace; [|intros src; apply io_bind_trace].
  - unfold rasterio_open. apply io_bind_trace; [by repeat constructor|].
    intros []. apply lift_trace.
  - unfold src_read. apply io_bind_trace; [by repeat constructor|].
    intros []. apply lift_trace.
  - intros x. apply io_bind_trace; [apply lift_trace|]. intros x'. constructor.
Qed.

Lemma composite_block_trace (o : options) (expr : string) (ci : gmap string Z)
    (count R C : nat) (mi mj : plane Z) (dat : list (stack A)) (w : window) :
  Forall (within_options o) (composite_block fs o expr ci count R C mi mj dat w).1.
Proof.
  unfold composite_block.
  apply io_bind_trace; [apply read_block_trace|]. intros dat1.
  apply io_bind_trace; [apply lift_trace|]. intros crit.
  apply io_bind_trace; [apply lift_trace|]. intros crit_idx.
  apply io_bind_trace; [apply lift_trace|]. intros composite.
  apply io_bind_trace; [|intros []; constructor].
  unfold write_block. apply forM__trace. intros b.
  apply io_bind_trace; [apply lift_trace|]. intros data. by repeat constructor.
Qed.

(** X11. The files a run with a predefined algorithm touches.  The
    criterion of such a run is an expression of the table of lines 28-34: it
    calls the selection functions of lines 144-147 and the operators [/],
    [-] and [+] only, so that no name is looked up in the numpy module and
    no function other than these is called.  Every file the run opens or
    reads is one of its inputs, and the only file it creates or writes is
    its output: no other path appears in the trace, however the run ends. *)
Theorem run_touches_only_inputs_and_output (junk : A) (o : options) (a : string) :
  algo o = Some a →
  (∀ lg e, select_expr (A:=A) (verbose o) (algo o) (expr o) = (lg, Ok e) →
     ∃ t, read_sexp e = Ok t
        ∧ ∀ f, f ∈ calls t → f ∈ ["max"; "min"; "median"; "/"; "-"; "+"]%string)
  ∧ Forall (within_options o) (image_composite fs junk o).1.
Proof.
  intros Halgo. split.
  { intros lg e Hsel. rewrite Halgo in Hsel.
    by eapply _ALGO_calls, select_expr_algo_inv. }
  unfold image_composite.
  apply io_bind_trace; [apply select_expr_trace|]. intros e.
  apply io_bind_trace; [by repeat constructor|]. intros [].
  apply io_bind_trace; [apply lift_trace|]. intros bands. cbv zeta.
  destruct (inputs o !! 0%nat) as [p0|] eqn:Hp0; [|constructor].
  change (lift (or_raise IndexError (Some p0))) with (mret p0 : io A string).
  rewrite io_ret_bind.
  apply io_bind_trace.
  { unfold rasterio_open. apply io_bind_trace; [|intros []; apply lift_trace].
    repeat constructor. by eapply list_elem_of_lookup_2. }
  intros first.
  apply io_bind_trace.
  { destruct (decide _); [constructor|].
    apply io_bind_trace; [by repeat constructor|]. intros []. constructor. }
  intros [].
  apply io_bind_trace; [apply lift_trace|]. intros [R C].
  apply io_bind_trace; [by repeat constructor|]. intros [].
  unfold np_meshgrid_ij.
  apply io_bind_trace; [|intros dat; constructor].
  apply foldM_trace. intros dat [idx w] _. apply composite_block_trace.
Qed.

(** X12. No input.  When a criterion was chosen and the [--band] pairs were
    accepted but no input path is given, [inputs[0]] of line 152 raises
    [IndexError]: the run has logged the criterion and touched no file. *)
Theorem no_input_is_index_error (junk : A) (o : options)
    (lg : list (event A)) (e : string) (bands : gmap string Z) :
  select_expr (verbose o) (algo o) (expr o) = (lg, Ok e) →
  merge_user_bands (default_bands o) (band o) = Ok bands →
  inputs o = [] →
  image_composite fs junk o
  = (lg ++ [EvLog Info ("Compositing criteria S-expression: " +:+ e)],
     Raise IndexError).
Proof.
  intros Hsel Hmerge Hin. unfold image_composite.
  eapply io_bind_intro; [exact Hsel|].
  change [EvLog Info ("Compositing criteria S-expression: " +:+ e)]
    with ([EvLog (A:=A) Info ("Compositing criteria S-expression: " +:+ e)] ++ [] ++ []).
  eapply io_bind_intro; [reflexivity|].
  eapply io_bind_intro; [unfold lift; rewrite Hmerge; reflexivity|].
  cbv zeta. apply io_bind_raise. unfold lift. by rewrite Hin.
Qed.
End files.

(** ** Where the exceptions of a run come from *)

Lemma rw_Ok {X} E (x : X) : raises_within E (Ok x).
Proof. by intros e. Qed.

Lemma rw_Unmodelled {X} E : raises_within E (@Unmodelled X).
Proof. by intros e. Qed.

Lemma rw_Raise {X} E e : e ∈ E → raises_within E (@Raise X e).
Proof. by intros He e' [= <-]. Qed.

Lemma rw_weaken {X} (E E' : list error) (m : outcome X) :
  E ⊆ E' → raises_within E m → raises_within E' m.
Proof. intros Hsub Hm e He. by apply Hsub, Hm. Qed.

Lemma rw_or_raise {X} E e (o : option X) : e ∈ E → raises_within E (or_raise e o).
Proof. destruct o; [intros _; apply rw_Ok|apply rw_Raise]. Qed.

Lemma rw_bind {X Y} E (m : outcome X) (f : X → outcome Y) :
  raises_within E m → (∀ x, raises_within E (f x)) → raises_within E (m ≫= f).
Proof.
  intros Hm Hf. destruct m as [x|e|]; [apply Hf| |apply rw_Unmodelled].
  intros e' [= <-]. by apply Hm.
Qed.

Lemma rw_fmap {X Y} E (m : outcome X) (f : X → Y) :
  raises_within E m → raises_within E (f <$> m).
Proof.
  intros Hm. destruct m as [x|e|]; [apply rw_Ok| |apply rw_Unmodelled].
  intros e' [= <-]. by apply Hm.
Qed.

Lemma rw_mapM {X Y} E (f : X → outcome Y) (l : list X) :
  (∀ x, raises_within E (f x)) → raises_within E (mapM f l).
Proof.
  intros Hf. induction l as [|x l IH]; [apply rw_Ok|].
  cbn [mapM]. apply rw_bind; [apply Hf|]. intros y.
  apply rw_bind; [apply IH|]. intros k. apply rw_Ok.
Qed.

Lemma rw_zip_same {X Y W} E (f : X → Y → outcome W) (l : list X) (k : list Y) :
  (∀ x y, raises_within E (f x y)) → raises_within E (zip_same f l k).
Proof.
  intros Hf. revert k. induction l as [|x l IH]; intros [|y k];
    [apply rw_Ok|apply rw_Unmodelled|apply rw_Unmodelled|].
  cbn [zip_same]. apply rw_bind; [apply Hf|]. intros z.
  apply rw_bind; [apply IH|]. intros r. apply rw_Ok.
Qed.

Lemma rw_np_index {X} E (a : list X) (i : Z) :
  IndexError ∈ E → raises_within E (np_index a i).
Proof.
  intros HE. unfold np_index.
  repeat match goal with |- context [if ?b then _ else _] => destruct b end;
    by (apply rw_or_raise || apply rw_Raise).
Qed.

Lemma rw_broadcast_to3 {X} E (count R C : nat) (x : stack X) :
  ValueError ∈ E → raises_within E (broadcast_to3 count R C x).
Proof.
  intros HE. destruct (broadcast_to3_Ok_or_ValueError count R C x)
    as [(x' & -> & _)| ->]; [apply rw_Ok|by apply rw_Raise].
Qed.

(** The reader raises nothing but [ExpressionError]. *)
Lemma rw_read_sexp (source : string) : raises_within eval_errors (read_sexp source).
Proof.
  unfold read_sexp. apply rw_bind.
  - generalize (list_ascii_of_string source) as cs. generalize false as w.
    generalize (@nil ascii) as cur. intros cur w cs. revert cur w.
    induction cs as [|c cs IH]; intros cur w; [apply rw_Ok|].
    cbn [lex].
    repeat match goal with
    | |- raises_within _ (if ?b then _ else _) => destruct b
    | |- raises_within _ (_ <$> _) => apply rw_fmap
    | |- raises_within _ (match ?l with [] => _ | _ :: _ => _ end) => destruct l
    | |- raises_within _ (lex _ _ _) => apply IH
    | |- raises_within _ Unmodelled => apply rw_Unmodelled
    end.
  - intros toks. generalize (@nil (list sexp)) as open.
    induction toks as [|[| |s] toks IH]; intros open; cbn [parse].
    + apply rw_Raise. in_list.
    + apply IH.
    + destruct open as [|cur [|parent rest]];
        [apply rw_Raise; in_list|apply rw_Ok|apply IH].
    + destruct open as [|cur rest]; [apply rw_Raise; in_list|apply IH].
Qed.

Section criterion_errors.
Context {A : Type} `{Scalar A} {np : numpy_module}.

Lemma calm_not_modelled : calm (not_modelled (A:=A)).
Proof. intros args. apply rw_Unmodelled. Qed.

Lemma rw_np_binop E (g : A → A → A) (a b : stack A) : raises_within E (np_binop g a b).
Proof.
  unfold np_binop. apply rw_zip_same. intros p q. apply rw_zip_same. intros r s.
  apply rw_zip_same. intros x y. apply rw_Ok.
Qed.

Lemma calm_reduce_op (g : A → A → A) : calm (reduce_op g).
Proof.
  intros [|v vs]; [apply rw_Raise; in_list|]. cbn [reduce_op].
  assert (raises_within [TypeError; ValueError] (Ok v)) as Hacc by apply rw_Ok.
  revert Hacc. generalize (Ok v). induction vs as [|w vs IH]; intros acc Hacc; [done|].
  cbn [foldl]. apply IH. apply rw_bind; [done|]. intros x.
  unfold binop_value. destruct x, w; try apply rw_Unmodelled.
  apply rw_fmap, rw_np_binop.
Qed.

Lemma calm_reduce_truediv : calm (reduce_truediv (A:=A)).
Proof.
  intros [|v vs]; [apply rw_Raise; in_list|]. cbn [reduce_truediv].
  assert (raises_within [TypeError; ValueError] (Ok v)) as Hacc by apply rw_Ok.
  revert Hacc. generalize (Ok v). induction vs as [|w vs IH]; intros acc Hacc; [done|].
  cbn [foldl]. apply IH. apply rw_bind; [done|]. intros x.
  unfold truediv_value. destruct x, w; try apply rw_Unmodelled.
  apply rw_fmap, rw_zip_same. intros p q. apply rw_zip_same. intros r s.
  apply rw_zip_same. intros x y. unfold ma_truediv.
  destruct (s_div_masked x y); [apply rw_Unmodelled|apply rw_Ok].
Qed.

Lemma rw_np_argmax0 (a : stack A) : raises_within [TypeError; ValueError] (np_argmax0 a).
Proof.
  unfold np_argmax0. destruct a; [apply rw_Raise; in_list|].
  apply rw_mapM. intros row. apply rw_mapM. intros col. apply rw_fmap.
  unfold argmax1. destruct col; [apply rw_Raise; in_list|apply rw_Ok].
Qed.

Lemma rw_np_argmin0 (a : stack A) : raises_within [TypeError; ValueError] (np_argmin0 a).
Proof.
  unfold np_argmin0. destruct a; [apply rw_Raise; in_list|].
  apply rw_mapM. intros row. apply rw_mapM. intros col. apply rw_fmap.
  unfold argmin1. destruct col; [apply rw_Raise; in_list|apply rw_Ok].
Qed.

Lemma calm_fn_max : calm fn_max.
Proof.
  intros [|[a|m] [|]]; try (apply rw_Raise; in_list); try apply rw_Unmodelled.
  cbn [fn_max]. apply rw_fmap, rw_np_argmax0.
Qed.

Lemma calm_fn_min : calm fn_min.
Proof.
  intros [|[a|m] [|]]; try (apply rw_Raise; in_list); try apply rw_Unmodelled.
  cbn [fn_min]. apply rw_fmap, rw_np_argmin0.
Qed.

Lemma calm_fn_median : calm fn_median.
Proof.
  intros [|[a|m] [|]]; try (apply rw_Raise; in_list); try apply rw_Unmodelled.
  cbn [fn_median]. apply rw_bind.
  - unfold np_median0. destruct a; [apply rw_Unmodelled|].
    apply rw_mapM. intros row. apply rw_mapM. intros col.
    unfold median1, np_mean. destruct (List.find _ _); [apply rw_Ok|].
    destruct (if Nat.even _ then _ else _); [apply rw_Unmodelled|apply rw_Ok].
  - intros med. apply rw_bind.
    + unfold np_sub_plane. apply rw_mapM. intros img. apply rw_zip_same.
      intros r s. apply rw_zip_same. intros x y. apply rw_Ok.
    + intros d. apply rw_fmap, rw_np_argmin0.
Qed.

Lemma calm_op_map (s : string) (f : func A) : op_map !! s = Some f → calm f.
Proof.
  intros Hf. unfold op_map in Hf. apply elem_of_list_to_map_2 in Hf.
  repeat (apply elem_of_cons in Hf as [Hf|Hf]; [injection Hf as -> ->|]);
    [..|by apply elem_of_nil in Hf];
    (apply calm_reduce_op || apply calm_reduce_truediv || apply calm_not_modelled).
Qed.

Lemma calm_higher_func_map (s : string) (f : func A) :
  higher_func_map !! s = Some f → calm f.
Proof.
  intros Hf. unfold higher_func_map in Hf. apply elem_of_list_to_map_2 in Hf.
  repeat (apply elem_of_cons in Hf as [Hf|Hf]; [injection Hf as -> ->|]);
    [..|by apply elem_of_nil in Hf]; apply calm_not_modelled.
Qed.

(** Lines 144-147 leave a function table of calm callables. *)
Lemma calm_func_map (s : string) (f : func A) : func_map !! s = Some f → calm f.
Proof.
  unfold func_map. intros Hf.
  apply lookup_insert_Some in Hf as [[_ <-]|[_ Hf]]; [apply calm_fn_median|].
  apply lookup_insert_Some in Hf as [[_ <-]|[_ Hf]]; [apply calm_fn_min|].
  apply lookup_insert_Some in Hf as [[_ <-]|[_ Hf]]; [apply calm_fn_max|].
  unfold func_map0 in Hf. apply elem_of_list_to_map_2 in Hf.
  repeat (apply elem_of_cons in Hf as [Hf|Hf]; [injection Hf as -> ->|]);
    [..|by apply elem_of_nil in Hf]; apply calm_not_modelled.
Qed.

Section eval.
Variable fm : gmap string (func A).
Variable ctx : gmap string (value A).
Hypothesis calm_fm : ∀ s f, fm !! s = Some f → calm f.

Lemma calm_resolve_head (h : sexp) (f : func A) : resolve_head fm h = Ok f → calm f.
Proof.
  destruct h as [s|l]; simpl; [|intros [= <-]; apply calm_not_modelled].
  destruct (op_map !! s) as [g|] eqn:Hop; [intros [= <-]; by eapply calm_op_map|].
  destruct (fm !! s) as [g|] eqn:Hfm; [intros [= <-]; by eapply calm_fm|].
  destruct (higher_func_map !! s) as [g|] eqn:Hhi;
    [intros [= <-]; by eapply calm_higher_func_map|].
  destruct (np_hasattr s); [intros [= <-]; apply calm_not_modelled|done].
Qed.

(** Once the names of an expression are resolved, its evaluation raises
    nothing but what the callables raise. *)
Lemma rw_processArg (e : sexp) (r : rexp A) :
  resolve fm ctx e = Ok r → raises_within [TypeError; ValueError] (processArg r).
Proof.
  revert r. induction e as [s|l IH] using sexp_list_ind; intros r Hr.
  - simpl in Hr. destruct (is_name s && negb (String.eqb s "nil")).
    + apply or_raise_Ok in Hr. destruct (ctx !! s); [|done].
      injection Hr as <-. apply rw_Ok.
    + injection Hr as <-. apply rw_Unmodelled.
  - destruct l as [|h [|a args]]; [done|done|].
    cbn [resolve] in Hr. apply Forall_cons in IH as [_ IH].
    apply bind_Ok in Hr as (f & Hf & Hr).
    apply bind_Ok in Hr as (args' & Hargs & [= <-]).
    apply mapM_Ok_Forall2 in Hargs. cbn [processArg].
    apply rw_bind.
    + revert Hargs IH. generalize (a :: args) as es. intros es Hargs.
      induction Hargs as [|e r es rs Her _ IHes]; intros IH; [apply rw_Ok|].
      apply Forall_cons in IH as [IHe IH]. cbn [mapM].
      apply rw_bind; [by apply IHe|]. intros v.
      apply rw_bind; [by apply IHes|]. intros vs. apply rw_Ok.
    + intros vs. by eapply calm_resolve_head.
Qed.

Lemma rw_snuggs_eval (source : string) :
  raises_within eval_errors (snuggs_eval fm ctx source).
Proof.
  unfold snuggs_eval. apply rw_bind; [apply rw_read_sexp|]. intros e.
  destruct (resolve fm ctx e) as [r| |] eqn:Hr.
  - cbn. eapply rw_weaken; [|by eapply rw_processArg].
    intros x Hx. by apply list_elem_of_further.
  - destruct (resolve_Ok_or_raise fm ctx e) as [[r Hr']|Hr']; [congruence|].
    rewrite Hr' in Hr. injection Hr as <-. apply rw_Raise. in_list.
  - apply rw_Unmodelled.
Qed.

(** The converse of [resolve_Ok_names], for expressions made of
    applications. *)
Lemma resolve_total (e : sexp) :
  applications e = true →
  (∀ x, x ∈ free_names e → is_Some (ctx !! x)) →
  (∀ f, f ∈ calls e → known_call fm f) →
  ∃ r, resolve fm ctx e = Ok r.
Proof.
  induction e as [s|l IH] using sexp_list_ind; intros Happ Hnames Hcalls.
  - simpl in *. destruct (is_name s && negb (String.eqb s "nil")); [|by eexists].
    destruct (Hnames s) as [v ->]; [apply list_elem_of_here|]. by eexists.
  - destruct l as [|h [|a args]]; [done|done|].
    apply Forall_cons in IH as [_ IH]. cbn [resolve].
    assert (∃ f, resolve_head fm h = Ok f) as [f ->].
    { destruct h as [s|l']; [|by eexists]. simpl.
      destruct (Hcalls s) as [[g Hg]|[[g Hg]|[[g Hg]|Hg]]].
      - cbn [calls]. apply elem_of_app. left. apply list_elem_of_here.
      - rewrite Hg. by eexists.
      - destruct (op_map !! s); [by eexists|]. rewrite Hg. by eexists.
      - destruct (op_map !! s); [by eexists|]. destruct (fm !! s); [by eexists|].
        rewrite Hg. by eexists.
      - destruct (op_map !! s); [by eexists|]. destruct (fm !! s); [by eexists|].
        destruct (higher_func_map !! s); [by eexists|]. rewrite Hg. by eexists. }
    destruct (mapM_Ok_total (resolve fm ctx) (a :: args)) as [k Hk].
    { apply Forall_forall. intros arg Harg.
      apply (proj1 (Forall_forall _ _) IH arg Harg).
      - cbn [applications] in Happ.
        apply (proj1 (forallb_forall _ _) Happ). by apply list_elem_of_In.
      - intros x Hx. apply Hnames. cbn [free_names]. apply elem_of_concat.
        exists (free_names arg). split; [done|]. by apply list_elem_of_fmap_2.
      - intros g Hg. apply Hcalls. cbn [calls]. apply elem_of_app. right.
        apply elem_of_concat. exists (calls arg). split; [done|].
        by apply list_elem_of_fmap_2. }
    cbn [mbind outcome_bind]. rewrite Hk. by eexists.
Qed.
End eval.
End criterion_errors.

Section run_exceptions.
Context {A : Type} `{Scalar A} {np : numpy_module}.
Variable fs : gmap string (raster A).

Lemma rw_io_bind {X Y} E (m : io A X) (f : X → io A Y) :
  raises_within E m.2 → (∀ x, raises_within E (f x).2) → raises_within E (m ≫= f).2.
Proof.
  intros Hm Hf e He. apply io_bind_raises_inv in He as [He|(x & _ & He)];
    [by apply Hm|by eapply Hf].
Qed.

Lemma rw_foldM {S X} E (f : S → X → io A S) (l : list X) (s : S) :
  (∀ s x, raises_within E (f s x).2) → raises_within E (foldM f s l).2.
Proof.
  intros Hf. revert s. induction l as [|x l IH]; intros s; [apply rw_Ok|].
  cbn [foldM]. apply rw_io_bind; [apply Hf|apply IH].
Qed.

Lemma rw_forM_ {X} E (f : X → io A unit) (l : list X) :
  (∀ x, raises_within E (f x).2) → raises_within E (forM_ l f).2.
Proof.
  intros Hf. induction l as [|x l IH]; [apply rw_Ok|].
  cbn [forM_]. apply rw_io_bind; [apply Hf|]. by intros [].
Qed.

Lemma rw_rasterio_open E (p : string) :
  IOError ∈ E → raises_within E (rasterio_open fs p).2.
Proof.
  intros HE. unfold rasterio_open. apply rw_io_bind; [apply rw_Ok|].
  intros []. by apply rw_or_raise.
Qed.

Lemma rw_read_block E (inputs : list string) (count R C : nat) (w : window)
    (dat : list (stack A)) :
  IOError ∈ E → ValueError ∈ E →
  raises_within E (read_block fs inputs count R C w dat).2.
Proof.
  intros HIO HV. rewrite read_block_unfold. apply rw_foldM. intros s [j p].
  unfold read_step.
  apply rw_io_bind; [by apply rw_rasterio_open|]. intros src.
  apply rw_io_bind.
  { unfold src_read. apply rw_io_bind; [apply rw_Ok|]. intros [].
    by apply rw_or_raise. }
  intros x. apply rw_io_bind; [by apply rw_broadcast_to3|].
  intros x'. apply rw_Ok.
Qed.

Lemma rw_crit_of E (ci : gmap string Z) (dat : list (stack A)) :
  IndexError ∈ E → raises_within E (crit_of ci dat).
Proof.
  intros HE. destruct (crit_of_Ok_or_IndexError ci dat) as [[crit ->]| ->];
    [apply rw_Ok|by apply rw_Raise].
Qed.

Lemma rw_gather E (dat : list (stack A)) (crit_idx : value A) (mi mj : plane Z) :
  IndexError ∈ E → raises_within E (gather dat crit_idx mi mj).
Proof.
  intros HE. destruct crit_idx as [a|m]; [apply rw_Unmodelled|].
  unfold gather, np_take3. apply rw_bind.
  - apply rw_zip_same. intros r s. apply rw_zip_same. intros x y. apply rw_Ok.
  - intros i12. apply rw_zip_same. intros r s. apply rw_zip_same. intros i [j k].
    apply rw_bind; [by apply rw_np_index|]. intros img.
    apply rw_bind; [by apply rw_np_index|]. intros row.
    by apply rw_np_index.
Qed.

Lemma rw_write_block E (output : string) (count : nat) (w : window)
    (composite : stack A) :
  IndexError ∈ E → raises_within E (write_block output count w composite).2.
Proof.
  intros HE. unfold write_block. apply rw_forM_. intros b.
  apply rw_io_bind; [|intros data; apply rw_Ok].
  unfold lift, np_last_axis. cbn [snd]. apply rw_mapM. intros row.
  apply rw_mapM. intros px. by apply rw_or_raise.
Qed.

(** The exceptions of one turn of the block loop. *)
Lemma rw_composite_block (o : options) (expr : string) (ci : gmap string Z)
    (count R C : nat) (mi mj : plane Z) (dat : list (stack A)) (w : window) :
  raises_within block_errors (composite_block fs o expr ci count R C mi mj dat w).2.
Proof.
  unfold composite_block.
  apply rw_io_bind; [apply rw_read_block; in_list|]. intros dat1.
  apply rw_io_bind; [apply rw_crit_of; in_list|]. intros crit.
  apply rw_io_bind.
  { eapply rw_weaken; [|apply rw_snuggs_eval, calm_func_map].
    intros e He. unfold eval_errors in He.
    repeat (apply elem_of_cons in He as [->|He]; [in_list|]).
    by apply elem_of_nil in He. }
  intros crit_idx. apply rw_io_bind; [apply rw_gather; in_list|].
  intros composite. apply rw_io_bind; [|intros []; apply rw_Ok].
  apply rw_write_block. in_list.
Qed.

(** An exception of a run is raised by the choice of the criterion, by the
    [--band] pairs, or is one of [file_errors]. *)
Lemma run_raises (junk : A) (o : options) (err : error) :
  (image_composite fs junk o).2 = Raise err →
  (select_expr (A:=A) (verbose o) (algo o) (expr o)).2 = Raise err
  ∨ merge_user_bands (default_bands o) (band o) = Raise err
  ∨ err ∈ file_errors.
Proof.
  unfold image_composite. intros Hrun.
  apply io_bind_raises_inv in Hrun as [Hrun|(e & _ & Hrun)]; [by left|]. right.
  apply io_bind_raises_inv in Hrun as [Hrun|([] & _ & Hrun)]; [done|].
  apply io_bind_raises_inv in Hrun as [Hrun|(bands & _ & Hrun)]; [by left|]. right.
  revert err Hrun. cbv zeta.
  apply rw_io_bind; [apply rw_or_raise; in_list|]. intros p0.
  apply rw_io_bind; [apply rw_rasterio_open; in_list|]. intros first.
  apply rw_io_bind.
  { destruct (decide _); [apply rw_Ok|].
    apply rw_io_bind; [apply rw_Ok|]. intros []. apply rw_Raise. in_list. }
  intros []. apply rw_io_bind; [apply rw_or_raise; in_list|]. intros [R C].
  apply rw_io_bind; [apply rw_Ok|]. intros []. unfold np_meshgrid_ij.
  apply rw_io_bind; [|intros dat; apply rw_Ok].
  apply rw_foldM. intros dat [idx w].
  eapply rw_weaken; [|apply rw_composite_block].
  intros e' He'. by apply list_elem_of_further.
Qed.

(** The choice of the criterion raises [UsageError] when neither an
    algorithm nor an expression is given, and [KeyError] otherwise. *)
Lemma select_expr_raises (v : bool) (a e : option string) (err : error) :
  (select_expr (A:=A) v a e).2 = Raise err →
  (err = UsageError ∧ truthy a = false ∧ truthy e = false) ∨ err = KeyError.
Proof.
  unfold select_expr. destruct (negb (truthy a) && negb (truthy e)) eqn:Hb.
  { intros [= <-]. left. apply andb_true_iff in Hb as [Ha He].
    by rewrite negb_true_iff in Ha, He. }
  assert (∀ a', (lift (A:=A) (or_raise KeyError (_ALGO !! a'))).2 = Raise err →
            err = KeyError) as Hkey.
  { intros a'. unfold lift. cbn [snd]. destruct (_ALGO !! a'); [done|].
    by intros [= <-]. }
  destruct a as [a|], e as [e|]; [| |done|by intros [= <-]; left].
  - intros Hr. apply io_bind_raises_inv in Hr as [Hr|([] & _ & Hr)]; [done|].
    right. by eapply Hkey.
  - intros Hr. apply io_bind_raises_inv in Hr as [Hr|([] & _ & Hr)].
    + unfold log in Hr. by destruct v.
    + right. by eapply Hkey.
Qed.

Lemma not_file_error (err : error) :
  err ∈ file_errors → err ≠ UsageError ∧ err ≠ BadParameter ∧ err ≠ KeyError.
Proof.
  intros He. unfold file_errors, block_errors in He.
  repeat (apply elem_of_cons in He as [->|He]; [done|]). by apply elem_of_nil in He.
Qed.

(** X13. The usage error.  When neither [--algo] nor [--expr] is given (an
    empty string counts as not given), the run raises [UsageError] at once:
    nothing is logged and no file is touched.  And this is the only way a
    run ends in [UsageError]. *)
Theorem usage_error_iff_no_criterion (junk : A) (o : options) :
  (truthy (algo o) = false ∧ truthy (expr o) = false →
   image_composite fs junk o = ([], Raise UsageError))
  ∧ ((image_composite fs junk o).2 = Raise UsageError →
     truthy (algo o) = false ∧ truthy (expr o) = false).
Proof.
  split.
  - intros [Halgo Hexpr]. unfold image_composite.
    apply io_bind_raise. unfold select_expr. by rewrite Halgo, Hexpr.
  - intros Hrun. apply run_raises in Hrun as [Hsel|[Hmerge|Hfile]].
    + apply select_expr_raises in Hsel as [(_ & ? & ?)|?]; [by split|done].
    + by apply merge_user_bands_error in Hmerge.
    + by apply not_file_error in Hfile as (? & _).
Qed.

(** X14. A [--band] pair that is no integer.  Once a criterion is chosen, a
    [--band NAME=INDEX] pair whose index [int] rejects makes the run raise
    [BadParameter] after logging the criterion and before any file is
    touched.  And a run of the command's body ends in [BadParameter] only
    for this reason. *)
Theorem bad_parameter_iff_bad_band_pair (junk : A) (o : options) :
  (∀ lg e, select_expr (verbose o) (algo o) (expr o) = (lg, Ok e) →
     Exists (λ kv, py_int kv.2 = None) (band o) →
     image_composite fs junk o
     = (lg ++ [EvLog Info ("Compositing criteria S-expression: " +:+ e)],
        Raise BadParameter))
  ∧ ((image_composite fs junk o).2 = Raise BadParameter →
     Exists (λ kv, py_int kv.2 = None) (band o)).
Proof.
  split.
  - intros lg e Hsel Hbad.
    apply merge_user_bands_raises with (_bands := default_bands o) in Hbad.
    unfold image_composite.
    eapply io_bind_intro; [exact Hsel|].
    change [EvLog Info ("Compositing criteria S-expression: " +:+ e)]
      with ([EvLog (A:=A) Info ("Compositing criteria S-expression: " +:+ e)] ++ []).
    eapply io_bind_intro; [reflexivity|].
    apply io_bind_raise. unfold lift. by rewrite Hbad.
  - intros Hrun. apply run_raises in Hrun as [Hsel|[Hmerge|Hfile]].
    + apply select_expr_raises in Hsel as [(? & _)|?]; done.
    + by apply merge_user_bands_raises in Hmerge.
    + by apply not_file_error in Hfile as (_ & ? & _).
Qed.

(** X15. The abort.  A run ends in [click.Abort] only when there is a first
    input, it could be opened, and its bands do not all report one block
    shape: nothing else in the run aborts. *)
Theorem abort_only_for_uneven_block_shapes (junk : A) (o : options) :
  (image_composite fs junk o).2 = Raise Abort →
  ∃ p0 first, inputs o !! 0%nat = Some p0 ∧ fs !! p0 = Some first
    ∧ length (remove_dups (block_shapes first)) ≠ 1%nat.
Proof.
  unfold image_composite. intros Hrun.
  apply io_bind_raises_inv in Hrun as [Hsel|(e & _ & Hrun)].
  { apply select_expr_raises in Hsel as [(? & _)|?]; done. }
  apply io_bind_raises_inv in Hrun as [Hrun|([] & _ & Hrun)]; [done|].
  apply io_bind_raises_inv in Hrun as [Hmerge|(bands & _ & Hrun)].
  { by apply merge_user_bands_error in Hmerge. }
  cbv zeta in Hrun.
  apply io_bind_raises_inv in Hrun as [Hp0|(p0 & Hp0 & Hrun)].
  { unfold lift in Hp0. cbn [snd] in Hp0. by destruct (inputs o !! 0%nat). }
  apply or_raise_Ok in Hp0.
  apply io_bind_raises_inv in Hrun as [Hopen|(first & Hfirst & Hrun)].
  { apply (rw_rasterio_open [IOError]) in Hopen; [|in_list].
    by apply list_elem_of_singleton in Hopen. }
  unfold rasterio_open in Hfirst. cbn in Hfirst. apply or_raise_Ok in Hfirst.
  exists p0, first. split; [done|]. split; [done|]. intros Heven.
  apply io_bind_raises_inv in Hrun as [Hcheck|([] & _ & Hrun)].
  { by rewrite decide_True in Hcheck. }
  match type of Hrun with
  | ?m = _ => enough (raises_within block_errors m) as Hrw
  end.
  { specialize (Hrw _ Hrun). unfold block_errors in Hrw.
    repeat (apply elem_of_cons in Hrw as [?|Hrw]; [done|]).
    by apply elem_of_nil in Hrw. }
  apply rw_io_bind; [apply rw_or_raise; in_list|]. intros [R C].
  apply rw_io_bind; [apply rw_Ok|]. intros []. unfold np_meshgrid_ij.
  apply rw_io_bind; [|intros dat; apply rw_Ok].
  apply rw_foldM. intros dat [idx w]. apply rw_composite_block.
Qed.

(** *** The predefined algorithms (lines 28-34) *)

Lemma known_max : known_call (func_map (A:=A)) "max".
Proof. right. left. vm_compute. by eexists. Qed.
Lemma known_min : known_call (func_map (A:=A)) "min".
Proof. right. left. vm_compute. by eexists. Qed.
Lemma known_median : known_call (func_map (A:=A)) "median".
Proof. right. left. vm_compute. by eexists. Qed.
Lemma known_div : known_call (func_map (A:=A)) "/".
Proof. left. vm_compute. by eexists. Qed.
Lemma known_sub : known_call (func_map (A:=A)) "-".
Proof. left. vm_compute. by eexists. Qed.
Lemma known_add : known_call (func_map (A:=A)) "+".
Proof. left. vm_compute. by eexists. Qed.

(** What the table of lines 28-34 holds: every expression reads as nested
    applications of known functions to default band names. *)
Lemma _ALGO_expressions (a e : string) :
  _ALGO !! a = Some e →
  ∃ s, read_sexp e = Ok s ∧ applications s = true
     ∧ (∀ x, x ∈ free_names s → x ∈ ["blue"; "red"; "nir"]%string)
     ∧ (∀ f, f ∈ calls s → known_call (func_map (A:=A)) f).
Proof.
  intros Ha. unfold _ALGO in Ha.
  apply elem_of_list_to_map_2 in Ha.
  repeat (apply elem_of_cons in Ha as [Ha|Ha]; [injection Ha as -> ->|]);
    [..|by apply elem_of_nil in Ha];
    (eexists; split; [vm_compute; reflexivity|]; split; [reflexivity|]; split;
     [intros x Hx; cbn in Hx;
      repeat (apply elem_of_cons in Hx as [->|Hx]);
      [..|by apply elem_of_nil in Hx]; repeat constructor
     |intros f Hf; cbn in Hf;
      repeat (apply elem_of_cons in Hf as [->|Hf]);
      [..|by apply elem_of_nil in Hf];
      auto using known_max, known_min, known_median, known_div, known_sub, known_add]).
Qed.

(** On slices that could be taken, the expression of a predefined algorithm
    evaluates without an [ExpressionError], whatever the [--band] pairs. *)
Lemma predefined_algorithm_eval (o : options) (bands : gmap string Z)
    (a e : string) (dat : list (stack A)) (crit : gmap string (value A)) :
  _ALGO !! a = Some e →
  merge_user_bands (default_bands o) (band o) = Ok bands →
  crit_of (crit_indices bands e) dat = Ok crit →
  snuggs_eval func_map crit e ≠ Raise ExpressionError.
Proof.
  intros Ha Hmerge Hcrit.
  destruct (_ALGO_expressions a e Ha) as (s & Hs & Happ & Hnames & Hcalls).
  destruct (resolve_total func_map crit s Happ) as [r Hr]; [|done|].
  2: { unfold snuggs_eval. rewrite Hs. cbn. rewrite Hr. cbn. intros Hraise.
       apply (rw_processArg func_map crit calm_func_map s r Hr) in Hraise.
       repeat (apply elem_of_cons in Hraise as [?|Hraise]; [done|]).
       by apply elem_of_nil in Hraise. }
  intros x Hx.
  assert (is_Some (bands !! x)) as [i Hi].
  { apply (merge_user_bands_keeps _ _ _ _ Hmerge).
    specialize (Hnames x Hx). unfold default_bands.
    repeat (apply elem_of_cons in Hnames as [->|Hnames]);
      [..|by apply elem_of_nil in Hnames]; vm_compute; by eexists. }
  destruct (crit_of_lookup (crit_indices bands e) dat crit x (i - 1) Hcrit)
    as (v & Hv & _); [|by eexists].
  apply crit_indices_lookup. exists i. split; [done|]. split; [done|].
  by eapply read_sexp_names_in_text.
Qed.

(** A block turn raises [ExpressionError] only from the evaluation of the
    criterion, on slices that could be taken. *)
Lemma composite_block_ExpressionError (o : options) (expr : string)
    (ci : gmap string Z) (count R C : nat) (mi mj : plane Z)
    (dat : list (stack A)) (w : window) :
  (composite_block fs o expr ci count R C mi mj dat w).2 = Raise ExpressionError →
  ∃ dat1 crit, crit_of ci dat1 = Ok crit
    ∧ snuggs_eval func_map crit expr = Raise ExpressionError.
Proof.
  unfold composite_block. intros Hr.
  apply io_bind_raises_inv in Hr as [Hr|(dat1 & _ & Hr)].
  { apply (rw_read_block [IOError; ValueError]) in Hr; [|in_list..].
    repeat (apply elem_of_cons in Hr as [?|Hr]; [done|]). by apply elem_of_nil in Hr. }
  apply io_bind_raises_inv in Hr as [Hr|(crit & Hcrit & Hr)].
  { apply (rw_crit_of [IndexError]) in Hr; [|in_list].
    by apply list_elem_of_singleton in Hr. }
  apply io_bind_raises_inv in Hr as [Hr|(crit_idx & _ & Hr)]; [by exists dat1, crit|].
  apply io_bind_raises_inv in Hr as [Hr|(composite & _ & Hr)].
  { apply (rw_gather [IndexError]) in Hr; [|in_list].
    by apply list_elem_of_singleton in Hr. }
  apply io_bind_raises_inv in Hr as [Hr|([] & _ & Hr)]; [|done].
  apply (rw_write_block [IndexError]) in Hr; [|in_list].
  by apply list_elem_of_singleton in Hr.
Qed.

(** X16. The predefined algorithms are sound expressions.  A run with an
    algorithm of the table never ends in snuggs' [ExpressionError], whatever
    the inputs, the band options and the [--band] pairs are: the expression
    of every algorithm reads, names only default bands, which line 141
    selects, and calls only functions that snuggs or lines 144-147
    provide. *)
Theorem predefined_algorithm_has_no_expression_error (junk : A) (o : options)
    (a e : string) :
  algo o = Some a → _ALGO !! a = Some e →
  (image_composite fs junk o).2 ≠ Raise ExpressionError.
Proof.
  intros Halgo Ha. unfold image_composite. rewrite Halgo.
  destruct (select_expr_algo (A:=A) (verbose o) a e (expr o) Ha) as (lg & -> & _).
  intros Hr.
  apply io_bind_raises_inv in Hr as [Hr|(e' & [= <-] & Hr)]; [done|].
  apply io_bind_raises_inv in Hr as [Hr|([] & _ & Hr)]; [done|].
  apply io_bind_raises_inv in Hr as [Hr|(bands & Hmerge & Hr)].
  { by apply merge_user_bands_error in Hr. }
  unfold lift in Hmerge. cbn [snd] in Hmerge. cbv zeta in Hr.
  apply io_bind_raises_inv in Hr as [Hr|(p0 & _ & Hr)].
  { unfold lift in Hr. cbn [snd] in Hr. by destruct (inputs o !! 0%nat). }
  apply io_bind_raises_inv in Hr as [Hr|(first & _ & Hr)].
  { apply (rw_rasterio_open [IOError]) in Hr; [|in_list].
    by apply list_elem_of_singleton in Hr. }
  apply io_bind_raises_inv in Hr as [Hr|([] & _ & Hr)].
  { destruct (decide _); done. }
  apply io_bind_raises_inv in Hr as [Hr|([R C] & _ & Hr)].
  { unfold lift in Hr. cbn [snd] in Hr. by destruct (block_shapes first !! 0%nat). }
  apply io_bind_raises_inv in Hr as [Hr|([] & _ & Hr)]; [done|].
  unfold np_meshgrid_ij in Hr.
  apply io_bind_raises_inv in Hr as [Hr|(dat & _ & Hr)]; [|done].
  apply foldM_raises_inv in Hr as (dat & [idx w] & _ & Hr).
  apply composite_block_ExpressionError in Hr as (dat1 & crit & Hcrit & Hr).
  by eapply (predefined_algorithm_eval o bands a e dat1 crit).
Qed.
End run_exceptions.

(** ** Sample runs of the further properties *)

(** X1 on [--blue 0]: the callback rejects it. *)
Lemma cli_band_options_validated_witness :
  image_composite_cli (np:=numpy_sample) (two_inputs img_a img_b) 0%Q
    [PyStr "0"; PyInt 2; PyInt 3; PyInt 4; PyInt 5; PyInt 6]
    (with_algo (default_options ["a"; "b"]%string) "maxNDVI")
  = ([], Raise BadParameter).
Proof.
  apply (proj2 (cli_band_options_validated (np:=numpy_sample) (two_inputs img_a img_b) 0%Q
                  (with_algo (default_options ["a"; "b"]%string) "maxNDVI")
                  (PyStr "0") (PyInt 2) (PyInt 3) (PyInt 4) (PyInt 5) (PyInt 6))).
  apply Exists_cons_hd. intros z Hz. vm_compute in Hz. injection Hz as <-. lia.
Defined.

(** X2 on [--band cirrus=7] over the default band map. *)
Lemma merge_user_bands_lookup_witness :
  ∃ i, py_int "7" = Some i
     ∧ (<["cirrus"%string := 7]> (default_bands (default_options []))) !! "cirrus"%string
       = Some i.
Proof.
  apply (proj1 (merge_user_bands_lookup (default_bands (default_options []))
                  (<["cirrus"%string := 7]> (default_bands (default_options [])))
                  [("cirrus", "7")]%string eq_refl (NoDup_singleton _))).
  apply list_elem_of_here.
Defined.

(** X3 on the criterion of ZheZhu: [nir] is band 4, selected as index 3. *)
Lemma needed_bands_are_selected_witness :
  crit_indices (default_bands (default_options [])) "(max (/ nir blue))" !! "nir"%string
  = Some (4 - 1).
Proof.
  apply (needed_bands_are_selected _ "(max (/ nir blue))"
           (SList [Atom "max"; SList [Atom "/"; Atom "nir"; Atom "blue"]]) "nir" 4).
  - vm_compute. reflexivity.
  - vm_compute. constructor.
  - vm_compute. reflexivity.
Defined.

(** X4 on the blocks of the two sample images: [nir] is bound to their
    fourth bands, 40 and 100. *)
Lemma criterion_sees_numbered_bands_witness :
  ∃ a, ({[ "nir"%string := VStack [[[40%Q]]; [[100%Q]]] ]} : gmap string (value Q))
         !! "nir"%string = Some (VStack a)
     ∧ length a = length [block_a; block_b]
     ∧ ∀ j img, [block_a; block_b] !! j = Some img →
         ∃ x, img !! (Z.to_nat 4 - 1)%nat = Some x ∧ a !! j = Some x.
Proof.
  apply (criterion_sees_numbered_bands (default_bands (default_options []))
           "(max nir)" [block_a; block_b]).
  - vm_compute. reflexivity.
  - vm_compute. reflexivity.
  - lia.
  - vm_compute. reflexivity.
Defined.

(** X6 on the two sample images. *)
Lemma full_blocks_fill_the_buffer_witness :
  read_block (two_inputs img_a img_b) ["a"; "b"]%string 6 1 1 one_pixel_window
    (np_empty 2 6 1 1 0%Q)
  = (read_events ["a"; "b"]%string one_pixel_window, Ok [block_a; block_b]).
Proof.
  apply full_blocks_fill_the_buffer; [reflexivity|].
  constructor; [|constructor; [|constructor]].
  - exists (one_pixel img_a). split; [vm_compute; reflexivity|].
    split; [vm_compute; reflexivity|]. split; [reflexivity|]. repeat constructor.
  - exists (one_pixel img_b). split; [vm_compute; reflexivity|].
    split; [vm_compute; reflexivity|]. split; [reflexivity|]. repeat constructor.
Defined.

(** X7 on a raster of two rows in blocks of three rows. *)
Lemma odd_sized_block_raises_ValueError_witness :
  composite_block (np:=numpy_sample) {[ "a"%string := short_raster ]}
    (expr_options ["a"]%string "(max blue)") "(max blue)" {[ "blue"%string := 0 ]}
    1 3 1 (np_meshgrid_ij 3 1).1 (np_meshgrid_ij 3 1).2 (np_empty 1 1 3 1 0%Q)
    (Window 0 2 0 1)
  = ([EvOpen "a"; EvRead "a" (Window 0 2 0 1)], Raise ValueError).
Proof.
  apply (odd_sized_block_raises_ValueError (np:=numpy_sample) {[ "a"%string := short_raster ]}
           (expr_options ["a"]%string "(max blue)") "(max blue)" {[ "blue"%string := 0 ]}
           1 3 1 (np_meshgrid_ij 3 1).1 (np_meshgrid_ij 3 1).2 (np_empty 1 1 3 1 0%Q)
           (Window 0 2 0 1) "a" short_raster [[[1]; [2]]]%Q [[1]; [2]]%Q).
  - reflexivity.
  - vm_compute. reflexivity.
  - vm_compute. reflexivity.
  - apply list_elem_of_here.
  - left. simpl. lia.
Defined.

(** X8 on [--band cirrus=9] with six-band inputs. *)
Lemma band_number_beyond_count_fails_in_first_block_witness :
  image_composite (np:=numpy_sample) (two_inputs img_a img_b) 0%Q (cirrus_options "9")
  = (prelude (cirrus_options "9") [] "(max cirrus)" "a"
       ++ EvCreate "composite.gtif" "GTiff"
       :: read_events ["a"; "b"]%string one_pixel_window,
     Raise IndexError).
Proof.
  eapply (band_number_beyond_count_fails_in_first_block (np:=numpy_sample)
            (two_inputs img_a img_b) 0%Q
            (cirrus_options "9") [] "(max cirrus)"
            (<["cirrus"%string := 9]> (default_bands (default_options [])))
            "cirrus" 9 "a" (one_pixel img_a) 1 1 (0, 0)%nat one_pixel_window []
            (read_events ["a"; "b"]%string one_pixel_window) [block_a; block_b]).
  - vm_compute. reflexivity.
  - vm_compute. reflexivity.
  - vm_compute. reflexivity.
  - vm_compute. reflexivity.
  - left. simpl. lia.
  - reflexivity.
  - vm_compute. reflexivity.
  - vm_compute. reflexivity.
  - vm_compute. reflexivity.
  - vm_compute. reflexivity.
  - vm_compute. reflexivity.
Defined.

(** X9 on the maxNIR composite of the two sample images. *)
Lemma completed_run_covers_every_block_witness :
  ∃ lg e p0 first blocks,
    select_expr (A:=Q) false (Some "maxNIR"%string) None = (lg, Ok e)
    ∧ ["a"; "b"]%string !! 0%nat = Some p0
    ∧ two_inputs img_a img_b !! p0 = Some first
    ∧ length blocks = length (block_windows first)
    ∧ Forall (λ planes, length planes = count first) blocks
    ∧ two_image_run "(max nir)" img_b
      = prelude (with_algo (default_options ["a"; "b"]%string) "maxNIR") lg e p0
          ++ EvCreate "composite.gtif" "GTiff"
          :: concat (zip_with
                       (λ iw planes,
                          block_events (with_algo (default_options ["a"; "b"]%string)
                                          "maxNIR") (count first) iw.2 planes)
                       (block_windows first) blocks).
Proof.
  apply (completed_run_covers_every_block (np:=numpy_sample) (two_inputs img_a img_b) 0%Q
           (with_algo (default_options ["a"; "b"]%string) "maxNIR")
           (two_image_run "(max nir)" img_b)).
  vm_compute. reflexivity.
Defined.

(** X10 on two copies of the first sample image. *)
Lemma copies_of_one_image_give_it_back_witness :
  ∃ lg e p0 xs,
    select_expr (A:=Q) false (Some "maxNIR"%string) None = (lg, Ok e)
    ∧ ["a"; "b"]%string !! 0%nat = Some p0
    ∧ Forall2 (λ iw x, read (one_pixel img_a) iw.2 = Some x)
        (block_windows (one_pixel img_a)) xs
    ∧ two_image_run "(max nir)" img_a
      = prelude (with_algo (default_options ["a"; "b"]%string) "maxNIR") lg e p0
          ++ EvCreate "composite.gtif" "GTiff"
          :: concat (zip_with
                       (λ iw x,
                          block_events (with_algo (default_options ["a"; "b"]%string)
                                          "maxNIR") (count (one_pixel img_a)) iw.2 x)
                       (block_windows (one_pixel img_a)) xs).
Proof.
  apply (copies_of_one_image_give_it_back (np:=numpy_sample) (two_inputs img_a img_a) 0%Q
           (with_algo (default_options ["a"; "b"]%string) "maxNIR")
           (two_image_run "(max nir)" img_a) (one_pixel img_a) 1 1).
  - intros p Hp. simpl in Hp.
    repeat (apply elem_of_cons in Hp as [->|Hp]);
      [vm_compute; reflexivity..|by apply elem_of_nil in Hp].
  - reflexivity.
  - constructor; [|constructor]. exists block_a.
    split; [vm_compute; reflexivity|]. split; [reflexivity|]. repeat constructor.
  - vm_compute. reflexivity.
Defined.

(** X11 on the maxNDVI composite of the two sample images. *)
Lemma run_touches_only_inputs_and_output_witness :
  Forall (within_options (with_algo (default_options ["a"; "b"]%string) "maxNDVI"))
    (image_composite (np:=numpy_sample) (two_inputs img_a img_b) 0%Q
       (with_algo (default_options ["a"; "b"]%string) "maxNDVI")).1.
Proof.
  exact (proj2 (run_touches_only_inputs_and_output (np:=numpy_sample)
                  (two_inputs img_a img_b) 0%Q
                  (with_algo (default_options ["a"; "b"]%string) "maxNDVI")
                  "maxNDVI" eq_refl)).
Defined.

(** X12 on a command line without input paths. *)
Lemma no_input_is_index_error_witness :
  image_composite (np:=numpy_sample) (two_inputs img_a img_b) 0%Q (expr_options [] "(max nir)")
  = ([EvLog Info "Compositing criteria S-expression: (max nir)"], Raise IndexError).
Proof.
  apply (no_input_is_index_error (np:=numpy_sample) (two_inputs img_a img_b) 0%Q
           (expr_options [] "(max nir)") [] "(max nir)"
           (default_bands (default_options []))).
  - vm_compute. reflexivity.
  - reflexivity.
  - reflexivity.
Defined.

(** X13 on a command line with neither [--algo] nor [--expr]. *)
Lemma usage_error_iff_no_criterion_witness :
  image_composite (np:=numpy_sample) (two_inputs img_a img_b) 0%Q
    (default_options ["a"; "b"]%string)
  = ([], Raise UsageError).
Proof.
  exact (proj1 (usage_error_iff_no_criterion (np:=numpy_sample) (two_inputs img_a img_b) 0%Q
                  (default_options ["a"; "b"]%string)) (conj eq_refl eq_refl)).
Defined.

(** X14 on [--band cirrus=nine]. *)
Lemma bad_parameter_iff_bad_band_pair_witness :
  image_composite (np:=numpy_sample) (two_inputs img_a img_b) 0%Q (cirrus_options "nine")
  = ([EvLog Info "Compositing criteria S-expression: (max cirrus)"],
     Raise BadParameter).
Proof.
  apply (proj1 (bad_parameter_iff_bad_band_pair (np:=numpy_sample) (two_inputs img_a img_b) 0%Q
                  (cirrus_options "nine")) [] "(max cirrus)").
  - vm_compute. reflexivity.
  - apply Exists_cons_hd. vm_compute. reflexivity.
Defined.

(** X15 on a first input whose second band has another block shape. *)
Lemma abort_only_for_uneven_block_shapes_witness :
  ∃ p0 first,
    ["a"; "b"]%string !! 0%nat = Some p0
    ∧ ({[ "a"%string := uneven_blocks (one_pixel img_a);
          "b"%string := one_pixel img_b ]} : gmap string (raster Q)) !! p0 = Some first
    ∧ length (remove_dups (block_shapes first)) ≠ 1%nat.
Proof.
  apply (abort_only_for_uneven_block_shapes (np:=numpy_sample)
           {[ "a"%string := uneven_blocks (one_pixel img_a);
              "b"%string := one_pixel img_b ]} 0%Q
           (with_algo (default_options ["a"; "b"]%string) "maxNDVI")).
  vm_compute. reflexivity.
Defined.

(** X16 on the maxNDVI composite of the two sample images. *)
Lemma predefined_algorithm_has_no_expression_error_witness :
  (image_composite (np:=numpy_sample) (two_inputs img_a img_b) 0%Q
     (with_algo (default_options ["a"; "b"]%string) "maxNDVI")).2
  ≠ Raise ExpressionError.
Proof.
  apply (predefined_algorithm_has_no_expression_error (np:=numpy_sample)
            (two_inputs img_a img_b) 0%Q
           (with_algo (default_options ["a"; "b"]%string) "maxNDVI") "maxNDVI"
           "(max (/ (- nir red) (+ nir red)))").
  - reflexivity.
  - vm_compute. reflexivity.
Defined.
